(** * The background task scheduler of eve-roster

    A shallow embedding of [Scheduler] (the scheduler source, class
    [Scheduler] with its [JobChannel] helper) together with the part of the
    event loop it relies on: pending promise callbacks and pending timers.

    The scheduler is single-threaded JavaScript.  Every method runs to
    completion; the asynchronous parts of [_executeJob] are the callbacks of
    one promise chain

      startJob(..).then(cb1).catch(cb2).then(cb3).catch(cb4).then(cb5)

    and the [setTimeout] callback.  The model makes each of them an event and
    leaves their interleaving to the environment. *)

From stdpp Require Import gmap strings list pretty.
From Stdlib Require Import ZArith Lia Sorted.

Local Open Scope string_scope.

(** ** Values *)

(** Job objects are identified by reference.  [_nextExecutionId] numbers
    the jobs as they are created, so the reference of a job is its
    [executionId]. *)
Abbreviation ref := nat (only parsing).

(** A task executor is an opaque function; only its name matters here, its
    behaviour is supplied by the events below. *)
Definition TaskExecutor := nat.

Inductive JobStatus := StQueued | StRunning | StFinished.
Inductive JobResult := ResPending | ResSuccess | ResPartial | ResFailure.

#[global] Instance JobStatus_eq_dec : EqDecision JobStatus.
Proof. solve_decision. Defined.
#[global] Instance JobResult_eq_dec : EqDecision JobResult.
Proof. solve_decision. Defined.

(** What a promise can be rejected with, or a function can throw: [any].
    The scheduler looks at such a value three ways: its truthiness, its
    [message] property and its [toString()].  [JsError m] is [new Error(m)].
    [JsObject message toStr] is any other object: its [message] property, when
    that is a string, and the string its [toString()] returns; [toStr] is
    [None] when [toString] is not callable or throws, as for
    [Object.create(null)]. *)
Inductive JsValue :=
  | JsUndefined
  | JsNull
  | JsBool (b : bool)
  | JsNumber (n : Z)
  | JsString (s : string)
  | JsError (message : string)
  | JsObject (message : option string) (toStr : option string).

Definition truthy (v : JsValue) : bool :=
  match v with
  | JsUndefined | JsNull => false
  | JsBool b => b
  | JsNumber n => negb (n =? 0)%Z
  | JsString s => negb (String.eqb s "")
  | JsError _ | JsObject _ _ => true
  end.

(** [executorError.message || executorError.toString()]: the message when it
    is not empty, else the result of [toString()].  [None]: the expression
    throws a [TypeError] (a property read on [undefined] or [null], a
    [toString] that cannot be called). *)
Definition errorText (v : JsValue) : option string :=
  match v with
  | JsUndefined | JsNull => None
  | JsBool b => Some (if b then "true" else "false")
  | JsNumber n => Some (pretty n)
  | JsString s => Some s
  | JsError m => Some (if String.eqb m "" then "Error" else m)
  | JsObject (Some m) ts => if String.eqb m "" then ts else Some m
  | JsObject None ts => ts
  end.

(** The [Timeout] object that [setTimeout] returns and [job.timeoutId]
    holds, with the state the event loop keeps for it. *)
Inductive Timer := TimerArmed | TimerFired | TimerCleared.

#[global] Instance Timer_eq_dec : EqDecision Timer.
Proof. solve_decision. Defined.

(** Modelled from the spec: class [JobImpl] is imported by the scheduler but
    its file is not part of the sources.  The fields are the ones the
    scheduler reads and writes; a job is created [queued] with empty warning
    and error lists, [warning] and [error] append, [setStatus] stores status
    and result.  The result is [None] when [setStatus] was handed
    [undefined]: cb5 passes the variable [jobResult], which is declared
    without a value and assigned in cb3. *)
Record JobImpl := mkJob {
  executionId : nat;
  taskName : string;
  executor : TaskExecutor;
  timeout : Z;
  channel : option string;
  silent : bool;
  logId : option Z;
  startTime : option Z;
  timeoutId : option Timer;
  timedOut : bool;
  status : JobStatus;
  result : option JobResult;
  warnings : list string;
  errors : list string
}.

Definition newJobImpl (id : nat) (tn : string) (ex : TaskExecutor)
    (ms : Z) (ch : option string) (sil : bool) : JobImpl :=
  mkJob id tn ex ms ch sil None None None false StQueued (Some ResPending) [] [].

Definition set_logId (v : Z) (j : JobImpl) : JobImpl :=
  mkJob (executionId j) (taskName j) (executor j) (timeout j) (channel j)
    (silent j) (Some v) (startTime j) (timeoutId j) (timedOut j) (status j)
    (result j) (warnings j) (errors j).

Definition set_startTime (v : Z) (j : JobImpl) : JobImpl :=
  mkJob (executionId j) (taskName j) (executor j) (timeout j) (channel j)
    (silent j) (logId j) (Some v) (timeoutId j) (timedOut j) (status j)
    (result j) (warnings j) (errors j).

Definition set_timeoutId (v : Timer) (j : JobImpl) : JobImpl :=
  mkJob (executionId j) (taskName j) (executor j) (timeout j) (channel j)
    (silent j) (logId j) (startTime j) (Some v) (timedOut j) (status j)
    (result j) (warnings j) (errors j).

Definition set_timedOut (v : bool) (j : JobImpl) : JobImpl :=
  mkJob (executionId j) (taskName j) (executor j) (timeout j) (channel j)
    (silent j) (logId j) (startTime j) (timeoutId j) v (status j)
    (result j) (warnings j) (errors j).

Definition setStatus (st : JobStatus) (r : option JobResult) (j : JobImpl) : JobImpl :=
  mkJob (executionId j) (taskName j) (executor j) (timeout j) (channel j)
    (silent j) (logId j) (startTime j) (timeoutId j) (timedOut j) st
    r (warnings j) (errors j).

Definition warning (m : string) (j : JobImpl) : JobImpl :=
  mkJob (executionId j) (taskName j) (executor j) (timeout j) (channel j)
    (silent j) (logId j) (startTime j) (timeoutId j) (timedOut j) (status j)
    (result j) (warnings j ++ [m]) (errors j).

Definition error (m : string) (j : JobImpl) : JobImpl :=
  mkJob (executionId j) (taskName j) (executor j) (timeout j) (channel j)
    (silent j) (logId j) (startTime j) (timeoutId j) (timedOut j) (status j)
    (result j) (warnings j) (errors j ++ [m]).

(** [class JobChannel] *)
Record JobChannel := mkChannel {
  name : string;
  runningJob : option ref;
  queue : list ref
}.

(** [interface TaskOptions]: both fields are optional. *)
Record TaskOptions := mkOptions {
  optChannel : option string;
  optSilent : option bool
}.

(** ** Observable effects

    Calls that leave the scheduler: to the persistence sink ([dao.cron]),
    to the executor, to the timer API and to the logger.  They are recorded
    in call order. *)
Inductive LogLevel := LvlInfo | LvlWarn | LvlError.

Inductive LogMsg :=
  | MsgStart (j : ref)
  | MsgExecutorError (j : ref)
  | MsgValue (e : JsValue)
  | MsgFinish (j : ref) (r : JobResult) (nwarnings : nat)
  | MsgQueued (tn cn : string)
  | MsgStalled (cn : string) (names : list string)
  | MsgDbFailure.

Inductive Effect :=
  | SinkStartJob (tn : string)
  | SinkFinishJob (id : Z) (r : JobResult)
  | Invoke (j : ref) (ex : TaskExecutor)
  | SetTimeout (j : ref) (ms : Z)
  | ClearTimeout (j : ref)
  | Log (lvl : LogLevel) (m : LogMsg).

(** ** The promise chain of [_executeJob]

    Where the chain of one job stands: which callback runs next, with the
    closure variables [executorError] and [jobResult] it has set so far
    ([jobResult] is [None] until cb3 assigns it). *)
Inductive Chain :=
  | NotStarted                              (* [_executeJob] not called yet *)
  | AwaitStart                              (* [startJob] pending; cb1 next *)
  | AwaitWork                               (* executor's promise pending *)
  | AwaitConclude (executorError : JsValue) (* cb2 done or skipped; cb3 next *)
  | AwaitFinishLog (jobResult : JobResult)  (* [finishJob] pending *)
  | AwaitCleanup (jobResult : option JobResult)  (* cb4 done or skipped; cb5 next *)
  | Settled.

(** ** Scheduler state *)
Record Scheduler := mkScheduler {
  _runningJobs : list ref;
  _channels : list JobChannel;   (* the [Map], in insertion order *)
  _nextExecutionId : nat;
  heap : gmap nat JobImpl;       (* the job objects, by reference *)
  chains : gmap nat Chain;       (* pending promise callbacks *)
  trace : list Effect
}.

Definition init : Scheduler := mkScheduler [] [] 0 ∅ ∅ [].

Definition dummyJob : JobImpl := newJobImpl 0 "" 0 0 None false.

Definition jobOf (s : Scheduler) (j : ref) : JobImpl :=
  default dummyJob (heap s !! j).

Definition chainOf (s : Scheduler) (j : ref) : Chain :=
  default NotStarted (chains s !! j).

Definition set_runningJobs (l : list ref) (s : Scheduler) : Scheduler :=
  mkScheduler l (_channels s) (_nextExecutionId s) (heap s) (chains s) (trace s).

Definition set_channels (l : list JobChannel) (s : Scheduler) : Scheduler :=
  mkScheduler (_runningJobs s) l (_nextExecutionId s) (heap s) (chains s) (trace s).

Definition set_job (j : ref) (o : JobImpl) (s : Scheduler) : Scheduler :=
  mkScheduler (_runningJobs s) (_channels s) (_nextExecutionId s)
    (<[j := o]> (heap s)) (chains s) (trace s).

Definition upd_job (j : ref) (f : JobImpl -> JobImpl) (s : Scheduler) : Scheduler :=
  set_job j (f (jobOf s j)) s.

Definition set_chain (j : ref) (c : Chain) (s : Scheduler) : Scheduler :=
  mkScheduler (_runningJobs s) (_channels s) (_nextExecutionId s)
    (heap s) (<[j := c]> (chains s)) (trace s).

Definition emit (es : list Effect) (s : Scheduler) : Scheduler :=
  mkScheduler (_runningJobs s) (_channels s) (_nextExecutionId s)
    (heap s) (chains s) (trace s ++ es).

(** ** Fatal errors

    The four [throw new Error(..)] of the scheduler. *)
Inductive Fatal :=
  | JobAlreadyExecuted (j : ref)
  | TaskAlreadyRunning (tn : string)
  | OrphanedJob (j : ref)
  | CannotRemoveJob (j : ref) (cn : string).

Definition bindF {A B : Type} (x : Fatal + A) (k : A -> Fatal + B) : Fatal + B :=
  match x with
  | inl f => inl f
  | inr a => k a
  end.

Notation "x <- e ;; k" := (bindF e (fun x => k))
  (at level 100, e at next level, right associativity).

(** ** Helpers of the source *)

(** Modelled from the spec: [findWhere] comes from [util/underscore], which is
    not part of the sources; it is underscore's [findWhere], here always
    called with [{ taskName: taskName }]: the first job of the list with that
    task name. *)
Definition findWhere (s : Scheduler) (l : list ref) (tn : string) : option ref :=
  List.find (fun j => bool_decide (taskName (jobOf s j) = tn)) l.

(** [Array.prototype.indexOf] *)
Fixpoint indexOf (j : ref) (l : list ref) : option nat :=
  match l with
  | [] => None
  | x :: l' => if decide (x = j) then Some 0 else S <$> indexOf j l'
  end.

(** [this._channels.get(cn)] *)
Definition channels_get (cn : string) (m : list JobChannel) : option JobChannel :=
  List.find (fun c => bool_decide (name c = cn)) m.

(** The channel object stored under [cn]. *)
Definition channelOf (s : Scheduler) (cn : string) : JobChannel :=
  default (mkChannel cn None []) (channels_get cn (_channels s)).

(** In-place mutation of the channel object stored under [cn]. *)
Definition upd_channel (cn : string) (f : JobChannel -> JobChannel)
    (s : Scheduler) : Scheduler :=
  set_channels
    ((fun c => if decide (name c = cn) then f c else c) <$> _channels s) s.

(** ** The scheduler *)

Definition _findRunningJob (tn : string) (s : Scheduler) : option ref :=
  findWhere s (_runningJobs s) tn.

Definition _isRunning (tn : string) (s : Scheduler) : bool :=
  bool_decide (_findRunningJob tn s <> None).

(** [_getChannel] returns the channel object; the model names it by its key
    and returns the state in which it exists. *)
Definition _getChannel (cn : string) (s : Scheduler) : Scheduler :=
  match channels_get cn (_channels s) with
  | Some _ => s
  | None => set_channels (_channels s ++ [mkChannel cn None []]) s
  end.

Definition _findQueuedTaskInChannel (tn : string) (cn : option string)
    (s : Scheduler) : option ref * Scheduler :=
  match cn with
  | None => (None, s)
  | Some c =>
      let s1 := _getChannel c s in
      (findWhere s1 (queue (channelOf s1 c)) tn, s1)
  end.

Definition _executeJob (j : ref) (s : Scheduler) : Fatal + Scheduler :=
  if negb (bool_decide (status (jobOf s j) = StQueued)) then
    inl (JobAlreadyExecuted j)
  else if _isRunning (taskName (jobOf s j)) s then
    inl (TaskAlreadyRunning (taskName (jobOf s j)))
  else
    inr (emit [SinkStartJob (taskName (jobOf s j))]
           (set_chain j AwaitStart
              (set_runningJobs (_runningJobs s ++ [j]) s))).

(** The [for] loop of [_tryRunNextJobInChannel]: index and job of the first
    queue entry whose task is not running. *)
Fixpoint firstRunnable (s : Scheduler) (q : list ref) (i : nat) : option (nat * ref) :=
  match q with
  | [] => None
  | j :: q' =>
      if _isRunning (taskName (jobOf s j)) s then firstRunnable s q' (S i)
      else Some (i, j)
  end.

Definition _tryRunNextJobInChannel (cn : string) (s : Scheduler) : Fatal + Scheduler :=
  match runningJob (channelOf s cn) with
  | Some _ => inr s
  | None =>
      match firstRunnable s (queue (channelOf s cn)) 0 with
      | Some (i, j) =>
          _executeJob j
            (upd_channel cn
               (fun c => mkChannel (name c) (Some j) (delete i (queue c))) s)
      | None =>
          match queue (channelOf s cn) with
          | [] => inr s
          | q => inr (emit [Log LvlWarn
                       (MsgStalled cn ((fun j => taskName (jobOf s j)) <$> q))] s)
          end
      end
  end.

Fixpoint unstallLoop (cns : list string) (s : Scheduler) : Fatal + Scheduler :=
  match cns with
  | [] => inr s
  | cn :: rest => s1 <- _tryRunNextJobInChannel cn s ;; unstallLoop rest s1
  end.

Definition _tryToUnstallChannels (s : Scheduler) : Fatal + Scheduler :=
  unstallLoop (name <$> _channels s) s.

Definition _removeJobFromChannel (cn : option string) (j : ref)
    (s : Scheduler) : Fatal + Scheduler :=
  match cn with
  | None => inr s
  | Some c =>
      let s1 := _getChannel c s in
      if bool_decide (runningJob (channelOf s1 c) = Some j) then
        inr (upd_channel c (fun ch => mkChannel (name ch) None (queue ch)) s1)
      else
        match indexOf j (queue (channelOf s1 c)) with
        | None => inl (CannotRemoveJob j c)
        | Some i =>
            inr (upd_channel c
                   (fun ch => mkChannel (name ch) (runningJob ch)
                                (delete i (queue ch))) s1)
        end
  end.

Definition _unregisterJob (j : ref) (s : Scheduler) : Fatal + Scheduler :=
  match indexOf j (_runningJobs s) with
  | None => inl (OrphanedJob j)
  | Some i =>
      s1 <- _removeJobFromChannel (channel (jobOf s j)) j
              (set_runningJobs (delete i (_runningJobs s)) s) ;;
      _tryToUnstallChannels s1
  end.

Definition _timeoutJob (j : ref) (s : Scheduler) : Fatal + Scheduler :=
  s1 <- _unregisterJob j s ;;
  inr (upd_job j (set_timedOut true) s1).

Definition _queueJobToChannel (j : ref) (cn : string) (s : Scheduler) : Fatal + Scheduler :=
  s1 <- _tryRunNextJobInChannel cn
          (upd_channel cn
             (fun c => mkChannel (name c) (runningJob c) (queue c ++ [j])) s) ;;
  inr (if bool_decide (runningJob (channelOf s1 cn) = Some j) then s1
       else emit [Log LvlInfo (MsgQueued (taskName (jobOf s1 j)) cn)] s1).

Definition _createAndRunJob (tn : string) (ex : TaskExecutor) (ms : Z)
    (options : TaskOptions) (s : Scheduler) : Fatal + (ref * Scheduler) :=
  let j := _nextExecutionId s in
  let job := newJobImpl j tn ex ms (optChannel options)
               (default false (optSilent options)) in
  let s1 := mkScheduler (_runningJobs s) (_channels s) (S (_nextExecutionId s))
              (<[j := job]> (heap s)) (chains s) (trace s) in
  s2 <- match optChannel options with
        | None => _executeJob j s1
        | Some cn => _queueJobToChannel j cn (_getChannel cn s1)
        end ;;
  inr (j, s2).

Definition runTask (tn : string) (ex : TaskExecutor) (ms : Z)
    (options : TaskOptions) (s : Scheduler) : Fatal + (ref * Scheduler) :=
  match _findRunningJob tn s with
  | Some j => inr (j, s)
  | None =>
      match _findQueuedTaskInChannel tn (optChannel options) s with
      | (Some j, s1) => inr (j, s1)
      | (None, s1) => _createAndRunJob tn ex ms options s1
      end
  end.

Definition getRunningJobs (s : Scheduler) : list ref := _runningJobs s.

(** ** Events

    What the environment can do: call [runTask], settle a promise the
    scheduler waits on, let the executor report through the job handle, or
    fire a timer.  An executor is invoked inside cb1; what it does before it
    returns (reports, then a promise or an exception) comes with the event. *)
Inductive Report := RWarning (m : string) | RError (m : string).

Inductive SyncOutcome := Returns | Throws (e : JsValue).

Inductive Event :=
  | EvRunTask (tn : string) (ex : TaskExecutor) (ms : Z) (options : TaskOptions)
  | EvStartJobResolved (j : ref) (jobId now : Z) (rs : list Report) (o : SyncOutcome)
  | EvStartJobRejected (j : ref) (e : JsValue)
  | EvReport (j : ref) (r : Report)
  | EvWorkFulfilled (j : ref)
  | EvWorkRejected (j : ref) (e : JsValue)
  | EvConclude (j : ref)
  | EvFinishJobSettled (j : ref) (ok : bool)
  | EvCleanup (j : ref)
  | EvTimer (j : ref).

Definition report (r : Report) (o : JobImpl) : JobImpl :=
  match r with
  | RWarning m => warning m o
  | RError m => error m o
  end.

(** cb1: [startJob] resolved with [jobId]. *)
Definition onStarted (j : ref) (jobId now : Z) (rs : list Report)
    (o : SyncOutcome) (s : Scheduler) : Scheduler :=
  let s1 := upd_job j (fun job => set_startTime now (set_logId jobId job)) s in
  let s2 := if silent (jobOf s1 j) then s1
            else emit [Log LvlInfo (MsgStart j)] s1 in
  let s3 := emit [Invoke j (executor (jobOf s2 j))] s2 in
  let s4 := upd_job j (fun job => foldl (fun b r => report r b) job rs) s3 in
  match o with
  | Throws e => set_chain j (AwaitConclude e) s4
  | Returns =>
      set_chain j AwaitWork
        (upd_job j (fun job => setStatus StRunning (Some ResPending)
                                 (set_timeoutId TimerArmed job))
           (emit [SetTimeout j (timeout (jobOf s4 j))] s4))
  end.

Definition classify (job : JobImpl) : JobResult :=
  if (0 <? length (errors job))%nat then ResFailure
  else if (0 <? length (warnings job))%nat then ResPartial
  else ResSuccess.

(** cb4, which runs when cb3 threw or [finishJob] rejected: it logs the
    failure and swallows it. *)
Definition onFinishLogFailed (s : Scheduler) : Scheduler :=
  emit [Log LvlError MsgDbFailure] s.

(** Modelled from the spec: [notNil] comes from [util/assert], which is not
    part of the sources: it returns its argument and raises when the argument
    is null or undefined.  Inside cb3 such a raise rejects the promise, so
    [finishJob] is not called and cb4 runs, which only logs.

    cb3 from its second statement on (classification, the finish log line,
    [clearTimeout], [finishJob]), with [jobResult] assigned. *)
Definition onClassified (j : ref) (s1 : Scheduler) : Scheduler :=
  let jobResult := classify (jobOf s1 j) in
  let msg := MsgFinish j jobResult (length (warnings (jobOf s1 j))) in
  let s2 := if bool_decide (jobResult = ResSuccess) then
              (if silent (jobOf s1 j) then s1 else emit [Log LvlInfo msg] s1)
            else emit [Log LvlError msg] s1 in
  let cleared :=
    if timedOut (jobOf s2 j) then Some s2
    else match timeoutId (jobOf s2 j) with
         | None => None
         | Some t =>
             Some (emit [ClearTimeout j]
                     (if decide (t = TimerArmed)
                      then upd_job j (set_timeoutId TimerCleared) s2 else s2))
         end in
  match cleared with
  | None => set_chain j (AwaitCleanup (Some jobResult)) (onFinishLogFailed s2)
  | Some s3 =>
      match logId (jobOf s3 j) with
      | None => set_chain j (AwaitCleanup (Some jobResult)) (onFinishLogFailed s3)
      | Some l =>
          set_chain j (AwaitFinishLog jobResult)
            (emit [SinkFinishJob l jobResult] s3)
      end
  end.

(** cb3: the executor has concluded, or was never reached.  When
    [executorError] is truthy and reading its text throws, cb3 ends there:
    nothing is appended to the errors, [jobResult] stays unassigned, the
    timer is not cleared, [finishJob] is not called, and cb4 logs. *)
Definition onConcluded (j : ref) (executorError : JsValue) (s : Scheduler) : Scheduler :=
  if truthy executorError then
    let s0 := emit [Log LvlError (MsgExecutorError j);
                    Log LvlError (MsgValue executorError)] s in
    match errorText executorError with
    | Some text => onClassified j (upd_job j (error text) s0)
    | None => set_chain j (AwaitCleanup None) (onFinishLogFailed s0)
    end
  else onClassified j s.

(** cb5 *)
Definition onCleanup (j : ref) (jobResult : option JobResult) (s : Scheduler)
    : Fatal + Scheduler :=
  s2 <- (if timedOut (jobOf s j) then inr s
         else s1 <- _unregisterJob j s ;; _tryToUnstallChannels s1) ;;
  inr (set_chain j Settled (upd_job j (setStatus StFinished jobResult) s2)).

(** One event.  [None]: the event cannot happen in this state. *)
Definition step (s : Scheduler) (ev : Event) : option (Fatal + Scheduler) :=
  match ev with
  | EvRunTask tn ex ms options =>
      Some (r <- runTask tn ex ms options s ;; inr (snd r))
  | EvStartJobResolved j jobId now rs o =>
      match chainOf s j with
      | AwaitStart => Some (inr (onStarted j jobId now rs o s))
      | _ => None
      end
  | EvStartJobRejected j e =>
      match chainOf s j with
      | AwaitStart => Some (inr (set_chain j (AwaitConclude e) s))
      | _ => None
      end
  | EvReport j r =>
      match chainOf s j with
      | AwaitWork => Some (inr (upd_job j (report r) s))
      | _ => None
      end
  | EvWorkFulfilled j =>
      match chainOf s j with
      | AwaitWork => Some (inr (set_chain j (AwaitConclude JsNull) s))
      | _ => None
      end
  | EvWorkRejected j e =>
      match chainOf s j with
      | AwaitWork => Some (inr (set_chain j (AwaitConclude e) s))
      | _ => None
      end
  | EvConclude j =>
      match chainOf s j with
      | AwaitConclude e => Some (inr (onConcluded j e s))
      | _ => None
      end
  | EvFinishJobSettled j ok =>
      match chainOf s j with
      | AwaitFinishLog r =>
          Some (inr (set_chain j (AwaitCleanup (Some r))
                       (if ok then s else onFinishLogFailed s)))
      | _ => None
      end
  | EvCleanup j =>
      match chainOf s j with
      | AwaitCleanup r => Some (onCleanup j r s)
      | _ => None
      end
  | EvTimer j =>
      match timeoutId (jobOf s j) with
      | Some TimerArmed =>
          Some (_timeoutJob j (upd_job j (set_timeoutId TimerFired) s))
      | _ => None
      end
  end.

(** States the scheduler can be in: from [init], by events that raise
    nothing. *)
Inductive reachable : Scheduler -> Prop :=
  | reachable_init : reachable init
  | reachable_step s ev s' :
      reachable s -> step s ev = Some (inr s') -> reachable s'.

(** Running a script of events; stops at the first event that cannot happen
    or raises. *)
Fixpoint run (evs : list Event) (s : Scheduler) : option Scheduler :=
  match evs with
  | [] => Some s
  | ev :: rest =>
      match step s ev with
      | Some (inr s') => run rest s'
      | _ => None
      end
  end.

(** * Properties *)

Local Close Scope string_scope.

(** ** Reading the state after an update *)

Lemma jobOf_upd_job_eq j f s : jobOf (upd_job j f s) j = f (jobOf s j).
Proof. unfold upd_job, set_job, jobOf; simpl. by rewrite lookup_insert_eq. Qed.

Lemma jobOf_upd_job_ne j k f s : k ≠ j → jobOf (upd_job j f s) k = jobOf s k.
Proof.
  intros Hne. unfold upd_job, set_job, jobOf; simpl.
  by rewrite lookup_insert_ne.
Qed.

Lemma jobOf_upd_job j k f s :
  jobOf (upd_job j f s) k = if decide (k = j) then f (jobOf s j) else jobOf s k.
Proof.
  case_decide as Hk; [subst; apply jobOf_upd_job_eq | by apply jobOf_upd_job_ne].
Qed.

Lemma chainOf_set_chain_eq j c s : chainOf (set_chain j c s) j = c.
Proof. unfold chainOf, set_chain; simpl. by rewrite lookup_insert_eq. Qed.

Lemma chainOf_set_chain_ne j k c s : k ≠ j → chainOf (set_chain j c s) k = chainOf s k.
Proof. intros Hne. unfold chainOf, set_chain; simpl. by rewrite lookup_insert_ne. Qed.

Lemma chainOf_set_chain j k c s :
  chainOf (set_chain j c s) k = if decide (k = j) then c else chainOf s k.
Proof.
  case_decide as Hk; [subst; apply chainOf_set_chain_eq | by apply chainOf_set_chain_ne].
Qed.

(** ** Lists: [indexOf], [splice] *)

Lemma indexOf_Some j l : j ∈ l → ∃ i, indexOf j l = Some i ∧ l !! i = Some j.
Proof.
  induction l as [|x l IH]; [by intros ?%elem_of_nil|].
  intros Hin; simpl. case_decide as Hx; [subst; by exists 0|].
  apply elem_of_cons in Hin as [->|Hin]; [done|].
  destruct (IH Hin) as (i & -> & Hi). by exists (S i).
Qed.

Lemma indexOf_lookup j l i : indexOf j l = Some i → l !! i = Some j.
Proof.
  revert i; induction l as [|x l IH]; intros i; simpl; [done|].
  case_decide as Hx; [intros [= <-]; by subst|].
  destruct (indexOf j l) as [i'|]; simpl; [|done].
  intros [= <-]. by apply IH.
Qed.

Lemma indexOf_None j l : indexOf j l = None → j ∉ l.
Proof.
  intros Hnone Hin. destruct (indexOf_Some _ _ Hin) as (i & Hi & _). congruence.
Qed.

Lemma elem_of_delete_list {A} (l : list A) i x : x ∈ delete i l → x ∈ l.
Proof.
  revert i; induction l as [|y l IH]; intros [|i]; simpl; try done.
  - intros ?; by apply elem_of_cons; right.
  - intros [->|?]%elem_of_cons; apply elem_of_cons; [by left|right; eauto].
Qed.

Lemma delete_NoDup_notin {A} (l : list A) i x :
  NoDup l → l !! i = Some x → x ∉ delete i l.
Proof.
  revert i; induction l as [|y l IH]; intros [|i]; simpl; try done.
  - intros Hnd [= ->]. by apply NoDup_cons in Hnd as [? _].
  - intros [Hy Hnd]%NoDup_cons Hi [->|Hin]%elem_of_cons.
    + apply Hy. eapply list_elem_of_lookup_2; eauto.
    + by eapply IH.
Qed.

Lemma elem_of_delete_other {A} (l : list A) i x y :
  l !! i = Some x → y ∈ l → y ≠ x → y ∈ delete i l.
Proof.
  revert i; induction l as [|z l IH]; intros [|i]; simpl; try done.
  - intros [= ->] [->|?]%elem_of_cons ?; done.
  - intros Hi [->|Hin]%elem_of_cons Hne; apply elem_of_cons; [by left|right; eauto].
Qed.

Lemma delete_NoDup {A} (l : list A) i : NoDup l → NoDup (delete i l).
Proof.
  revert i; induction l as [|y l IH]; intros [|i]; simpl; try done.
  - by intros [_ ?]%NoDup_cons.
  - intros [Hy Hnd]%NoDup_cons. apply NoDup_cons; split; [|by apply IH].
    intros Hin. apply Hy. by eapply elem_of_delete_list.
Qed.

Lemma delete_fmap_NoDup {A B} (f : A → B) (l : list A) i :
  NoDup (f <$> l) → NoDup (f <$> delete i l).
Proof.
  revert i; induction l as [|y l IH]; intros [|i]; simpl; try done.
  - by intros [_ ?]%NoDup_cons.
  - intros [Hy Hnd]%NoDup_cons. apply NoDup_cons; split; [|by apply IH].
    intros (z & Hz & Hin)%list_elem_of_fmap. apply Hy.
    apply list_elem_of_fmap. exists z; split; [done|]. by eapply elem_of_delete_list.
Qed.

Lemma delete_StronglySorted (l : list nat) i :
  StronglySorted lt l → StronglySorted lt (delete i l).
Proof.
  revert i; induction l as [|y l IH]; intros [|i]; simpl; try done.
  - by intros [? _]%StronglySorted_inv.
  - intros [Hs Hall]%StronglySorted_inv. constructor; [by apply IH|].
    apply Forall_forall. intros z Hz%elem_of_delete_list.
    rewrite Forall_forall in Hall. by apply Hall.
Qed.

Lemma delete_middle {A} (pre post : list A) x :
  delete (length pre) (pre ++ x :: post) = pre ++ post.
Proof. induction pre as [|y pre IH]; simpl; [done|]. by rewrite IH. Qed.

(** ** The running set by task name *)

Definition nameOf (s : Scheduler) (j : ref) : string := taskName (jobOf s j).

Definition runningNames (s : Scheduler) : list string :=
  nameOf s <$> _runningJobs s.

Lemma find_name_Some (g : ref → string) l tn j :
  List.find (fun k => bool_decide (g k = tn)) l = Some j →
  j ∈ l ∧ g j = tn ∧
  ∃ pre post, l = pre ++ j :: post ∧ Forall (fun k => g k ≠ tn) pre.
Proof.
  induction l as [|x l IH]; simpl; [done|].
  case_bool_decide as Hx.
  - intros [= <-]. split; [by left|]. split; [done|]. by exists [], l.
  - intros Hf. destruct (IH Hf) as (Hin & Hn & pre & post & -> & Hall).
    split; [by right|]. split; [done|].
    exists (x :: pre), post. split; [done|]. by constructor.
Qed.

Lemma find_name_None (g : ref → string) l tn :
  List.find (fun k => bool_decide (g k = tn)) l = None ↔ tn ∉ g <$> l.
Proof.
  induction l as [|x l IH]; simpl.
  - split; [intros _ ?%elem_of_nil; done|done].
  - case_bool_decide as Hx.
    + split; [done|]. intros Hn. exfalso. apply Hn. subst. by left.
    + rewrite IH. rewrite not_elem_of_cons. naive_solver.
Qed.

Lemma findWhere_Some s l tn j :
  findWhere s l tn = Some j →
  j ∈ l ∧ nameOf s j = tn ∧
  ∃ pre post, l = pre ++ j :: post ∧ Forall (fun k => nameOf s k ≠ tn) pre.
Proof. apply (find_name_Some (nameOf s)). Qed.

Lemma findWhere_None s l tn : findWhere s l tn = None ↔ tn ∉ nameOf s <$> l.
Proof. apply (find_name_None (nameOf s)). Qed.

Lemma isRunning_true tn s : _isRunning tn s = true ↔ tn ∈ runningNames s.
Proof.
  unfold _isRunning, _findRunningJob. rewrite bool_decide_eq_true.
  rewrite findWhere_None. unfold runningNames.
  destruct (decide (tn ∈ nameOf s <$> _runningJobs s)); naive_solver.
Qed.

Lemma isRunning_false tn s : _isRunning tn s = false ↔ tn ∉ runningNames s.
Proof.
  rewrite <- isRunning_true. destruct (_isRunning tn s); naive_solver.
Qed.

(** [_isRunning] only reads the running list and the names of its jobs. *)
Lemma isRunning_ext tn s s' :
  _runningJobs s' = _runningJobs s →
  (∀ j, j ∈ _runningJobs s → nameOf s' j = nameOf s j) →
  _isRunning tn s' = _isRunning tn s.
Proof.
  intros Hr Hn.
  assert (runningNames s' = runningNames s) as Heq.
  { unfold runningNames. rewrite Hr. apply list_fmap_ext.
    intros i j Hj. apply Hn. eapply list_elem_of_lookup_2; eauto. }
  destruct (_isRunning tn s) eqn:E.
  - apply isRunning_true. rewrite Heq. by apply isRunning_true.
  - apply isRunning_false. rewrite Heq. by apply isRunning_false.
Qed.

(** The scan of [_tryRunNextJobInChannel] *)
Definition blocked (s : Scheduler) (j : ref) : Prop := nameOf s j ∈ runningNames s.

Lemma firstRunnable_Some s q i k j :
  firstRunnable s q i = Some (k, j) →
  ∃ pre post, q = pre ++ j :: post ∧ k = i + length pre ∧
    Forall (blocked s) pre ∧ ¬ blocked s j.
Proof.
  revert i; induction q as [|x q IH]; intros i; simpl; [done|].
  destruct (_isRunning (taskName (jobOf s x)) s) eqn:E.
  - intros Hf. destruct (IH _ Hf) as (pre & post & -> & -> & Hall & Hj).
    exists (x :: pre), post. split; [done|]. split; [simpl; lia|].
    split; [|done]. constructor; [|done]. by apply isRunning_true.
  - intros [= <- <-]. exists [], q. split; [done|]. split; [simpl; lia|].
    split; [done|]. by apply isRunning_false.
Qed.

Lemma firstRunnable_None s q i :
  firstRunnable s q i = None ↔ Forall (blocked s) q.
Proof.
  revert i; induction q as [|x q IH]; intros i; simpl; [done|].
  destruct (_isRunning (taskName (jobOf s x)) s) eqn:E.
  - rewrite IH. rewrite Forall_cons. apply isRunning_true in E. naive_solver.
  - split; [done|]. intros [Hb _]%Forall_cons. apply isRunning_false in E. done.
Qed.

(** ** Channels *)

Lemma channels_get_Some cn m ch :
  channels_get cn m = Some ch → ch ∈ m ∧ name ch = cn.
Proof.
  induction m as [|c m IH]; simpl; [done|].
  case_bool_decide as Hc.
  - intros [= <-]. split; [by left|done].
  - intros Hf. destruct (IH Hf). split; [by right|done].
Qed.

Lemma channels_get_None cn m : channels_get cn m = None ↔ cn ∉ name <$> m.
Proof.
  induction m as [|c m IH]; simpl.
  - split; [intros _ ?%elem_of_nil; done|done].
  - case_bool_decide as Hc.
    + split; [done|]. intros Hn. exfalso. apply Hn. subst. by left.
    + rewrite IH. rewrite not_elem_of_cons. naive_solver.
Qed.

Lemma channels_get_elem m ch :
  NoDup (name <$> m) → ch ∈ m → channels_get (name ch) m = Some ch.
Proof.
  induction m as [|c m IH]; simpl; [by intros _ ?%elem_of_nil|].
  intros [Hc Hnd]%NoDup_cons [->|Hin]%elem_of_cons.
  - by rewrite bool_decide_eq_true_2.
  - rewrite bool_decide_eq_false_2; [by apply IH|].
    intros Heq. apply Hc. rewrite Heq. apply list_elem_of_fmap. by exists ch.
Qed.

Lemma channel_unique m c1 c2 :
  NoDup (name <$> m) → c1 ∈ m → c2 ∈ m → name c1 = name c2 → c1 = c2.
Proof.
  intros Hnd H1 H2 Hn.
  pose proof (channels_get_elem _ _ Hnd H1) as E1.
  pose proof (channels_get_elem _ _ Hnd H2) as E2.
  rewrite Hn in E1. congruence.
Qed.

Lemma channelOf_elem s ch :
  NoDup (name <$> _channels s) → ch ∈ _channels s → channelOf s (name ch) = ch.
Proof. intros Hnd Hin. unfold channelOf. by rewrite channels_get_elem. Qed.

Lemma channelOf_name s cn : name (channelOf s cn) = cn.
Proof.
  unfold channelOf. destruct (channels_get cn (_channels s)) as [ch|] eqn:E; [|done].
  by apply channels_get_Some in E as [_ ?].
Qed.

Lemma channelOf_missing s cn :
  channels_get cn (_channels s) = None → channelOf s cn = mkChannel cn None [].
Proof. intros E. unfold channelOf. by rewrite E. Qed.

Lemma elem_of_upd_channel cn f s ch' :
  ch' ∈ _channels (upd_channel cn f s) ↔
  ∃ ch, ch ∈ _channels s ∧ ch' = (if decide (name ch = cn) then f ch else ch).
Proof.
  unfold upd_channel; simpl. rewrite list_elem_of_fmap. naive_solver.
Qed.

Lemma upd_channel_names cn f s :
  (∀ c, name (f c) = name c) →
  name <$> _channels (upd_channel cn f s) = name <$> _channels s.
Proof.
  intros Hf. unfold upd_channel; simpl. rewrite <- list_fmap_compose.
  apply list_fmap_ext. intros i c _. simpl. case_decide; [apply Hf|done].
Qed.

Lemma channels_get_upd cn cn' f m :
  (∀ c, name (f c) = name c) →
  channels_get cn' ((fun c => if decide (name c = cn) then f c else c) <$> m) =
  (fun c => if decide (name c = cn) then f c else c) <$> channels_get cn' m.
Proof.
  intros Hf. induction m as [|c m IH]; simpl; [done|].
  assert (name (if decide (name c = cn) then f c else c) = name c) as ->.
  { case_decide; [apply Hf|done]. }
  case_bool_decide; [done|apply IH].
Qed.

Lemma channelOf_upd_eq cn f s :
  (∀ c, name (f c) = name c) →
  channels_get cn (_channels s) ≠ None →
  channelOf (upd_channel cn f s) cn = f (channelOf s cn).
Proof.
  intros Hf Hex. unfold channelOf, upd_channel; simpl.
  rewrite channels_get_upd by done.
  destruct (channels_get cn (_channels s)) as [ch|] eqn:E; [|done]. simpl.
  apply channels_get_Some in E as [_ ?]. by rewrite decide_True.
Qed.

Lemma channelOf_upd_ne cn cn' f s :
  (∀ c, name (f c) = name c) → cn' ≠ cn →
  channelOf (upd_channel cn f s) cn' = channelOf s cn'.
Proof.
  intros Hf Hne. unfold channelOf, upd_channel; simpl.
  rewrite channels_get_upd by done.
  destruct (channels_get cn' (_channels s)) as [ch|] eqn:E; [|done]. simpl.
  apply channels_get_Some in E as [_ ?]. rewrite decide_False; [done|congruence].
Qed.

Lemma getChannel_exists cn s : channels_get cn (_channels (_getChannel cn s)) ≠ None.
Proof.
  unfold _getChannel. destruct (channels_get cn (_channels s)) eqn:E; [by rewrite E|].
  simpl. intros Hn. apply channels_get_None in Hn. apply Hn.
  rewrite fmap_app. apply elem_of_app. right. simpl. by left.
Qed.

Lemma getChannel_id cn s :
  channels_get cn (_channels s) ≠ None → _getChannel cn s = s.
Proof. unfold _getChannel. by destruct (channels_get cn (_channels s)). Qed.

(** ** The invariant *)

Definition inProgress (c : Chain) : bool :=
  match c with
  | NotStarted | Settled => false
  | _ => true
  end.

Definition untouched (o : JobImpl) : bool :=
  bool_decide (status o = StQueued) && negb (timedOut o)
  && bool_decide (timeoutId o = None).

Definition timerLive (o : JobImpl) : bool :=
  match timeoutId o with
  | Some TimerArmed => negb (timedOut o)
  | Some TimerFired => true
  | _ => false
  end.

Definition timerDone (o : JobImpl) : bool :=
  match timeoutId o with
  | Some TimerFired | Some TimerCleared => true
  | _ => false
  end.

(** cb1 ran to its end: the job has a log id and status running. *)
Definition launched (o : JobImpl) : bool :=
  bool_decide (status o = StRunning) && bool_decide (logId o ≠ None).

(** What the fields of a job can be, given where its promise chain stands.
    A job is [untouched] after cb1 as well when the executor threw before the
    timer was set.  After cb3 the timer is no longer pending, unless cb3
    threw before [clearTimeout] and left [jobResult] unassigned. *)
Definition job_ok (o : JobImpl) (c : Chain) : bool :=
  match c with
  | NotStarted | AwaitStart => untouched o && bool_decide (logId o = None)
  | AwaitWork => launched o && timerLive o
  | AwaitConclude _ | AwaitCleanup None =>
      untouched o || (launched o && timerLive o)
  | AwaitFinishLog _ => launched o && timerDone o
  | AwaitCleanup (Some _) => untouched o || (launched o && timerDone o)
  | Settled => bool_decide (status o = StFinished)
  end.

(** [Inv x s]: the bookkeeping of state [s] is consistent.  Inside
    [_unregisterJob] one job, [x], is already out of the running list while
    its flags still say it runs. *)
Record Inv (x : option ref) (s : Scheduler) : Prop := mkInv {
  inv_fresh : ∀ j, _nextExecutionId s ≤ j → chainOf s j = NotStarted;
  inv_run_nodup : NoDup (_runningJobs s);
  inv_chan_nodup : NoDup (name <$> _channels s);
  inv_run_chain : ∀ j, j ∈ _runningJobs s →
    inProgress (chainOf s j) = true ∧ timedOut (jobOf s j) = false;
  inv_chain_run : ∀ j, inProgress (chainOf s j) = true →
    timedOut (jobOf s j) = false → x ≠ Some j → j ∈ _runningJobs s;
  inv_detached : ∀ j, x = Some j →
    (j ∉ _runningJobs s) ∧ chainOf s j ≠ NotStarted;
  inv_job_ok : ∀ j, job_ok (jobOf s j) (chainOf s j) = true;
  inv_slot_run : ∀ ch j, ch ∈ _channels s → runningJob ch = Some j →
    j ∈ _runningJobs s ∧ channel (jobOf s j) = Some (name ch);
  inv_run_slot : ∀ j cn, j ∈ _runningJobs s → channel (jobOf s j) = Some cn →
    ∃ ch, ch ∈ _channels s ∧ name ch = cn ∧ runningJob ch = Some j;
  inv_queue : ∀ ch j, ch ∈ _channels s → j ∈ queue ch →
    chainOf s j = NotStarted ∧ (j < _nextExecutionId s)
    ∧ channel (jobOf s j) = Some (name ch);
  inv_run_names : NoDup (runningNames s);
  inv_queue_names : ∀ ch, ch ∈ _channels s → NoDup (nameOf s <$> queue ch);
  inv_queue_sorted : ∀ ch, ch ∈ _channels s → StronglySorted lt (queue ch)
}.

(** No channel sits idle on a job that could run. *)
Definition Quiet (s : Scheduler) : Prop :=
  ∀ ch, ch ∈ _channels s → runningJob ch = None → Forall (blocked s) (queue ch).

Lemma Inv_init : Inv None init.
Proof.
  constructor; simpl; try done;
    first [ apply NoDup_nil_2
          | by intros ? ?%elem_of_nil
          | by intros ? ? ?%elem_of_nil ].
Qed.

Lemma Quiet_init : Quiet init.
Proof. intros ch ?%elem_of_nil; done. Qed.

Lemma Inv_run_lt x s j : Inv x s → j ∈ _runningJobs s → j < _nextExecutionId s.
Proof.
  intros Hinv Hin. destruct (inv_run_chain _ _ Hinv j Hin) as [Hp _].
  destruct (decide (j < _nextExecutionId s)) as [|Hge]; [done|].
  rewrite (inv_fresh _ _ Hinv j) in Hp by lia. done.
Qed.

Lemma Inv_queue_not_running x s ch j :
  Inv x s → ch ∈ _channels s → j ∈ queue ch → j ∉ _runningJobs s.
Proof.
  intros Hinv Hch Hj Hr.
  destruct (inv_queue _ _ Hinv ch j Hch Hj) as (Hc & _).
  destruct (inv_run_chain _ _ Hinv j Hr) as [Hp _]. by rewrite Hc in Hp.
Qed.

Lemma runningNames_ext s s' :
  _runningJobs s' = _runningJobs s →
  (∀ j, nameOf s' j = nameOf s j) → runningNames s' = runningNames s.
Proof.
  intros Hr Hn. unfold runningNames. rewrite Hr.
  apply list_fmap_ext. intros; apply Hn.
Qed.

(** A step that only rewrites fields of job [j] and moves its chain, without
    changing whether the scheduler counts it as running. *)
Lemma Inv_job_keep x s s' j :
  Inv x s →
  _runningJobs s' = _runningJobs s → _channels s' = _channels s →
  _nextExecutionId s' = _nextExecutionId s →
  (∀ k, k ≠ j → jobOf s' k = jobOf s k ∧ chainOf s' k = chainOf s k) →
  taskName (jobOf s' j) = taskName (jobOf s j) →
  channel (jobOf s' j) = channel (jobOf s j) →
  timedOut (jobOf s' j) = timedOut (jobOf s j) →
  inProgress (chainOf s' j) = inProgress (chainOf s j) →
  (chainOf s' j = NotStarted ↔ chainOf s j = NotStarted) →
  job_ok (jobOf s' j) (chainOf s' j) = true →
  Inv x s'.
Proof.
  intros [Hfresh Hrnd Hcnd Hrc Hcr Hdet Hok Hsr Hrs Hq Hrn Hqn Hqs]
    Hr Hc Hn Hoth Hname Hchan Hto Hip Hns Hjok.
  assert (∀ k, nameOf s' k = nameOf s k) as Hnames.
  { intros k. unfold nameOf. destruct (decide (k = j)) as [->|Hk]; [done|].
    by destruct (Hoth k Hk) as [-> _]. }
  assert (∀ k, channel (jobOf s' k) = channel (jobOf s k)) as Hchans.
  { intros k. destruct (decide (k = j)) as [->|Hk]; [done|].
    by destruct (Hoth k Hk) as [-> _]. }
  assert (∀ k, timedOut (jobOf s' k) = timedOut (jobOf s k)) as Htos.
  { intros k. destruct (decide (k = j)) as [->|Hk]; [done|].
    by destruct (Hoth k Hk) as [-> _]. }
  assert (∀ k, inProgress (chainOf s' k) = inProgress (chainOf s k)) as Hips.
  { intros k. destruct (decide (k = j)) as [->|Hk]; [done|].
    by destruct (Hoth k Hk) as [_ ->]. }
  assert (∀ k, chainOf s' k = NotStarted ↔ chainOf s k = NotStarted) as Hnss.
  { intros k. destruct (decide (k = j)) as [->|Hk]; [done|].
    by destruct (Hoth k Hk) as [_ ->]. }
  constructor; rewrite ?Hr, ?Hc, ?Hn.
  - intros k Hk. apply Hnss. by apply Hfresh.
  - done.
  - done.
  - intros k Hk. rewrite Hips, Htos. by apply Hrc.
  - intros k. rewrite Hips, Htos. apply Hcr.
  - intros k Hk. destruct (Hdet k Hk) as [? ?]. split; [done|]. by rewrite Hnss.
  - intros k. destruct (decide (k = j)) as [->|Hk]; [done|].
    destruct (Hoth k Hk) as [-> ->]. apply Hok.
  - intros ch k Hch Hk. rewrite Hchans. by apply Hsr.
  - intros k cn. rewrite Hchans. apply Hrs.
  - intros ch k Hch Hk. rewrite Hnss, Hchans. by apply Hq.
  - by rewrite (runningNames_ext s s').
  - intros ch Hch. erewrite list_fmap_ext; [by apply Hqn|]. intros; apply Hnames.
  - done.
Qed.

(** The step that ends the detour of job [j]: it is out of the running list
    and now its flags say so. *)
Lemma Inv_job_settle x s s' j :
  Inv x s → (x = None ∨ x = Some j) → j ∉ _runningJobs s →
  _runningJobs s' = _runningJobs s → _channels s' = _channels s →
  _nextExecutionId s' = _nextExecutionId s →
  (∀ k, k ≠ j → jobOf s' k = jobOf s k ∧ chainOf s' k = chainOf s k) →
  taskName (jobOf s' j) = taskName (jobOf s j) →
  channel (jobOf s' j) = channel (jobOf s j) →
  chainOf s j ≠ NotStarted → chainOf s' j ≠ NotStarted →
  (inProgress (chainOf s' j) = false ∨ timedOut (jobOf s' j) = true) →
  job_ok (jobOf s' j) (chainOf s' j) = true →
  Inv None s'.
Proof.
  intros [Hfresh Hrnd Hcnd Hrc Hcr Hdet Hok Hsr Hrs Hq Hrn Hqn Hqs]
    Hx Hout Hr Hc Hn Hoth Hname Hchan Hns Hns' Hend Hjok.
  assert (∀ k, nameOf s' k = nameOf s k) as Hnames.
  { intros k. unfold nameOf. destruct (decide (k = j)) as [->|Hk]; [done|].
    by destruct (Hoth k Hk) as [-> _]. }
  assert (∀ k, channel (jobOf s' k) = channel (jobOf s k)) as Hchans.
  { intros k. destruct (decide (k = j)) as [->|Hk]; [done|].
    by destruct (Hoth k Hk) as [-> _]. }
  assert (∀ k, chainOf s' k = NotStarted ↔ chainOf s k = NotStarted) as Hnss.
  { intros k. destruct (decide (k = j)) as [->|Hk]; [done|].
    by destruct (Hoth k Hk) as [_ ->]. }
  constructor; rewrite ?Hr, ?Hc, ?Hn.
  - intros k Hk. apply Hnss. by apply Hfresh.
  - done.
  - done.
  - intros k Hk. destruct (decide (k = j)) as [->|Hne]; [done|].
    destruct (Hoth k Hne) as [-> ->]. by apply Hrc.
  - intros k Hp Ht _. destruct (decide (k = j)) as [->|Hne].
    { destruct Hend as [He|He]; congruence. }
    destruct (Hoth k Hne) as [Hj Hch]. rewrite Hj in Ht. rewrite Hch in Hp.
    apply Hcr; [done|done|]. destruct Hx as [->| ->]; congruence.
  - done.
  - intros k. destruct (decide (k = j)) as [->|Hk]; [done|].
    destruct (Hoth k Hk) as [-> ->]. apply Hok.
  - intros ch k Hch Hk. rewrite Hchans. by apply Hsr.
  - intros k cn. rewrite Hchans. apply Hrs.
  - intros ch k Hch Hk. rewrite Hnss, Hchans. by apply Hq.
  - by rewrite (runningNames_ext s s').
  - intros ch Hch. erewrite list_fmap_ext; [by apply Hqn|]. intros; apply Hnames.
  - done.
Qed.

Lemma Quiet_ext s s' :
  Quiet s → _runningJobs s' = _runningJobs s → _channels s' = _channels s →
  (∀ k, nameOf s' k = nameOf s k) → Quiet s'.
Proof.
  intros Hq Hr Hc Hn ch Hch Hnone. rewrite Hc in Hch.
  specialize (Hq ch Hch Hnone). eapply Forall_impl; [apply Hq|].
  intros k. unfold blocked. by rewrite Hn, (runningNames_ext s s').
Qed.

(** ** Starting a job *)

(** The state [_executeJob] leaves when it raises nothing. *)
Definition started (j : ref) (s : Scheduler) : Scheduler :=
  emit [SinkStartJob (taskName (jobOf s j))]
    (set_chain j AwaitStart (set_runningJobs (_runningJobs s ++ [j]) s)).

Lemma executeJob_ok j s :
  status (jobOf s j) = StQueued → ¬ blocked s j →
  _executeJob j s = inr (started j s).
Proof.
  intros Hst Hnb. unfold _executeJob.
  rewrite bool_decide_eq_true_2 by done. simpl.
  apply isRunning_false in Hnb. unfold nameOf in Hnb. by rewrite Hnb.
Qed.

Lemma job_ok_NotStarted o :
  job_ok o NotStarted = true →
  status o = StQueued ∧ timedOut o = false ∧ timeoutId o = None ∧ logId o = None.
Proof.
  unfold job_ok, untouched. rewrite !andb_true_iff, !bool_decide_eq_true.
  rewrite negb_true_iff. naive_solver.
Qed.

Lemma StronglySorted_lt_NoDup (l : list nat) : StronglySorted lt l → NoDup l.
Proof.
  induction 1 as [|x l Hs IH Hall]; [apply NoDup_nil_2|].
  apply NoDup_cons_2; [|done]. intros Hin.
  rewrite Forall_forall in Hall. specialize (Hall x Hin). lia.
Qed.

Lemma jobOf_started j s k : jobOf (started j s) k = jobOf s k.
Proof. done. Qed.

Lemma chainOf_started j s k :
  chainOf (started j s) k = if decide (k = j) then AwaitStart else chainOf s k.
Proof.
  change (chainOf (started j s) k) with (chainOf (set_chain j AwaitStart s) k).
  apply chainOf_set_chain.
Qed.

Lemma runningNames_started j s :
  runningNames (started j s) = runningNames s ++ [nameOf s j].
Proof. unfold runningNames; simpl. by rewrite fmap_app. Qed.

(** Promotion of the job [j] found by the scan of channel [ch]. *)
Definition promoted (cn : string) (i : nat) (j : ref) (s : Scheduler) : Scheduler :=
  started j
    (upd_channel cn (fun c => mkChannel (name c) (Some j) (delete i (queue c))) s).

Lemma jobOf_promoted cn i j s k : jobOf (promoted cn i j s) k = jobOf s k.
Proof. done. Qed.

Lemma chainOf_promoted cn i j s k :
  chainOf (promoted cn i j s) k = if decide (k = j) then AwaitStart else chainOf s k.
Proof.
  change (chainOf (promoted cn i j s) k) with (chainOf (set_chain j AwaitStart s) k).
  apply chainOf_set_chain.
Qed.

Lemma runningNames_promoted cn i j s :
  runningNames (promoted cn i j s) = runningNames s ++ [nameOf s j].
Proof. unfold runningNames; simpl. by rewrite fmap_app. Qed.

Lemma Inv_promote x s ch pre j post :
  Inv x s → ch ∈ _channels s → runningJob ch = None →
  queue ch = pre ++ j :: post → ¬ blocked s j →
  Inv x (promoted (name ch) (length pre) j s).
Proof.
  intros Hinv Hch Hnone Hq Hnb.
  pose proof Hinv as [Hfresh Hrnd Hcnd Hrc Hcr Hdet Hok Hsr Hrs Hqu Hrn Hqn Hqs].
  assert (j ∈ queue ch) as Hjq.
  { rewrite Hq. apply elem_of_app. right. by left. }
  destruct (Hqu ch j Hch Hjq) as (Hjc & Hjlt & Hjch).
  assert (j ∉ _runningJobs s) as Hjr by (by eapply Inv_queue_not_running).
  assert (queue ch !! length pre = Some j) as Hlk.
  { rewrite Hq. by rewrite list_lookup_middle. }
  assert (∀ c', c' ∈ _channels (promoted (name ch) (length pre) j s) →
    (c' = mkChannel (name ch) (Some j) (delete (length pre) (queue ch)))
    ∨ (c' ∈ _channels s ∧ name c' ≠ name ch)) as Hel.
  { intros c' (c & Hc & ->)%elem_of_upd_channel. case_decide as Hn.
    - left. assert (c = ch) as -> by (by eapply channel_unique). done.
    - by right. }
  constructor.
  - intros k Hk. rewrite chainOf_promoted. simpl in Hk.
    rewrite decide_False by lia. by apply Hfresh.
  - simpl. apply NoDup_app. split; [done|]. split; [|apply NoDup_singleton].
    intros k Hk ->%list_elem_of_singleton. done.
  - simpl. rewrite <- list_fmap_compose.
    erewrite list_fmap_ext; [exact Hcnd|]. intros i c _; simpl. by case_decide.
  - intros k Hk. rewrite chainOf_promoted, jobOf_promoted. simpl in Hk.
    apply elem_of_app in Hk as [Hk| ->%list_elem_of_singleton].
    + rewrite decide_False by congruence. by apply Hrc.
    + rewrite decide_True by done. split; [done|].
      specialize (Hok j). rewrite Hjc in Hok.
      by apply job_ok_NotStarted in Hok as (_ & ? & _).
  - intros k. rewrite chainOf_promoted, jobOf_promoted. simpl.
    case_decide as Hk; [subst; intros; apply elem_of_app; right; by left|].
    intros. apply elem_of_app. left. by apply Hcr.
  - intros k Hk. destruct (Hdet k Hk) as [Hkr Hkc].
    rewrite chainOf_promoted. simpl.
    assert (k ≠ j) by congruence. rewrite decide_False by done.
    split; [|done]. intros [?| ->%list_elem_of_singleton]%elem_of_app; done.
  - intros k. rewrite chainOf_promoted, jobOf_promoted.
    case_decide as Hk; [|apply Hok]. subst.
    specialize (Hok j). by rewrite Hjc in Hok.
  - intros c' k Hc' Hk. rewrite jobOf_promoted.
    change (_runningJobs _) with (_runningJobs s ++ [j]).
    destruct (Hel c' Hc') as [->|[Hc Hn]].
    + simpl in Hk. injection Hk as <-. split; [|done].
      apply elem_of_app; right; by left.
    + destruct (Hsr c' k Hc Hk). split; [|done]. apply elem_of_app; by left.
  - intros k cn Hk. rewrite jobOf_promoted.
    change (_runningJobs _) with (_runningJobs s ++ [j]) in Hk.
    intros Hkc. apply elem_of_app in Hk as [Hk| ->%list_elem_of_singleton].
    + destruct (Hrs k cn Hk Hkc) as (c & Hc & Hcn & Hcr').
      exists c. split; [|done]. apply elem_of_upd_channel. exists c.
      split; [done|]. rewrite decide_False; [done|].
      intros Heq. assert (c = ch) as -> by (by eapply channel_unique). congruence.
    + exists (mkChannel (name ch) (Some j) (delete (length pre) (queue ch))).
      split; [|split; [simpl; congruence|done]].
      apply elem_of_upd_channel. exists ch. split; [done|].
      by rewrite decide_True.
  - intros c' k Hc' Hk. rewrite chainOf_promoted, jobOf_promoted.
    change (_nextExecutionId _) with (_nextExecutionId s).
    destruct (Hel c' Hc') as [->|[Hc Hn]].
    + simpl in Hk. pose proof (elem_of_delete_list _ _ _ Hk) as Hk'.
      assert (k ≠ j).
      { intros ->. revert Hk. apply delete_NoDup_notin; [|done].
        apply StronglySorted_lt_NoDup. by apply Hqs. }
      rewrite decide_False by done. simpl. by apply Hqu.
    + assert (k ≠ j).
      { intros ->. destruct (Hqu c' j Hc Hk) as (_ & _ & Hcj). congruence. }
      rewrite decide_False by done. by apply Hqu.
  - rewrite runningNames_promoted. apply NoDup_app.
    split; [exact Hrn|]. split; [|apply NoDup_singleton].
    intros tn Htn ->%list_elem_of_singleton. by apply Hnb.
  - intros c' Hc'.
    destruct (Hel c' Hc') as [->|[Hc Hn]].
    + simpl. by apply (delete_fmap_NoDup (nameOf s)), Hqn.
    + by apply Hqn.
  - intros c' Hc'.
    destruct (Hel c' Hc') as [->|[Hc Hn]].
    + simpl. by apply delete_StronglySorted, Hqs.
    + by apply Hqs.
Qed.

Lemma Inv_emit x es s : Inv x s → Inv x (emit es s).
Proof.
  intros Hinv. apply (Inv_job_keep x s (emit es s) 0); try done.
  apply (inv_job_ok _ _ Hinv).
Qed.

(** ** One promotion attempt *)

(** What promotion attempts can change: jobs leave queues for the running
    list, nothing else moves. *)
Record Grows (s s' : Scheduler) : Prop := mkGrows {
  grows_job : ∀ k, jobOf s' k = jobOf s k;
  grows_next : _nextExecutionId s' = _nextExecutionId s;
  grows_names : name <$> _channels s' = name <$> _channels s;
  grows_run : ∀ k, k ∈ _runningJobs s → k ∈ _runningJobs s';
  grows_new : ∀ k, k ∈ _runningJobs s' →
    k ∈ _runningJobs s ∨ ∃ ch, ch ∈ _channels s ∧ k ∈ queue ch;
  grows_chain : ∀ k, chainOf s k ≠ NotStarted → chainOf s' k = chainOf s k;
  grows_chan : ∀ ch', ch' ∈ _channels s' →
    ∃ ch, ch ∈ _channels s ∧ name ch' = name ch
      ∧ (∀ k, k ∈ queue ch' → k ∈ queue ch)
      ∧ (runningJob ch' = None → ch' = ch)
}.

Lemma Grows_refl s : Grows s s.
Proof. constructor; try done; [by left|]. intros ch ?. by exists ch. Qed.

Lemma Grows_emit es s : Grows s (emit es s).
Proof. constructor; try done; [by left|]. intros ch ?. by exists ch. Qed.

Lemma Grows_trans s1 s2 s3 : Grows s1 s2 → Grows s2 s3 → Grows s1 s3.
Proof.
  intros [Hj1 Hn1 Hc1 Hr1 Hw1 Hk1 Hh1] [Hj2 Hn2 Hc2 Hr2 Hw2 Hk2 Hh2].
  constructor.
  - intros k. by rewrite Hj2.
  - congruence.
  - congruence.
  - auto.
  - intros k Hk. destruct (Hw2 k Hk) as [?|(ch' & Hch' & Hq)]; [auto|].
    right. destruct (Hh1 ch' Hch') as (ch & ? & _ & Hsub & _).
    exists ch. auto.
  - intros k Hk. rewrite Hk2; [auto|]. by rewrite Hk1.
  - intros ch3 H3. destruct (Hh2 ch3 H3) as (ch2 & H2 & Hn & Hsub & Hnone).
    destruct (Hh1 ch2 H2) as (ch1 & H1 & Hn' & Hsub' & Hnone').
    exists ch1. split; [done|]. split; [congruence|]. split; [auto|].
    intros Hr. specialize (Hnone Hr). subst ch3. auto.
Qed.

Lemma Grows_runningNames s s' tn :
  Grows s s' → tn ∈ runningNames s → tn ∈ runningNames s'.
Proof.
  intros Hg (k & -> & Hk)%list_elem_of_fmap. apply list_elem_of_fmap.
  exists k. split; [|by apply (grows_run _ _ Hg)].
  unfold nameOf. by rewrite (grows_job _ _ Hg).
Qed.

Lemma Grows_blocked s s' k : Grows s s' → blocked s k → blocked s' k.
Proof.
  intros Hg Hb. unfold blocked, nameOf. rewrite (grows_job _ _ Hg).
  by apply (Grows_runningNames s s').
Qed.

(** Channel [cn] has nothing to promote. *)
Definition settled (cn : string) (s : Scheduler) : Prop :=
  ∀ ch, ch ∈ _channels s → name ch = cn → runningJob ch = None →
    Forall (blocked s) (queue ch).

Lemma Grows_settled cn s s' : Grows s s' → settled cn s → settled cn s'.
Proof.
  intros Hg Hs ch' Hch' Hn Hnone.
  destruct (grows_chan _ _ Hg ch' Hch') as (ch & Hch & Hname & _ & Heq).
  specialize (Heq Hnone). subst ch'.
  eapply Forall_impl; [by apply Hs|]. intros k. by apply Grows_blocked.
Qed.

Lemma Grows_promoted x s ch pre j post :
  Inv x s → ch ∈ _channels s → runningJob ch = None →
  queue ch = pre ++ j :: post →
  Grows s (promoted (name ch) (length pre) j s).
Proof.
  intros Hinv Hch Hnone Hq.
  assert (j ∈ queue ch) as Hjq.
  { rewrite Hq. apply elem_of_app. right. by left. }
  constructor.
  - done.
  - done.
  - simpl. rewrite <- list_fmap_compose.
    apply list_fmap_ext. intros i c _; simpl. by case_decide.
  - intros k Hk. apply elem_of_app. by left.
  - intros k [Hk| ->%list_elem_of_singleton]%elem_of_app; [by left|].
    right. by exists ch.
  - intros k Hk. rewrite chainOf_promoted. case_decide as Hkj; [|done].
    subst. by destruct (inv_queue _ _ Hinv ch j Hch Hjq) as (? & _).
  - intros c' (c & Hc & ->)%elem_of_upd_channel. exists c. split; [done|].
    case_decide as Hn; simpl; [|done]. split; [done|].
    split; [apply elem_of_delete_list|done].
Qed.

Lemma tryRunNext_spec x s cn :
  Inv x s →
  ∃ s', _tryRunNextJobInChannel cn s = inr s' ∧ Inv x s' ∧ Grows s s'
        ∧ settled cn s'.
Proof.
  intros Hinv. unfold _tryRunNextJobInChannel.
  destruct (channels_get cn (_channels s)) as [ch|] eqn:Hget.
  - destruct (channels_get_Some _ _ _ Hget) as [Hch Hname].
    assert (channelOf s cn = ch) as Hof by (unfold channelOf; by rewrite Hget).
    assert (∀ c, c ∈ _channels s → name c = cn → c = ch) as Huniq.
    { intros c Hc Hn. eapply channel_unique; eauto using inv_chan_nodup. congruence. }
    rewrite Hof. destruct (runningJob ch) as [r|] eqn:Hrun.
    { exists s. split; [done|]. split; [done|]. split; [apply Grows_refl|].
      intros c Hc Hn Hnone. rewrite (Huniq c Hc Hn) in Hnone. congruence. }
    destruct (firstRunnable s (queue ch) 0) as [[i j]|] eqn:Hfirst.
    + destruct (firstRunnable_Some _ _ _ _ _ Hfirst)
        as (pre & post & Hq & -> & Hpre & Hj).
      assert (j ∈ queue ch) as Hjq.
      { rewrite Hq. apply elem_of_app. right. by left. }
      destruct (inv_queue _ _ Hinv ch j Hch Hjq) as (Hjc & _ & _).
      pose proof (inv_job_ok _ _ Hinv j) as Hjok. rewrite Hjc in Hjok.
      apply job_ok_NotStarted in Hjok as (Hst & _).
      simpl. subst cn.
      exists (promoted (name ch) (length pre) j s).
      split; [by apply executeJob_ok|].
      split; [by eapply Inv_promote|].
      split; [by eapply Grows_promoted|].
      intros c' (c & Hc & ->)%elem_of_upd_channel.
      case_decide as Hn; simpl; [done|]. intros Hn'. congruence.
    + apply firstRunnable_None in Hfirst.
      assert (settled cn s) as Hset.
      { intros c Hc Hn _. by rewrite (Huniq c Hc Hn). }
      destruct (queue ch) as [|q0 q] eqn:Hq.
      * exists s. split; [done|]. split; [done|]. split; [apply Grows_refl|done].
      * eexists. split; [done|]. split; [by apply Inv_emit|].
        split; [apply Grows_emit|].
        eapply Grows_settled; [apply Grows_emit|done].
  - rewrite (channelOf_missing _ _ Hget). simpl.
    exists s. split; [done|]. split; [done|]. split; [apply Grows_refl|].
    intros c Hc Hn. apply channels_get_None in Hget. exfalso. apply Hget.
    apply list_elem_of_fmap. by exists c.
Qed.

Lemma unstallLoop_spec x cns s :
  Inv x s →
  ∃ s', unstallLoop cns s = inr s' ∧ Inv x s' ∧ Grows s s'
        ∧ (∀ cn, (cn ∈ cns ∨ settled cn s) → settled cn s').
Proof.
  revert s; induction cns as [|cn cns IH]; intros s Hinv; simpl.
  - exists s. split; [done|]. split; [done|]. split; [apply Grows_refl|].
    intros cn [?%elem_of_nil|?]; done.
  - destruct (tryRunNext_spec x s cn Hinv) as (s1 & -> & Hinv1 & Hg1 & Hs1).
    simpl. destruct (IH s1 Hinv1) as (s2 & -> & Hinv2 & Hg2 & Hs2).
    exists s2. split; [done|]. split; [done|].
    split; [by eapply Grows_trans|].
    intros cn' [[->|Hin]%elem_of_cons|Hset]; apply Hs2.
    + by right.
    + by left.
    + right. by eapply Grows_settled.
Qed.

Lemma Quiet_settled s : Quiet s ↔ ∀ cn, settled cn s.
Proof.
  split.
  - intros Hq cn ch Hch _ Hnone. by apply Hq.
  - intros Hs ch Hch Hnone. by apply (Hs (name ch)).
Qed.

Lemma tryToUnstallChannels_spec x s :
  Inv x s →
  ∃ s', _tryToUnstallChannels s = inr s' ∧ Inv x s' ∧ Grows s s' ∧ Quiet s'.
Proof.
  intros Hinv. unfold _tryToUnstallChannels.
  destruct (unstallLoop_spec x (name <$> _channels s) s Hinv)
    as (s' & Hrun & Hinv' & Hg & Hset).
  exists s'. split; [done|]. split; [done|]. split; [done|].
  intros ch Hch Hnone. apply (Hset (name ch)); [|done..].
  left. rewrite <- (grows_names _ _ Hg). apply list_elem_of_fmap. by exists ch.
Qed.

(** ** Unregistering a job *)

(** The state of [_unregisterJob] before its unstall pass: [j] spliced out of
    the running list (it sat at index [i]) and out of its channel's slot. *)
Definition detached (i : nat) (j : ref) (s : Scheduler) : Scheduler :=
  let s1 := set_runningJobs (delete i (_runningJobs s)) s in
  match channel (jobOf s j) with
  | None => s1
  | Some c => upd_channel c (fun ch => mkChannel (name ch) None (queue ch)) s1
  end.

Lemma detached_running i j s :
  _runningJobs (detached i j s) = delete i (_runningJobs s).
Proof. unfold detached. destruct (channel (jobOf s j)); reflexivity. Qed.

Lemma detached_job i j s k : jobOf (detached i j s) k = jobOf s k.
Proof. unfold detached. destruct (channel (jobOf s j)); reflexivity. Qed.

Lemma detached_chain i j s k : chainOf (detached i j s) k = chainOf s k.
Proof. unfold detached. destruct (channel (jobOf s j)); reflexivity. Qed.

Lemma detached_next i j s :
  _nextExecutionId (detached i j s) = _nextExecutionId s.
Proof. unfold detached. destruct (channel (jobOf s j)); reflexivity. Qed.

Lemma detached_names i j s :
  name <$> _channels (detached i j s) = name <$> _channels s.
Proof.
  unfold detached. destruct (channel (jobOf s j)); [|done].
  by rewrite upd_channel_names.
Qed.

(** Every channel of the detached state is a channel of [s], except that the
    slot of the job's own channel is now empty. *)
Lemma detached_channel i j s c' :
  c' ∈ _channels (detached i j s) →
  ∃ c, c ∈ _channels s ∧ name c' = name c ∧ queue c' = queue c ∧
    ((c' = c ∧ channel (jobOf s j) ≠ Some (name c))
     ∨ (runningJob c' = None ∧ channel (jobOf s j) = Some (name c))).
Proof.
  unfold detached. destruct (channel (jobOf s j)) as [cn|] eqn:Hc.
  - intros (c & Hin & ->)%elem_of_upd_channel. exists c.
    case_decide as Hn; simpl.
    + split; [done|]. split; [done|]. split; [done|]. right. by rewrite Hn.
    + split; [done|]. split; [done|]. split; [done|]. left. split; [done|].
      congruence.
  - simpl. intros Hin. exists c'. split; [done|]. split; [done|].
    split; [done|]. by left.
Qed.

Lemma removeJobFromChannel_ok i j s :
  Inv None s → indexOf j (_runningJobs s) = Some i →
  _removeJobFromChannel (channel (jobOf s j)) j
    (set_runningJobs (delete i (_runningJobs s)) s) = inr (detached i j s).
Proof.
  intros Hinv Hi. unfold _removeJobFromChannel, detached.
  destruct (channel (jobOf s j)) as [cn|] eqn:Hc; [|done].
  assert (j ∈ _runningJobs s) as Hj.
  { eapply list_elem_of_lookup_2. by apply indexOf_lookup. }
  destruct (inv_run_slot _ _ Hinv j cn Hj Hc) as (ch & Hch & Hn & Hslot).
  pose proof (channels_get_elem _ _ (inv_chan_nodup _ _ Hinv) Hch) as Hget.
  rewrite Hn in Hget.
  rewrite getChannel_id by (simpl; congruence).
  assert (channelOf (set_runningJobs (delete i (_runningJobs s)) s) cn = ch) as ->.
  { unfold channelOf; simpl. by rewrite Hget. }
  by rewrite bool_decide_eq_true_2.
Qed.

Lemma Inv_detached i j s :
  Inv None s → indexOf j (_runningJobs s) = Some i →
  Inv (Some j) (detached i j s).
Proof.
  intros Hinv Hi.
  pose proof Hinv as [Hfresh Hrnd Hcnd Hrc Hcr Hdet Hok Hsr Hrs Hqu Hrn Hqn Hqs].
  pose proof (indexOf_lookup _ _ _ Hi) as Hlk.
  assert (j ∈ _runningJobs s) as Hj by (by eapply list_elem_of_lookup_2).
  constructor.
  - intros k. rewrite detached_next, detached_chain. apply Hfresh.
  - rewrite detached_running. by apply delete_NoDup.
  - by rewrite detached_names.
  - intros k. rewrite detached_running, detached_chain, detached_job.
    intros Hk%elem_of_delete_list. by apply Hrc.
  - intros k. rewrite detached_running, detached_chain, detached_job.
    intros Hp Ht Hne. eapply elem_of_delete_other; [done| |congruence].
    by apply Hcr.
  - intros k [= <-]. rewrite detached_running, detached_chain.
    split; [by apply delete_NoDup_notin|].
    destruct (Hrc j Hj) as [Hp _]. intros Heq. by rewrite Heq in Hp.
  - intros k. rewrite detached_chain, detached_job. apply Hok.
  - intros c' k Hc' Hslot. rewrite detached_running, detached_job.
    destruct (detached_channel _ _ _ _ Hc') as (c & Hc & Hn & _ & [[-> Hne]|[Hnone _]]);
      [|congruence].
    destruct (Hsr c k Hc Hslot) as [Hk Hkc]. split; [|done].
    eapply elem_of_delete_other; [done|done|]. intros ->. congruence.
  - intros k cn. rewrite detached_running, detached_job. intros Hk Hkc.
    pose proof (elem_of_delete_list _ _ _ Hk) as Hk'.
    assert (k ≠ j) as Hkj.
    { intros ->. revert Hk. by apply delete_NoDup_notin. }
    destruct (Hrs k cn Hk' Hkc) as (c & Hc & Hn & Hslot).
    exists c. split; [|done].
    unfold detached. destruct (channel (jobOf s j)) as [cj|] eqn:Hcj; [|done].
    apply elem_of_upd_channel. exists c. split; [done|].
    rewrite decide_False; [done|]. intros Heq.
    destruct (Hrs j cj Hj Hcj) as (c2 & Hc2 & Hn2 & Hslot2).
    assert (c = c2) as -> by (eapply channel_unique; eauto; congruence).
    congruence.
  - intros c' k Hc'. rewrite detached_chain, detached_job, detached_next.
    destruct (detached_channel _ _ _ _ Hc') as (c & Hc & Hn & Hq & _).
    rewrite Hq, Hn. by apply Hqu.
  - unfold runningNames. rewrite detached_running.
    erewrite list_fmap_ext; [by apply delete_fmap_NoDup, Hrn|].
    intros ? k _. unfold nameOf. by rewrite detached_job.
  - intros c' Hc'.
    destruct (detached_channel _ _ _ _ Hc') as (c & Hc & Hn & Hq & _).
    rewrite Hq. erewrite list_fmap_ext; [by apply Hqn|].
    intros ? k _. unfold nameOf. by rewrite detached_job.
  - intros c' Hc'.
    destruct (detached_channel _ _ _ _ Hc') as (c & Hc & Hn & Hq & _).
    rewrite Hq. by apply Hqs.
Qed.

Lemma unregisterJob_spec s j :
  Inv None s → j ∈ _runningJobs s →
  ∃ i s', indexOf j (_runningJobs s) = Some i
    ∧ _unregisterJob j s = inr s' ∧ Inv (Some j) s' ∧ Quiet s'
    ∧ Grows (detached i j s) s'.
Proof.
  intros Hinv Hj. destruct (indexOf_Some _ _ Hj) as (i & Hi & _).
  unfold _unregisterJob. rewrite Hi.
  rewrite (removeJobFromChannel_ok i j s Hinv Hi). simpl.
  destruct (tryToUnstallChannels_spec (Some j) _ (Inv_detached i j s Hinv Hi))
    as (s' & Hrun & Hinv' & Hg & Hq).
  by exists i, s'.
Qed.

(** What one promotion attempt does, read off the code: nothing (but perhaps
    a log line), or the promotion of the first queue entry that is not
    blocked. *)
Lemma executeJob_inr j s s' : _executeJob j s = inr s' → s' = started j s.
Proof.
  unfold _executeJob.
  destruct (negb _); [done|]. destruct (_isRunning _ _); [done|]. by intros [= <-].
Qed.

Lemma tryRunNext_cases cn s s' :
  _tryRunNextJobInChannel cn s = inr s' →
  ((s' = s ∨ ∃ es, s' = emit es s)
   ∧ (runningJob (channelOf s cn) ≠ None
      ∨ Forall (blocked s) (queue (channelOf s cn))))
  ∨ (∃ pre k post,
       runningJob (channelOf s cn) = None
       ∧ queue (channelOf s cn) = pre ++ k :: post
       ∧ Forall (blocked s) pre ∧ ¬ blocked s k
       ∧ s' = promoted cn (length pre) k s).
Proof.
  unfold _tryRunNextJobInChannel.
  destruct (runningJob (channelOf s cn)) as [r|] eqn:Hrun.
  { intros [= <-]. left. split; [by left|by left]. }
  destruct (firstRunnable s (queue (channelOf s cn)) 0) as [[i k]|] eqn:Hfirst.
  - destruct (firstRunnable_Some _ _ _ _ _ Hfirst)
      as (pre & post & Hq & -> & Hpre & Hk).
    intros ->%executeJob_inr. right. exists pre, k, post. by simpl.
  - apply firstRunnable_None in Hfirst.
    destruct (queue (channelOf s cn)) as [|q0 q] eqn:Hq.
    + intros [= <-]. left. split; [by left|by right].
    + intros [= <-]. left. split; [right; by eexists|by right].
Qed.

(** ** Creating a job *)

Definition allocated (tn : string) (ex : TaskExecutor) (ms : Z)
    (options : TaskOptions) (s : Scheduler) : Scheduler :=
  mkScheduler (_runningJobs s) (_channels s) (S (_nextExecutionId s))
    (<[_nextExecutionId s :=
         newJobImpl (_nextExecutionId s) tn ex ms (optChannel options)
           (default false (optSilent options))]> (heap s))
    (chains s) (trace s).

Lemma allocated_job_eq tn ex ms o s :
  jobOf (allocated tn ex ms o s) (_nextExecutionId s)
  = newJobImpl (_nextExecutionId s) tn ex ms (optChannel o)
      (default false (optSilent o)).
Proof. unfold jobOf, allocated; simpl. by rewrite lookup_insert_eq. Qed.

Lemma allocated_job_ne tn ex ms o s k :
  k ≠ _nextExecutionId s → jobOf (allocated tn ex ms o s) k = jobOf s k.
Proof. intros. unfold jobOf, allocated; simpl. by rewrite lookup_insert_ne. Qed.

Lemma allocated_runningNames tn ex ms o s :
  Inv None s → runningNames (allocated tn ex ms o s) = runningNames s.
Proof.
  intros Hinv. unfold runningNames. simpl. apply list_fmap_ext.
  intros i k Hk. unfold nameOf. rewrite allocated_job_ne; [done|].
  apply list_elem_of_lookup_2 in Hk. apply (Inv_run_lt _ _ _ Hinv) in Hk. lia.
Qed.

Lemma Inv_allocated tn ex ms o s :
  Inv None s → Inv None (allocated tn ex ms o s).
Proof.
  intros Hinv.
  pose proof Hinv as [Hfresh Hrnd Hcnd Hrc Hcr Hdet Hok Hsr Hrs Hqu Hrn Hqn Hqs].
  assert (∀ k, k ∈ _runningJobs s →
    jobOf (allocated tn ex ms o s) k = jobOf s k) as Hrj.
  { intros k Hk. apply allocated_job_ne.
    apply (Inv_run_lt _ _ _ Hinv) in Hk. lia. }
  assert (∀ ch k, ch ∈ _channels s → k ∈ queue ch →
    jobOf (allocated tn ex ms o s) k = jobOf s k) as Hqj.
  { intros ch k Hch Hk. apply allocated_job_ne.
    destruct (Hqu ch k Hch Hk) as (_ & ? & _). lia. }
  constructor.
  - intros k Hk. simpl in Hk. apply Hfresh. lia.
  - done.
  - done.
  - intros k Hk. rewrite (Hrj k Hk). by apply Hrc.
  - intros k Hp Ht Hne.
    destruct (decide (k = _nextExecutionId s)) as [->|Hk].
    { change (chainOf _ ?j) with (chainOf s j) in Hp.
      rewrite Hfresh in Hp by lia. done. }
    rewrite allocated_job_ne in Ht by done. by apply Hcr.
  - done.
  - intros k. change (chainOf _ ?j) with (chainOf s j).
    destruct (decide (k = _nextExecutionId s)) as [->|Hk].
    + rewrite allocated_job_eq, Hfresh by lia. done.
    + rewrite allocated_job_ne by done. apply Hok.
  - intros ch k Hch Hslot. destruct (Hsr ch k Hch Hslot) as [Hk ?].
    by rewrite (Hrj k Hk).
  - intros k cn Hk. rewrite (Hrj k Hk). by apply Hrs.
  - intros ch k Hch Hk. rewrite (Hqj ch k Hch Hk).
    destruct (Hqu ch k Hch Hk) as (? & ? & ?). simpl. split; [done|].
    split; [lia|done].
  - by rewrite allocated_runningNames.
  - intros ch Hch. erewrite list_fmap_ext; [by apply Hqn|].
    intros i k Hk. unfold nameOf. erewrite Hqj; [done|done|].
    by eapply list_elem_of_lookup_2.
  - done.
Qed.

Lemma Quiet_allocated tn ex ms o s :
  Inv None s → Quiet s → Quiet (allocated tn ex ms o s).
Proof.
  intros Hinv Hq ch Hch Hnone. specialize (Hq ch Hch Hnone).
  rewrite Forall_forall in *. intros k Hk. specialize (Hq k Hk).
  unfold blocked, nameOf in *. rewrite allocated_runningNames by done.
  rewrite allocated_job_ne; [done|].
  destruct (inv_queue _ _ Hinv ch k Hch Hk) as (_ & ? & _). lia.
Qed.

(** A job outside every channel starts. *)
Lemma Inv_started s j :
  Inv None s → chainOf s j = NotStarted → j < _nextExecutionId s →
  channel (jobOf s j) = None → ¬ blocked s j →
  Inv None (started j s).
Proof.
  intros Hinv Hjc Hjlt Hjch Hnb.
  pose proof Hinv as [Hfresh Hrnd Hcnd Hrc Hcr Hdet Hok Hsr Hrs Hqu Hrn Hqn Hqs].
  assert (j ∉ _runningJobs s) as Hjr.
  { intros Hr. destruct (Hrc j Hr) as [Hp _]. by rewrite Hjc in Hp. }
  constructor.
  - intros k Hk. rewrite chainOf_started. simpl in Hk.
    rewrite decide_False by lia. by apply Hfresh.
  - simpl. apply NoDup_app. split; [done|]. split; [|apply NoDup_singleton].
    intros k Hk ->%list_elem_of_singleton. done.
  - done.
  - intros k Hk. rewrite chainOf_started, jobOf_started. simpl in Hk.
    apply elem_of_app in Hk as [Hk| ->%list_elem_of_singleton].
    + rewrite decide_False by congruence. by apply Hrc.
    + rewrite decide_True by done. split; [done|].
      specialize (Hok j). rewrite Hjc in Hok.
      by apply job_ok_NotStarted in Hok as (_ & ? & _).
  - intros k. rewrite chainOf_started, jobOf_started. simpl.
    case_decide as Hk; [subst; intros; apply elem_of_app; right; by left|].
    intros. apply elem_of_app. left. by apply Hcr.
  - done.
  - intros k. rewrite chainOf_started, jobOf_started.
    case_decide as Hk; [|apply Hok]. subst.
    specialize (Hok j). by rewrite Hjc in Hok.
  - intros c k Hc Hk. rewrite jobOf_started.
    destruct (Hsr c k Hc Hk). split; [|done]. apply elem_of_app; by left.
  - intros k cn Hk. rewrite jobOf_started.
    change (_runningJobs _) with (_runningJobs s ++ [j]) in Hk.
    intros Hkc. apply elem_of_app in Hk as [Hk| ->%list_elem_of_singleton].
    + by apply Hrs.
    + congruence.
  - intros c k Hc Hk. rewrite chainOf_started, jobOf_started.
    change (_nextExecutionId _) with (_nextExecutionId s).
    assert (k ≠ j).
    { intros ->. destruct (Hqu c j Hc Hk) as (_ & _ & Hcj). congruence. }
    rewrite decide_False by done. by apply Hqu.
  - rewrite runningNames_started. apply NoDup_app.
    split; [exact Hrn|]. split; [|apply NoDup_singleton].
    intros tn Htn ->%list_elem_of_singleton. by apply Hnb.
  - done.
  - done.
Qed.

Lemma Quiet_started s j : Quiet s → Quiet (started j s).
Proof.
  intros Hq ch Hch Hnone. specialize (Hq ch Hch Hnone).
  eapply Forall_impl; [exact Hq|]. intros k Hk. unfold blocked.
  rewrite runningNames_started. apply elem_of_app. by left.
Qed.

(** ** Channels on demand, and queuing *)

Lemma getChannel_elem cn s c :
  c ∈ _channels (_getChannel cn s) →
  c ∈ _channels s ∨ (c = mkChannel cn None [] ∧ cn ∉ name <$> _channels s).
Proof.
  unfold _getChannel. destruct (channels_get cn (_channels s)) eqn:E; [by left|].
  simpl. intros [?| ->%list_elem_of_singleton]%elem_of_app; [by left|].
  right. split; [done|]. by apply channels_get_None.
Qed.

Lemma getChannel_incl cn s c : c ∈ _channels s → c ∈ _channels (_getChannel cn s).
Proof.
  unfold _getChannel. destruct (channels_get cn (_channels s)); [done|].
  simpl. intros. apply elem_of_app. by left.
Qed.

Lemma getChannel_job cn s k : jobOf (_getChannel cn s) k = jobOf s k.
Proof. unfold _getChannel. destruct (channels_get cn (_channels s)); reflexivity. Qed.

Lemma getChannel_chain cn s k : chainOf (_getChannel cn s) k = chainOf s k.
Proof. unfold _getChannel. destruct (channels_get cn (_channels s)); reflexivity. Qed.

Lemma getChannel_running cn s : _runningJobs (_getChannel cn s) = _runningJobs s.
Proof. unfold _getChannel. destruct (channels_get cn (_channels s)); reflexivity. Qed.

Lemma getChannel_next cn s : _nextExecutionId (_getChannel cn s) = _nextExecutionId s.
Proof. unfold _getChannel. destruct (channels_get cn (_channels s)); reflexivity. Qed.

Lemma getChannel_runningNames cn s : runningNames (_getChannel cn s) = runningNames s.
Proof. unfold _getChannel. destruct (channels_get cn (_channels s)); reflexivity. Qed.

Lemma getChannel_nameOf cn s : nameOf (_getChannel cn s) = nameOf s.
Proof. unfold _getChannel. destruct (channels_get cn (_channels s)); reflexivity. Qed.

Lemma Inv_getChannel x cn s : Inv x s → Inv x (_getChannel cn s).
Proof.
  intros [Hfresh Hrnd Hcnd Hrc Hcr Hdet Hok Hsr Hrs Hqu Hrn Hqn Hqs].
  constructor; rewrite ?getChannel_running, ?getChannel_next,
    ?getChannel_runningNames, ?getChannel_nameOf;
    try setoid_rewrite getChannel_chain; try setoid_rewrite getChannel_job;
    try done.
  - unfold _getChannel. destruct (channels_get cn (_channels s)) eqn:E; [done|].
    change (NoDup (name <$> (_channels s ++ [mkChannel cn None []]))).
    rewrite fmap_app. apply NoDup_app. split; [done|].
    split; [|apply NoDup_singleton]. apply channels_get_None in E.
    intros tn Htn ->%list_elem_of_singleton. done.
  - intros c k [Hc|[-> _]]%getChannel_elem; [|done].
    by apply Hsr.
  - intros k c Hk Hc.
    destruct (Hrs k c Hk Hc) as (ch & ? & ? & ?). exists ch.
    split; [by apply getChannel_incl|done].
  - intros c k [Hc|[-> _]]%getChannel_elem; [|by intros ?%elem_of_nil].
    by apply Hqu.
  - intros c [Hc|[-> _]]%getChannel_elem; [by apply Hqn|apply NoDup_nil_2].
  - intros c [Hc|[-> _]]%getChannel_elem; [by apply Hqs|constructor].
Qed.

Lemma Quiet_getChannel cn s : Quiet s → Quiet (_getChannel cn s).
Proof.
  intros Hq c [Hc|[-> _]]%getChannel_elem Hnone; [|by constructor].
  specialize (Hq c Hc Hnone). eapply Forall_impl; [exact Hq|].
  intros k. unfold blocked. by rewrite getChannel_runningNames, getChannel_nameOf.
Qed.

Definition pushed (cn : string) (j : ref) (s : Scheduler) : Scheduler :=
  upd_channel cn (fun c => mkChannel (name c) (runningJob c) (queue c ++ [j])) s.

Lemma pushed_elem cn j s c' :
  c' ∈ _channels (pushed cn j s) →
  (c' ∈ _channels s ∧ name c' ≠ cn)
  ∨ (∃ c, c ∈ _channels s ∧ name c = cn
       ∧ c' = mkChannel (name c) (runningJob c) (queue c ++ [j])).
Proof.
  intros (c & Hc & ->)%elem_of_upd_channel.
  case_decide; [right; by exists c|by left].
Qed.

Lemma pushed_job cn j s k : jobOf (pushed cn j s) k = jobOf s k.
Proof. reflexivity. Qed.

Lemma pushed_chain cn j s k : chainOf (pushed cn j s) k = chainOf s k.
Proof. reflexivity. Qed.

Lemma pushed_running cn j s : _runningJobs (pushed cn j s) = _runningJobs s.
Proof. reflexivity. Qed.

Lemma pushed_next cn j s : _nextExecutionId (pushed cn j s) = _nextExecutionId s.
Proof. reflexivity. Qed.

Lemma pushed_runningNames cn j s : runningNames (pushed cn j s) = runningNames s.
Proof. reflexivity. Qed.

Lemma pushed_nameOf cn j s : nameOf (pushed cn j s) = nameOf s.
Proof. reflexivity. Qed.

Lemma StronglySorted_snoc (l : list nat) j :
  StronglySorted lt l → Forall (fun k => k < j) l → StronglySorted lt (l ++ [j]).
Proof.
  induction 1 as [|x l Hs IH Hall]; intros Hlt; simpl.
  - by repeat constructor.
  - apply Forall_cons in Hlt as [Hx Hlt]. constructor; [by apply IH|].
    apply Forall_app. split; [done|]. by constructor.
Qed.

Lemma Inv_pushed cn j s :
  Inv None s → chainOf s j = NotStarted → j < _nextExecutionId s →
  channel (jobOf s j) = Some cn →
  (∀ ch k, ch ∈ _channels s → k ∈ queue ch → k < j) →
  nameOf s j ∉ nameOf s <$> queue (channelOf s cn) →
  Inv None (pushed cn j s).
Proof.
  intros Hinv Hjc Hjlt Hjch Hlt Hjn.
  pose proof Hinv as [Hfresh Hrnd Hcnd Hrc Hcr Hdet Hok Hsr Hrs Hqu Hrn Hqn Hqs].
  constructor; rewrite ?pushed_running, ?pushed_next, ?pushed_runningNames,
    ?pushed_nameOf;
    try setoid_rewrite pushed_chain; try setoid_rewrite pushed_job; try done.
  - unfold pushed. by rewrite upd_channel_names.
  - intros c' k [[Hc _]|(c & Hc & Hn & ->)]%pushed_elem; simpl; by apply Hsr.
  - intros k c Hk Hkc. destruct (Hrs k c Hk Hkc) as (ch & Hch & Hn & Hslot).
    destruct (decide (name ch = cn)) as [He|He].
    + exists (mkChannel (name ch) (runningJob ch) (queue ch ++ [j])).
      split; [|done]. apply elem_of_upd_channel. exists ch.
      split; [done|]. by rewrite decide_True.
    + exists ch. split; [|done]. apply elem_of_upd_channel. exists ch.
      split; [done|]. by rewrite decide_False.
  - intros c' k [[Hc _]|(c & Hc & Hn & ->)]%pushed_elem; [by apply Hqu|].
    simpl. intros [Hk| ->%list_elem_of_singleton]%elem_of_app; [by apply Hqu|].
    split; [done|]. split; [done|]. congruence.
  - intros c' [[Hc _]|(c & Hc & Hn & ->)]%pushed_elem; [by apply Hqn|].
    simpl. rewrite fmap_app. apply NoDup_app. split; [by apply Hqn|].
    split; [|apply NoDup_singleton].
    intros tn Htn ->%list_elem_of_singleton. apply Hjn.
    subst cn. by rewrite channelOf_elem.
  - intros c' [[Hc _]|(c & Hc & Hn & ->)]%pushed_elem; [by apply Hqs|].
    simpl. apply StronglySorted_snoc; [by apply Hqs|].
    apply Forall_forall. intros k Hk. by eapply Hlt.
Qed.

(** What [runTask] leaves alone: the jobs that exist and the promise chains
    that have started. *)
Definition Frame (s s' : Scheduler) : Prop :=
  (∀ k, k < _nextExecutionId s → jobOf s' k = jobOf s k)
  ∧ (∀ k, chainOf s k ≠ NotStarted → chainOf s' k = chainOf s k).

Lemma queueJobToChannel_spec cn j s :
  Inv None s → Quiet s → channels_get cn (_channels s) ≠ None →
  chainOf s j = NotStarted → j < _nextExecutionId s →
  channel (jobOf s j) = Some cn →
  (∀ ch k, ch ∈ _channels s → k ∈ queue ch → k < j) →
  nameOf s j ∉ nameOf s <$> queue (channelOf s cn) →
  nameOf s j ∉ runningNames s →
  ∃ s', _queueJobToChannel j cn s = inr s' ∧ Inv None s' ∧ Quiet s'
    ∧ ((∀ k, jobOf s' k = jobOf s k)
       ∧ (∀ k, chainOf s k ≠ NotStarted → chainOf s' k = chainOf s k))
    ∧ (j ∈ _runningJobs s'
       ∨ ((nameOf s j ∉ runningNames s')
          ∧ ∃ ch, ch ∈ _channels s' ∧ name ch = cn ∧ j ∈ queue ch)).
Proof.
  intros Hinv Hquiet Hex Hjc Hjlt Hjch Hlt Hjq Hjr.
  pose proof (Inv_pushed cn j s Hinv Hjc Hjlt Hjch Hlt Hjq) as Hinvp.
  destruct (tryRunNext_spec None (pushed cn j s) cn Hinvp)
    as (s2 & Hrun & Hinv2 & Hg & Hset).
  destruct (channels_get cn (_channels s)) as [c|] eqn:Hget; [|done].
  destruct (channels_get_Some _ _ _ Hget) as [Hc Hcn].
  assert (channelOf s cn = c) as Hof by (unfold channelOf; by rewrite Hget).
  assert (channelOf (pushed cn j s) cn
          = mkChannel (name c) (runningJob c) (queue c ++ [j])) as Hofp.
  { unfold pushed. rewrite channelOf_upd_eq; [by rewrite Hof|done|].
    by rewrite Hget. }
  assert (mkChannel (name c) (runningJob c) (queue c ++ [j])
          ∈ _channels (pushed cn j s)) as Hcp.
  { apply elem_of_upd_channel. exists c. split; [done|]. by rewrite decide_True. }
  assert (Quiet s2) as Hquiet2.
  { apply Quiet_settled. intros cn'.
    destruct (decide (cn' = cn)) as [->|Hne]; [done|].
    eapply Grows_settled; [exact Hg|].
    intros ch [[Hch _]|(c0 & _ & Hn0 & ->)]%pushed_elem Hn Hnone.
    - by apply Hquiet.
    - simpl in Hn. congruence. }
  assert (j ∈ _runningJobs s2
       ∨ ((nameOf s j ∉ runningNames s2)
          ∧ ∃ ch, ch ∈ _channels s2 ∧ name ch = cn ∧ j ∈ queue ch)) as Hact.
  { destruct (tryRunNext_cases _ _ _ Hrun)
      as [[Hsame _]|(pre & k & post & Hnone & Hq & Hpre & Hk & ->)].
    - right.
      assert (_runningJobs s2 = _runningJobs s ∧ _channels s2 = _channels (pushed cn j s)
              ∧ runningNames s2 = runningNames s) as (Hr & Hch & Hrn).
      { destruct Hsame as [->|[es ->]]; done. }
      rewrite Hrn, Hch. split; [done|].
      eexists. split; [exact Hcp|]. split; [done|].
      simpl. apply elem_of_app. right. by left.
    - rewrite Hofp in Hq. simpl in Hq.
      destruct (decide (k = j)) as [->|Hkj].
      { left. simpl. apply elem_of_app. right. by left. }
      right. split.
      + rewrite runningNames_promoted. rewrite pushed_runningNames, pushed_nameOf.
        intros [?|Heq%list_elem_of_singleton]%elem_of_app; [done|].
        apply Hjq. rewrite Hof.
        assert (k ∈ queue c ++ [j]) as Hkq.
        { rewrite Hq. apply elem_of_app. right. by left. }
        apply elem_of_app in Hkq as [Hkq|Hkq%list_elem_of_singleton]; [|done].
        apply list_elem_of_fmap. by exists k.
      + exists (mkChannel (name c) (Some k) (delete (length pre) (queue c ++ [j]))).
        split; [|split; [done|]].
        * apply elem_of_upd_channel. eexists. split; [exact Hcp|].
          simpl. by rewrite decide_True.
        * simpl. eapply elem_of_delete_other; [|by apply elem_of_app; right; left|done].
          rewrite Hq. by rewrite list_lookup_middle. }
  unfold _queueJobToChannel. fold (pushed cn j s). rewrite Hrun. simpl.
  assert ((∀ k, jobOf s2 k = jobOf s k)
          ∧ (∀ k, chainOf s k ≠ NotStarted → chainOf s2 k = chainOf s k))
    as Hframe.
  { split; intros k; [by rewrite (grows_job _ _ Hg)|].
    intros Hk. by rewrite (grows_chain _ _ Hg). }
  eexists. split; [done|].
  case_bool_decide.
  - split; [done|]. split; [done|]. split; done.
  - split; [by apply Inv_emit|]. split; [by eapply Quiet_ext|].
    split; done.
Qed.

(** ** [runTask] *)

(** The handle [runTask] returns is that of an active job: running, or
    waiting in the requested channel while no job of its name runs. *)
Definition Active (o : TaskOptions) (tn : string) (j : ref) (s : Scheduler) : Prop :=
  j ∈ _runningJobs s
  ∨ ((tn ∉ runningNames s)
     ∧ ∃ ch, ch ∈ _channels s ∧ optChannel o = Some (name ch) ∧ j ∈ queue ch).

Lemma createAndRunJob_unfold tn ex ms o s :
  _createAndRunJob tn ex ms o s =
  (s2 <- match optChannel o with
         | None => _executeJob (_nextExecutionId s) (allocated tn ex ms o s)
         | Some cn =>
             _queueJobToChannel (_nextExecutionId s) cn
               (_getChannel cn (allocated tn ex ms o s))
         end ;;
   inr (_nextExecutionId s, s2)).
Proof. reflexivity. Qed.

Lemma runTask_spec tn ex ms o s :
  Inv None s → Quiet s →
  ∃ j s', runTask tn ex ms o s = inr (j, s') ∧ Inv None s' ∧ Quiet s'
    ∧ nameOf s' j = tn ∧ Active o tn j s' ∧ Frame s s'.
Proof.
  intros Hinv Hquiet. unfold runTask.
  destruct (_findRunningJob tn s) as [j|] eqn:Hfind.
  { apply findWhere_Some in Hfind as (Hj & Hn & _).
    exists j, s. split; [done|]. split; [done|]. split; [done|].
    split; [done|]. split; [by left|done]. }
  apply findWhere_None in Hfind. fold (runningNames s) in Hfind.
  unfold _findQueuedTaskInChannel.
  destruct (optChannel o) as [c|] eqn:Hopt.
  - set (s1 := _getChannel c s).
    pose proof (Inv_getChannel None c s Hinv) as Hinv1.
    pose proof (Quiet_getChannel c s Hquiet) as Hquiet1.
    pose proof (getChannel_exists c s) as Hex. fold s1 in Hinv1, Hquiet1, Hex.
    destruct (channels_get c (_channels s1)) as [ch|] eqn:Hget; [|done].
    destruct (channels_get_Some _ _ _ Hget) as [Hch Hcn].
    assert (channelOf s1 c = ch) as Hof by (unfold channelOf; by rewrite Hget).
    assert (runningNames s1 = runningNames s) as Hrn1
      by apply getChannel_runningNames.
    destruct (findWhere s1 (queue (channelOf s1 c)) tn) as [j|] eqn:Hq.
    + apply findWhere_Some in Hq as (Hj & Hn & _). rewrite Hof in Hj.
      exists j, s1. split; [done|]. split; [done|]. split; [done|].
      split; [done|]. split.
      { right. rewrite Hrn1. split; [done|]. exists ch. by rewrite Hcn. }
      split; intros k _; [apply getChannel_job|apply getChannel_chain].
    + apply findWhere_None in Hq.
      rewrite createAndRunJob_unfold, Hopt.
      set (a := allocated tn ex ms o s1). set (j := _nextExecutionId s1).
      pose proof (Inv_allocated tn ex ms o s1 Hinv1) as Hinva.
      pose proof (Quiet_allocated tn ex ms o s1 Hinv1 Hquiet1) as Hquieta.
      fold a in Hinva, Hquieta.
      assert (jobOf a j = newJobImpl j tn ex ms (Some c)
                (default false (optSilent o))) as Hja.
      { unfold a, j. by rewrite allocated_job_eq, Hopt. }
      assert (channels_get c (_channels a) ≠ None) as Hexa.
      { change (_channels a) with (_channels s1). by rewrite Hget. }
      rewrite (getChannel_id c a Hexa).
      assert (∀ c0 k, c0 ∈ _channels s1 → k ∈ queue c0 → jobOf a k = jobOf s1 k)
        as Hqj.
      { intros c0 k Hc0 Hk. apply allocated_job_ne.
        destruct (inv_queue _ _ Hinv1 c0 k Hc0 Hk) as (_ & ? & _). lia. }
      destruct (queueJobToChannel_spec c j a)
        as (s' & Hrun & Hinv' & Hq' & [Hjob Hchain] & Hact); try done.
      * change (chainOf a j) with (chainOf s1 j).
        apply (inv_fresh _ _ Hinv1). unfold j. lia.
      * unfold a, j. simpl. lia.
      * by rewrite Hja.
      * intros c0 k Hc0 Hk.
        destruct (inv_queue _ _ Hinv1 c0 k Hc0 Hk) as (_ & ? & _). done.
      * unfold nameOf at 1. rewrite Hja. simpl.
        assert (channelOf a c = ch) as -> by (unfold channelOf; simpl; by rewrite Hget).
        rewrite Hof in Hq. intros (k & Hk1 & Hk2)%list_elem_of_fmap. apply Hq.
        apply list_elem_of_fmap. exists k. split; [|done].
        unfold nameOf in *. by erewrite <- Hqj.
      * unfold nameOf at 1. rewrite Hja. simpl.
        unfold a. rewrite allocated_runningNames by done. by rewrite Hrn1.
      * rewrite Hrun. simpl. exists j, s'. split; [done|]. split; [done|].
        split; [done|].
        assert (nameOf a j = tn) as Hna by (unfold nameOf; by rewrite Hja).
        split; [unfold nameOf; by rewrite Hjob, Hja|].
        rewrite Hna in Hact. split.
        { destruct Hact as [?|[? (ch' & ? & ? & ?)]]; [by left|right].
          split; [done|]. exists ch'. split; [done|]. split; [congruence|done]. }
        split.
        -- intros k Hk. rewrite Hjob. unfold a.
           rewrite allocated_job_ne; [apply getChannel_job|].
           unfold s1. rewrite getChannel_next. lia.
        -- intros k Hk. rewrite Hchain; [apply getChannel_chain|].
           change (chainOf a k) with (chainOf s1 k).
           unfold s1. by rewrite getChannel_chain.
  - rewrite createAndRunJob_unfold, Hopt.
    set (a := allocated tn ex ms o s). set (j := _nextExecutionId s).
    pose proof (Inv_allocated tn ex ms o s Hinv) as Hinva.
    pose proof (Quiet_allocated tn ex ms o s Hinv Hquiet) as Hquieta.
    fold a in Hinva, Hquieta.
    assert (jobOf a j = newJobImpl j tn ex ms None
              (default false (optSilent o))) as Hja.
    { unfold a, j. by rewrite allocated_job_eq, Hopt. }
    assert (¬ blocked a j) as Hnb.
    { unfold blocked, nameOf. rewrite Hja. simpl.
      unfold a. by rewrite allocated_runningNames. }
    rewrite executeJob_ok; [|by rewrite Hja|done]. simpl.
    exists j, (started j a). split; [done|].
    split.
    { apply Inv_started; try done.
      - change (chainOf a j) with (chainOf s j).
        apply (inv_fresh _ _ Hinv). unfold j. lia.
      - unfold a, j. simpl. lia.
      - by rewrite Hja. }
    split; [by apply Quiet_started|].
    split; [change (taskName (jobOf a j) = tn); by rewrite Hja|].
    split; [left; simpl; apply elem_of_app; right; by left|].
    split.
    + intros k Hk. rewrite jobOf_started. apply allocated_job_ne. unfold j. lia.
    + intros k Hk. rewrite chainOf_started. rewrite decide_False; [done|].
      intros ->. apply Hk. apply (inv_fresh _ _ Hinv). unfold j. lia.
Qed.

(** ** The callbacks that only touch their own job *)

Lemma jobOf_emit es s k : jobOf (emit es s) k = jobOf s k.
Proof. reflexivity. Qed.

Lemma jobOf_set_chain j c s k : jobOf (set_chain j c s) k = jobOf s k.
Proof. reflexivity. Qed.

Lemma chainOf_emit es s k : chainOf (emit es s) k = chainOf s k.
Proof. reflexivity. Qed.

Lemma chainOf_upd_job j f s k : chainOf (upd_job j f s) k = chainOf s k.
Proof. reflexivity. Qed.

Create HintDb sched.

#[global] Hint Rewrite jobOf_emit jobOf_set_chain chainOf_emit chainOf_upd_job
  jobOf_upd_job chainOf_set_chain : sched.

Lemma report_fold_fields rs o :
  let o' := foldl (fun b r => report r b) o rs in
  taskName o' = taskName o ∧ channel o' = channel o ∧ timedOut o' = timedOut o
  ∧ status o' = status o ∧ timeoutId o' = timeoutId o ∧ logId o' = logId o
  ∧ silent o' = silent o ∧ executor o' = executor o ∧ timeout o' = timeout o.
Proof.
  revert o; induction rs as [|r rs IH]; intros o; simpl; [done|].
  specialize (IH (report r o)). simpl in IH.
  destruct IH as (-> & -> & -> & -> & -> & -> & -> & -> & ->).
  by destruct r.
Qed.

Lemma jobOf_if (b : bool) s1 s2 k :
  jobOf (if b then s1 else s2) k = if b then jobOf s1 k else jobOf s2 k.
Proof. by destruct b. Qed.

Lemma chainOf_if (b : bool) s1 s2 k :
  chainOf (if b then s1 else s2) k = if b then chainOf s1 k else chainOf s2 k.
Proof. by destruct b. Qed.

#[global] Hint Rewrite jobOf_if chainOf_if : sched.

Ltac norm_sched :=
  repeat (autorewrite with sched in *;
          rewrite ?decide_True in * by done).

(** Case analysis on the fields of a job that [job_ok] looks at. *)
Ltac crush_job o :=
  destruct o as [? ? ? ? ? ? lid ? tid tout st ? ? ?];
  unfold job_ok, untouched, timerLive, timerDone, launched, inProgress in *;
  simpl in *;
  try destruct tid as [[]|]; try destruct tout; try destruct st;
  try destruct lid; simpl in *; try done; try congruence.

(** States that events leave behind. *)
Definition Good (s : Scheduler) : Prop := Inv None s ∧ Quiet s.

Lemma Quiet_job_keep s s' j :
  Quiet s →
  _runningJobs s' = _runningJobs s → _channels s' = _channels s →
  (∀ k, k ≠ j → jobOf s' k = jobOf s k ∧ chainOf s' k = chainOf s k) →
  taskName (jobOf s' j) = taskName (jobOf s j) →
  Quiet s'.
Proof.
  intros Hq Hr Hc Hoth Hn. apply (Quiet_ext s s'); try done.
  intros k. unfold nameOf. destruct (decide (k = j)) as [->|Hk]; [done|].
  by destruct (Hoth k Hk) as [-> _].
Qed.

Lemma onConcluded_keep x j e s :
  Inv x s → chainOf s j = AwaitConclude e → Inv x (onConcluded j e s).
Proof.
  intros Hinv Hc. pose proof (inv_job_ok _ _ Hinv j) as Hok. rewrite Hc in Hok.
  unfold onConcluded, onClassified, onFinishLogFailed. cbv zeta.
  repeat (case_match; simplify_eq).
  all: apply (Inv_job_keep x s _ j);
    [exact Hinv | reflexivity | reflexivity | reflexivity | .. ].
  all: try (intros k Hk; autorewrite with sched; rewrite !decide_False by done; done).
  all: norm_sched.
  all: try (rewrite Hc; reflexivity).
  all: try (rewrite Hc; done).
  all: try reflexivity.
  all: crush_job (jobOf s j).
Qed.

Lemma onConcluded_quiet j e s : Quiet s → Quiet (onConcluded j e s).
Proof.
  intros Hq. unfold onConcluded, onClassified, onFinishLogFailed. cbv zeta.
  repeat (case_match; simplify_eq).
  all: apply (Quiet_job_keep s _ j); [exact Hq | reflexivity | reflexivity | .. ].
  all: try (intros k Hk; autorewrite with sched; rewrite !decide_False by done; done).
  all: norm_sched; reflexivity.
Qed.

Lemma onStarted_keep x j jobId now rs o s :
  Inv x s → chainOf s j = AwaitStart → Inv x (onStarted j jobId now rs o s).
Proof.
  intros Hinv Hc. pose proof (inv_job_ok _ _ Hinv j) as Hok. rewrite Hc in Hok.
  pose proof (report_fold_fields rs (set_startTime now (set_logId jobId (jobOf s j))))
    as Hf. cbv zeta in Hf. destruct Hf as (Hf1 & Hf2 & Hf3 & Hf4 & Hf5 & Hf6 & _).
  unfold onStarted. cbv zeta.
  repeat (case_match; simplify_eq).
  all: apply (Inv_job_keep x s _ j);
    [exact Hinv | reflexivity | reflexivity | reflexivity | .. ].
  all: try (intros k Hk; autorewrite with sched; rewrite !decide_False by done; done).
  all: norm_sched.
  all: try (rewrite Hc; reflexivity).
  all: try (rewrite Hc; done).
  all: simpl; rewrite ?Hf1, ?Hf2, ?Hf3; try reflexivity.
  all: revert Hf1 Hf2 Hf3 Hf4 Hf5 Hf6;
    generalize (foldl (λ b r, report r b)
                  (set_startTime now (set_logId jobId (jobOf s j))) rs);
    intros o' Hf1 Hf2 Hf3 Hf4 Hf5 Hf6.
  all: destruct o'; simpl in *; subst; crush_job (jobOf s j).
Qed.

Lemma onStarted_quiet j jobId now rs o s :
  Quiet s → Quiet (onStarted j jobId now rs o s).
Proof.
  intros Hq.
  pose proof (report_fold_fields rs (set_startTime now (set_logId jobId (jobOf s j))))
    as Hf. cbv zeta in Hf. destruct Hf as (Hf1 & _).
  unfold onStarted. cbv zeta.
  repeat (case_match; simplify_eq).
  all: apply (Quiet_job_keep s _ j); [exact Hq | reflexivity | reflexivity | .. ].
  all: try (intros k Hk; autorewrite with sched; rewrite !decide_False by done; done).
  all: norm_sched; simpl; by rewrite ?Hf1.
Qed.

(** The small steps: a promise settles, the executor reports. *)
Lemma set_chain_keep x j c s :
  Inv x s → chainOf s j ≠ NotStarted → c ≠ NotStarted →
  inProgress c = inProgress (chainOf s j) →
  job_ok (jobOf s j) c = true →
  Inv x (set_chain j c s).
Proof.
  intros Hinv Hns Hc Hip Hok.
  apply (Inv_job_keep x s _ j); try done.
  - intros k Hk. by rewrite jobOf_set_chain, chainOf_set_chain_ne.
  - by rewrite chainOf_set_chain_eq.
  - by rewrite chainOf_set_chain_eq.
  - by rewrite chainOf_set_chain_eq.
Qed.

Lemma set_chain_quiet j c s : Quiet s → Quiet (set_chain j c s).
Proof. intros Hq. by apply (Quiet_ext s). Qed.

Lemma report_keep x j r s :
  Inv x s → chainOf s j = AwaitWork → Inv x (upd_job j (report r) s).
Proof.
  intros Hinv Hc. pose proof (inv_job_ok _ _ Hinv j) as Hok. rewrite Hc in Hok.
  apply (Inv_job_keep x s _ j); try done.
  - intros k Hk. by rewrite jobOf_upd_job_ne.
  - rewrite jobOf_upd_job_eq. by destruct r.
  - rewrite jobOf_upd_job_eq. by destruct r.
  - rewrite jobOf_upd_job_eq. by destruct r.
  - rewrite jobOf_upd_job_eq, chainOf_upd_job, Hc. destruct r; crush_job (jobOf s j).
Qed.

Lemma report_quiet j r s : Quiet s → Quiet (upd_job j (report r) s).
Proof.
  intros Hq. apply (Quiet_job_keep s _ j); try done.
  - intros k Hk. by rewrite jobOf_upd_job_ne.
  - rewrite jobOf_upd_job_eq. by destruct r.
Qed.

(** ** Timeout and cleanup *)

Lemma indexOf_notin j l : j ∉ l → indexOf j l = None.
Proof.
  intros Hout. destruct (indexOf j l) as [i|] eqn:Hi; [|done].
  exfalso. apply Hout. eapply list_elem_of_lookup_2. by apply indexOf_lookup.
Qed.

(** A pending timer belongs to a job of the running list whose executor or
    cb3 has not concluded normally, or to a finished job: cb3 threw before
    [clearTimeout] and cb5 has unregistered the job. *)
Lemma armed_cases s j :
  Inv None s → timeoutId (jobOf s j) = Some TimerArmed →
  (j ∈ _runningJobs s ∧ status (jobOf s j) = StRunning
   ∧ timedOut (jobOf s j) = false
   ∧ (chainOf s j = AwaitWork ∨ (∃ e, chainOf s j = AwaitConclude e)
      ∨ chainOf s j = AwaitCleanup None))
  ∨ ((j ∉ _runningJobs s) ∧ chainOf s j = Settled
     ∧ status (jobOf s j) = StFinished).
Proof.
  intros Hinv Harmed. pose proof (inv_job_ok _ _ Hinv j) as Hok.
  assert (chainOf s j = Settled ∨
          (inProgress (chainOf s j) = true
           ∧ status (jobOf s j) = StRunning ∧ timedOut (jobOf s j) = false
           ∧ (chainOf s j = AwaitWork ∨ (∃ e, chainOf s j = AwaitConclude e)
              ∨ chainOf s j = AwaitCleanup None))) as [Hc|(Hp & Hst & Hto & Hc)].
  { destruct (chainOf s j) as [| | |e|r|[r|]|] eqn:Hc;
      [| | | | | | |by left]; crush_job (jobOf s j); right; eauto 8. }
  - right. split.
    + intros Hin. destruct (inv_run_chain _ _ Hinv j Hin) as [Hp _].
      by rewrite Hc in Hp.
    + split; [done|]. rewrite Hc in Hok. crush_job (jobOf s j).
  - left. split; [by apply (inv_chain_run _ _ Hinv)|done].
Qed.

Lemma armed_running s j :
  Inv None s → timeoutId (jobOf s j) = Some TimerArmed → j ∈ _runningJobs s →
  status (jobOf s j) = StRunning ∧ timedOut (jobOf s j) = false
  ∧ (chainOf s j = AwaitWork ∨ (∃ e, chainOf s j = AwaitConclude e)
     ∨ chainOf s j = AwaitCleanup None).
Proof.
  intros Hinv Harmed Hj.
  destruct (armed_cases s j Hinv Harmed) as [(_ & ? & ? & ?)|(Hout & _)]; done.
Qed.

Lemma fired_keep s j :
  Inv None s → timeoutId (jobOf s j) = Some TimerArmed →
  Inv None (upd_job j (set_timeoutId TimerFired) s).
Proof.
  intros Hinv Harmed. pose proof (inv_job_ok _ _ Hinv j) as Hok.
  apply (Inv_job_keep None s _ j); try done.
  - intros k Hk. by rewrite jobOf_upd_job_ne.
  - by rewrite jobOf_upd_job_eq.
  - by rewrite jobOf_upd_job_eq.
  - by rewrite jobOf_upd_job_eq.
  - rewrite jobOf_upd_job_eq, chainOf_upd_job.
    destruct (chainOf s j) as [| | |e|r|[r|]|]; crush_job (jobOf s j).
Qed.

Lemma fired_quiet s j : Quiet s → Quiet (upd_job j (set_timeoutId TimerFired) s).
Proof.
  intros Hq. apply (Quiet_job_keep s _ j); try done.
  - intros k Hk. by rewrite jobOf_upd_job_ne.
  - by rewrite jobOf_upd_job_eq.
Qed.

(** The state in which the timer callback of [j] starts. *)
Definition fired (j : ref) (s : Scheduler) : Scheduler :=
  upd_job j (set_timeoutId TimerFired) s.

(** The timer of a job of the running list fires. *)
Lemma timeoutJob_spec s j :
  Good s → timeoutId (jobOf s j) = Some TimerArmed → j ∈ _runningJobs s →
  ∃ i s1, indexOf j (_runningJobs s) = Some i
    ∧ _unregisterJob j (fired j s) = inr s1
    ∧ Inv (Some j) s1 ∧ Quiet s1 ∧ Grows (detached i j (fired j s)) s1
    ∧ _timeoutJob j (fired j s) = inr (upd_job j (set_timedOut true) s1)
    ∧ Good (upd_job j (set_timedOut true) s1).
Proof.
  intros [Hinv Hquiet] Harmed Hj.
  destruct (armed_running s j Hinv Harmed Hj) as (Hst & Ht & Hc).
  pose proof (fired_keep s j Hinv Harmed) as Hinv0. fold (fired j s) in Hinv0.
  destruct (unregisterJob_spec (fired j s) j Hinv0 Hj)
    as (i & s1 & Hi & Hun & Hinv1 & Hq1 & Hg).
  exists i, s1. split; [done|]. split; [done|]. split; [done|]. split; [done|].
  split; [done|]. unfold _timeoutJob. rewrite Hun. simpl. split; [done|].
  destruct (inv_detached _ _ Hinv1 j eq_refl) as [Hout Hns].
  assert (jobOf s1 j = set_timeoutId TimerFired (jobOf s j)) as Hjob.
  { rewrite (grows_job _ _ Hg), detached_job. apply jobOf_upd_job_eq. }
  assert (chainOf s1 j = chainOf s j) as Hchain.
  { rewrite (grows_chain _ _ Hg); rewrite detached_chain; [done|].
    change (chainOf (fired j s) j) with (chainOf s j).
    destruct Hc as [->|[[e ->]| ->]]; done. }
  split.
  - apply (Inv_job_settle (Some j) s1 _ j); try done.
    + by right.
    + intros k Hk. by rewrite jobOf_upd_job_ne.
    + by rewrite jobOf_upd_job_eq.
    + by rewrite jobOf_upd_job_eq.
    + right. by rewrite jobOf_upd_job_eq.
    + rewrite jobOf_upd_job_eq, chainOf_upd_job, Hchain, Hjob.
      pose proof (inv_job_ok _ _ Hinv j) as Hok.
      destruct Hc as [Hc|[[e Hc]|Hc]]; rewrite Hc in *; crush_job (jobOf s j).
  - apply (Quiet_job_keep s1 _ j); try done.
    + intros k Hk. by rewrite jobOf_upd_job_ne.
    + by rewrite jobOf_upd_job_eq.
Qed.

(** The timer of a job that is no longer in the running list fires:
    [_unregisterJob] does not find the job. *)
Lemma stale_timer_orphaned s j :
  timeoutId (jobOf s j) = Some TimerArmed → j ∉ _runningJobs s →
  step s (EvTimer j) = Some (inl (OrphanedJob j)).
Proof.
  intros Harmed Hout. simpl. rewrite Harmed.
  unfold _timeoutJob, _unregisterJob.
  change (_runningJobs (upd_job j (set_timeoutId TimerFired) s))
    with (_runningJobs s).
  by rewrite (indexOf_notin _ _ Hout).
Qed.

(** The state cb5 leaves. *)
Definition finishedAs (j : ref) (r : option JobResult) (s : Scheduler) : Scheduler :=
  set_chain j Settled (upd_job j (setStatus StFinished r) s).

Lemma finishedAs_good x j r s :
  Inv x s → Quiet s → (x = None ∨ x = Some j) → j ∉ _runningJobs s →
  chainOf s j = AwaitCleanup r → Good (finishedAs j r s).
Proof.
  intros Hinv Hquiet Hx Hout Hc.
  pose proof (inv_job_ok _ _ Hinv j) as Hok. rewrite Hc in Hok.
  unfold finishedAs. split.
  - apply (Inv_job_settle x s _ j); try done.
    + intros k Hk. autorewrite with sched. by rewrite !decide_False.
    + norm_sched. done.
    + norm_sched. done.
    + by rewrite Hc.
    + by rewrite chainOf_set_chain_eq.
    + left. by rewrite chainOf_set_chain_eq.
    + norm_sched. done.
  - apply (Quiet_job_keep s _ j); try done.
    + intros k Hk. autorewrite with sched. by rewrite !decide_False.
    + norm_sched. done.
Qed.

Lemma onCleanup_spec s j r :
  Good s → chainOf s j = AwaitCleanup r →
  (timedOut (jobOf s j) = true ∧ onCleanup j r s = inr (finishedAs j r s)
   ∧ Good (finishedAs j r s))
  ∨ (timedOut (jobOf s j) = false ∧
     ∃ i s1 s2, indexOf j (_runningJobs s) = Some i
       ∧ _unregisterJob j s = inr s1 ∧ Grows (detached i j s) s1
       ∧ _tryToUnstallChannels s1 = inr s2 ∧ Grows s1 s2
       ∧ Inv (Some j) s2 ∧ Quiet s2
       ∧ onCleanup j r s = inr (finishedAs j r s2)
       ∧ Good (finishedAs j r s2)).
Proof.
  intros [Hinv Hquiet] Hc. unfold onCleanup.
  destruct (timedOut (jobOf s j)) eqn:Ht.
  - left. split; [done|]. split; [done|].
    apply (finishedAs_good None); try done; [by left|].
    intros Hin. destruct (inv_run_chain _ _ Hinv j Hin). congruence.
  - right. split; [done|].
    assert (j ∈ _runningJobs s) as Hj.
    { apply (inv_chain_run _ _ Hinv); [by rewrite Hc|done|done]. }
    destruct (unregisterJob_spec s j Hinv Hj)
      as (i & s1 & Hi & Hun & Hinv1 & Hq1 & Hg1).
    destruct (tryToUnstallChannels_spec (Some j) s1 Hinv1)
      as (s2 & Hrun & Hinv2 & Hg2 & Hq2).
    exists i, s1, s2. rewrite Hun. simpl. rewrite Hrun. simpl.
    repeat (split; [done|]).
    destruct (inv_detached _ _ Hinv2 j eq_refl) as [Hout Hns].
    apply (finishedAs_good (Some j)); try done; [by right|].
    rewrite (grows_chain _ _ Hg2); rewrite (grows_chain _ _ Hg1);
      rewrite ?detached_chain; by rewrite ?Hc.
Qed.

(** ** Every event keeps the bookkeeping consistent *)

(** An event that raises nothing leaves a consistent state. *)
Lemma step_good s ev s' :
  Good s → step s ev = Some (inr s') → Good s'.
Proof.
  intros Hgood Hstep. pose proof Hgood as [Hinv Hquiet].
  destruct ev as [tn ex ms o|j jobId now rs o|j e|j rp|j|j e|j|j ok|j|j];
    simpl in Hstep.
  - destruct (runTask_spec tn ex ms o s Hinv Hquiet)
      as (j & s0 & Hrun & Hinv' & Hq' & _).
    rewrite Hrun in Hstep. simpl in Hstep. by injection Hstep as <-.
  - destruct (chainOf s j) eqn:Hc; try done. injection Hstep as <-.
    split; [by apply onStarted_keep|by apply onStarted_quiet].
  - destruct (chainOf s j) eqn:Hc; try done. injection Hstep as <-.
    pose proof (inv_job_ok _ _ Hinv j) as Hok. rewrite Hc in Hok.
    split; [|by apply set_chain_quiet].
    apply set_chain_keep; rewrite ?Hc; try done. crush_job (jobOf s j).
  - destruct (chainOf s j) eqn:Hc; try done. injection Hstep as <-.
    split; [by apply report_keep|by apply report_quiet].
  - destruct (chainOf s j) eqn:Hc; try done. injection Hstep as <-.
    pose proof (inv_job_ok _ _ Hinv j) as Hok. rewrite Hc in Hok.
    split; [|by apply set_chain_quiet].
    apply set_chain_keep; rewrite ?Hc; try done. crush_job (jobOf s j).
  - destruct (chainOf s j) eqn:Hc; try done. injection Hstep as <-.
    pose proof (inv_job_ok _ _ Hinv j) as Hok. rewrite Hc in Hok.
    split; [|by apply set_chain_quiet].
    apply set_chain_keep; rewrite ?Hc; try done. crush_job (jobOf s j).
  - destruct (chainOf s j) eqn:Hc; try done. injection Hstep as <-.
    split; [by apply onConcluded_keep|by apply onConcluded_quiet].
  - destruct (chainOf s j) eqn:Hc; try done. injection Hstep as <-.
    pose proof (inv_job_ok _ _ Hinv j) as Hok. rewrite Hc in Hok.
    assert (Inv None (if ok then s else onFinishLogFailed s)) as Hinv'.
    { destruct ok; [done|by apply Inv_emit]. }
    assert (Quiet (if ok then s else onFinishLogFailed s)) as Hq'.
    { destruct ok; [done|by apply (Quiet_ext s)]. }
    assert (chainOf (if ok then s else onFinishLogFailed s) j
            = AwaitFinishLog jobResult) as Hc' by (destruct ok; exact Hc).
    assert (jobOf (if ok then s else onFinishLogFailed s) j = jobOf s j) as Hj'
      by (destruct ok; reflexivity).
    split; [|by apply set_chain_quiet].
    apply set_chain_keep; rewrite ?Hc', ?Hj'; try done.
    crush_job (jobOf s j).
  - destruct (chainOf s j) eqn:Hc; try done.
    destruct (onCleanup_spec s j jobResult Hgood Hc)
      as [(_ & Hrun & Hg)|(_ & i & s1 & s2 & _ & _ & _ & _ & _ & _ & _ & Hrun & Hg)];
      rewrite Hrun in Hstep; by injection Hstep as <-.
  - destruct (timeoutId (jobOf s j)) as [[]|] eqn:Harmed; try done.
    destruct (decide (j ∈ _runningJobs s)) as [Hj|Hout].
    + destruct (timeoutJob_spec s j Hgood Harmed Hj)
        as (i & s1 & _ & _ & _ & _ & _ & Hrun & Hg).
      fold (fired j s) in Hstep. rewrite Hrun in Hstep. by injection Hstep as <-.
    + pose proof (stale_timer_orphaned s j Harmed Hout) as Hbad.
      simpl in Hbad. rewrite Harmed in Hbad. congruence.
Qed.


Lemma Good_init : Good init.
Proof. split; [apply Inv_init|apply Quiet_init]. Qed.

Lemma reachable_good s : reachable s → Good s.
Proof.
  induction 1 as [|s ev s' Hr IH Hstep]; [apply Good_init|].
  by eapply step_good.
Qed.

Lemma run_reachable evs s s' : reachable s → run evs s = Some s' → reachable s'.
Proof.
  revert s; induction evs as [|ev evs IH]; intros s Hr; simpl.
  - by intros [= <-].
  - destruct (step s ev) as [[f|s1]|] eqn:Hstep; try done.
    apply IH. by eapply reachable_step.
Qed.

Lemma NoDup_fmap_elem {A B} (f : A → B) (l : list A) x y :
  NoDup (f <$> l) → x ∈ l → y ∈ l → f x = f y → x = y.
Proof.
  induction l as [|z l IH]; simpl; [by intros _ ?%elem_of_nil|].
  intros [Hz Hnd]%NoDup_cons [->|Hx]%elem_of_cons [->|Hy]%elem_of_cons Heq;
    try done.
  - exfalso. apply Hz. rewrite Heq. apply list_elem_of_fmap. by exists y.
  - exfalso. apply Hz. rewrite <- Heq. apply list_elem_of_fmap. by exists x.
  - by apply IH.
Qed.

Lemma running_status s j :
  Inv None s → status (jobOf s j) = StRunning → timedOut (jobOf s j) = false →
  j ∈ _runningJobs s.
Proof.
  intros Hinv Hst Ht. apply (inv_chain_run _ _ Hinv); [|done|done].
  pose proof (inv_job_ok _ _ Hinv j) as Hok.
  destruct (chainOf s j); crush_job (jobOf s j).
Qed.

(** * The claims *)

Definition noOptions : TaskOptions := mkOptions None None.
Definition inChannel (c : string) : TaskOptions := mkOptions (Some c) None.

(** Observing the state a script of events leads to. *)
Definition observe {A : Type} (evs : list Event) (f : Scheduler → A) : option A :=
  f <$> run evs init.

Lemma observe_Some {A : Type} evs (f : Scheduler → A) v :
  observe evs f = Some v → ∃ s, run evs init = Some s ∧ reachable s ∧ f s = v.
Proof.
  unfold observe. destruct (run evs init) as [s|] eqn:Hrun; [|done].
  intros [= <-]. exists s. split; [done|]. split; [|done].
  by apply (run_reachable evs init s reachable_init).
Qed.

Lemma run_snoc evs ev s s' :
  run (evs ++ [ev]) s = Some s' ↔
  ∃ s1, run evs s = Some s1 ∧ step s1 ev = Some (inr s').
Proof.
  revert s; induction evs as [|e evs IH]; intros s; simpl.
  - destruct (step s ev) as [[f|s1]|] eqn:Hstep.
    + split; [done|]. by intros (s1 & [= <-] & Hs); rewrite Hstep in Hs.
    + split; [intros [= <-]; by exists s|].
      intros (s2 & [= <-] & Hs). rewrite Hstep in Hs. by injection Hs as <-.
    + split; [done|]. by intros (s1 & [= <-] & Hs); rewrite Hstep in Hs.
  - destruct (step s e) as [[f|s1]|] eqn:Hstep; try apply IH;
      (split; [done|by intros (? & ? & ?)]).
Qed.

(** ** C10 *)


Definition script_cb3_throws : list Event :=
  [EvRunTask "T" 0 1000 noOptions;
   EvStartJobResolved 0 7 1000 [] Returns;
   EvWorkRejected 0 (JsObject None None);
   EvConclude 0;
   EvCleanup 0].

Lemma script_cb3_throws_obs :
  observe script_cb3_throws
    (fun s => (getRunningJobs s, status (jobOf s 0), result (jobOf s 0),
               errors (jobOf s 0), timeoutId (jobOf s 0),
               step s (EvTimer 0)))
  = Some ([], StFinished, None, [], Some TimerArmed,
          Some (inl (OrphanedJob 0))).
Proof. vm_compute. reflexivity. Qed.

(** C10, at the failing input.  One [runTask] call whose executor returns a
    promise rejected with an object that has neither a [message] nor a
    callable [toString] (such as [Object.create(null)]).  cb3 throws while it
    reads the error text, before [clearTimeout]; cb4 swallows that; cb5
    unregisters the job and finishes it with an unassigned result.  The timer
    is still pending: when it fires, [_unregisterJob] does not find the job
    and raises 'Orphaned job detected'. *)
Theorem stale_timer_raises_orphaned_job :
  ∃ s, run script_cb3_throws init = Some s
       ∧ reachable s
       ∧ getRunningJobs s = [] ∧ status (jobOf s 0) = StFinished
       ∧ result (jobOf s 0) = None
       ∧ timeoutId (jobOf s 0) = Some TimerArmed
       ∧ step s (EvTimer 0) = Some (inl (OrphanedJob 0)).
Proof.
  destruct (observe_Some _ _ _ script_cb3_throws_obs) as (s & Hrun & Hr & Hobs).
  injection Hobs as Hl Hst Hres _ Htid Hstep.
  by exists s.
Qed.

(** ** C1 *)

Definition activeJobs (s : Scheduler) : list ref :=
  _runningJobs s ++ concat (queue <$> _channels s).

(** The claim: among running and queued jobs, one job per task name. *)
Definition uniqueActive (s : Scheduler) : Prop :=
  ∀ j1 j2, j1 ∈ activeJobs s → j2 ∈ activeJobs s →
    nameOf s j1 = nameOf s j2 → j1 = j2.

Definition script_queued_then_unchanneled : list Event :=
  [EvRunTask "A" 0 100 (inChannel "x");
   EvRunTask "B" 1 100 (inChannel "x");
   EvRunTask "B" 2 100 noOptions].

Lemma script_queued_then_unchanneled_obs :
  observe script_queued_then_unchanneled
    (fun s => (activeJobs s, nameOf s 1, nameOf s 2))
  = Some ([0; 2; 1], "B"%string, "B"%string).
Proof. vm_compute. reflexivity. Qed.

(** C1, counterexample.  Three [runTask] calls: "A" and "B" into channel "x"
    (B waits behind A), then "B" with no channel.  The third call starts a
    second job named "B" while the first is still queued. *)
Lemma active_name_not_unique :
  ∃ s, run script_queued_then_unchanneled init = Some s
       ∧ reachable s ∧ ¬ uniqueActive s.
Proof.
  destruct (observe_Some _ _ _ script_queued_then_unchanneled_obs)
    as (s & Hrun & Hr & Hobs).
  exists s. split; [done|]. split; [done|].
  injection Hobs as Hact Hn1 Hn2.
  intros Huniq. specialize (Huniq 1 2). rewrite Hact, Hn1, Hn2 in Huniq.
  assert (1 = 2) as Hbad; [|done].
  apply Huniq; rewrite ?elem_of_cons; auto.
Qed.

(** C1, as amended.  In every reachable state no two jobs of the running list
    share a task name, and no two jobs queued in one channel share a task
    name. *)
Theorem names_unique_where_checked s :
  reachable s →
  (∀ j1 j2, j1 ∈ _runningJobs s → j2 ∈ _runningJobs s →
     nameOf s j1 = nameOf s j2 → j1 = j2)
  ∧ (∀ ch j1 j2, ch ∈ _channels s → j1 ∈ queue ch → j2 ∈ queue ch →
       nameOf s j1 = nameOf s j2 → j1 = j2).
Proof.
  intros Hr. destruct (reachable_good s Hr) as [Hinv _]. split.
  - intros j1 j2. apply NoDup_fmap_elem. apply (inv_run_names _ _ Hinv).
  - intros ch j1 j2 Hch. apply NoDup_fmap_elem.
    by apply (inv_queue_names _ _ Hinv).
Qed.

Definition script_four_requests : list Event :=
  [EvRunTask "A" 0 100 (inChannel "x");
   EvRunTask "B" 1 100 (inChannel "x");
   EvRunTask "C" 2 100 (inChannel "x");
   EvRunTask "B" 3 100 noOptions].

Lemma script_four_requests_obs :
  observe script_four_requests
    (fun s => (_runningJobs s, _channels s,
               nameOf s <$> [0; 1; 2; 3]))
  = Some ([0; 3], [mkChannel "x" (Some 0) [1; 2]],
          ["A"; "B"; "C"; "B"]%string).
Proof. vm_compute. reflexivity. Qed.

Lemma names_unique_where_checked_witness :
  ∃ s, run script_four_requests init = Some s
       ∧ _runningJobs s = [0; 3]
       ∧ _channels s = [mkChannel "x" (Some 0) [1; 2]]
       ∧ (∀ j1 j2, j1 ∈ _runningJobs s → j2 ∈ _runningJobs s →
            nameOf s j1 = nameOf s j2 → j1 = j2)
       ∧ (∀ ch j1 j2, ch ∈ _channels s → j1 ∈ queue ch → j2 ∈ queue ch →
            nameOf s j1 = nameOf s j2 → j1 = j2).
Proof.
  destruct (observe_Some _ _ _ script_four_requests_obs)
    as (s & Hrun & Hr & Hobs).
  injection Hobs as Hl Hch _.
  exists s. split; [exact Hrun|]. split; [exact Hl|]. split; [exact Hch|].
  apply (names_unique_where_checked s Hr).
Defined.

(** ** C8 *)

(** The claim: one job with status running per task name. *)
Definition oneRunningStatusPerName (s : Scheduler) : Prop :=
  ∀ j1 j2, status (jobOf s j1) = StRunning → status (jobOf s j2) = StRunning →
    nameOf s j1 = nameOf s j2 → j1 = j2.

Definition script_timeout_then_rerun : list Event :=
  [EvRunTask "T" 0 100 noOptions;
   EvStartJobResolved 0 7 1000 [] Returns;
   EvTimer 0;
   EvRunTask "T" 1 100 noOptions;
   EvStartJobResolved 1 8 1200 [] Returns].

Lemma script_timeout_then_rerun_obs :
  observe script_timeout_then_rerun
    (fun s => (status (jobOf s 0), status (jobOf s 1), nameOf s 0, nameOf s 1,
               timedOut (jobOf s 0), getRunningJobs s))
  = Some (StRunning, StRunning, "T"%string, "T"%string, true, [1]).
Proof. vm_compute. reflexivity. Qed.

(** C8, counterexample.  Job 0 ("T") starts and times out while its executor
    is still pending, so its status stays running; a second [runTask "T"]
    starts job 1, which reaches status running as well. *)
Lemma two_jobs_with_status_running :
  ∃ s, run script_timeout_then_rerun init = Some s
       ∧ reachable s ∧ ¬ oneRunningStatusPerName s.
Proof.
  destruct (observe_Some _ _ _ script_timeout_then_rerun_obs)
    as (s & Hrun & Hr & Hobs).
  exists s. split; [done|]. split; [done|].
  injection Hobs as Hs0 Hs1 Hn0 Hn1 _ _.
  intros Hone. specialize (Hone 0 1 Hs0 Hs1). rewrite Hn0, Hn1 in Hone.
  assert (0 = 1) as Hbad; [by apply Hone|done].
Qed.

(** C8, as amended.  In every reachable state, two jobs of one task name that
    both have status running and have not timed out are the same job. *)
Theorem one_live_running_job_per_name s j1 j2 :
  reachable s →
  status (jobOf s j1) = StRunning → timedOut (jobOf s j1) = false →
  status (jobOf s j2) = StRunning → timedOut (jobOf s j2) = false →
  nameOf s j1 = nameOf s j2 → j1 = j2.
Proof.
  intros Hr Hs1 Ht1 Hs2 Ht2. destruct (reachable_good s Hr) as [Hinv _].
  apply (NoDup_fmap_elem (nameOf s) (_runningJobs s));
    [apply (inv_run_names _ _ Hinv)|..]; by apply running_status.
Qed.

Definition script_one_running : list Event :=
  [EvRunTask "T" 0 100 noOptions; EvStartJobResolved 0 7 1000 [] Returns].

Lemma script_one_running_obs :
  observe script_one_running
    (fun s => (status (jobOf s 0), timedOut (jobOf s 0), getRunningJobs s))
  = Some (StRunning, false, [0]).
Proof. vm_compute. reflexivity. Qed.

Lemma one_live_running_job_per_name_witness :
  ∃ s, run script_one_running init = Some s
       ∧ status (jobOf s 0) = StRunning ∧ timedOut (jobOf s 0) = false
       ∧ 0 = 0.
Proof.
  destruct (observe_Some _ _ _ script_one_running_obs) as (s & Hrun & Hr & Hobs).
  injection Hobs as Hst Hto _.
  exists s. split; [done|]. split; [done|]. split; [done|].
  by apply (one_live_running_job_per_name s 0 0 Hr).
Defined.

(** ** C2 *)



(** ** The timer of a job *)

(** A timer event that raises nothing is the timeout of a job of the running
    list. *)
Lemma timer_step s j s' :
  Good s → step s (EvTimer j) = Some (inr s') →
  timeoutId (jobOf s j) = Some TimerArmed ∧ j ∈ _runningJobs s
  ∧ ∃ i s1, indexOf j (_runningJobs s) = Some i
      ∧ _unregisterJob j (fired j s) = inr s1
      ∧ Inv (Some j) s1 ∧ Quiet s1 ∧ Grows (detached i j (fired j s)) s1
      ∧ s' = upd_job j (set_timedOut true) s1.
Proof.
  intros Hgood Hstep. pose proof Hgood as [Hinv _]. simpl in Hstep.
  destruct (timeoutId (jobOf s j)) as [[]|] eqn:Harmed; try done.
  split; [done|].
  destruct (decide (j ∈ _runningJobs s)) as [Hj|Hout].
  - split; [done|].
    destruct (timeoutJob_spec s j Hgood Harmed Hj)
      as (i & s1 & Hi & Hun & Hinv1 & Hq1 & Hg & Hrun & _).
    fold (fired j s) in Hstep. rewrite Hrun in Hstep. injection Hstep as <-.
    by exists i, s1.
  - pose proof (stale_timer_orphaned s j Harmed Hout) as Hbad.
    simpl in Hbad. rewrite Harmed in Hbad. congruence.
Qed.

(** ** Executor invocations *)

Definition invocation (e : Effect) : option (ref * TaskExecutor) :=
  match e with
  | Invoke j ex => Some (j, ex)
  | _ => None
  end.

(** The executor calls made so far, oldest first. *)
Definition invocations (s : Scheduler) : list (ref * TaskExecutor) :=
  omap invocation (trace s).

Lemma invocations_emit es s :
  invocations (emit es s) = invocations s ++ omap invocation es.
Proof. unfold invocations; simpl. apply omap_app. Qed.

Lemma invocations_elem s j ex : (j, ex) ∈ invocations s ↔ Invoke j ex ∈ trace s.
Proof.
  unfold invocations. rewrite list_elem_of_omap. split.
  - intros (e & He & Hi). destruct e; simpl in Hi; try done. by injection Hi as -> ->.
  - intros Hin. by exists (Invoke j ex).
Qed.

Lemma executeJob_calls j s s' :
  _executeJob j s = inr s' → invocations s' = invocations s.
Proof.
  intros ->%executeJob_inr. unfold started. rewrite invocations_emit. simpl.
  apply app_nil_r.
Qed.

Lemma tryRunNext_calls cn s s' :
  _tryRunNextJobInChannel cn s = inr s' → invocations s' = invocations s.
Proof.
  unfold _tryRunNextJobInChannel.
  destruct (runningJob (channelOf s cn)); [by intros [= <-]|].
  destruct (firstRunnable s (queue (channelOf s cn)) 0) as [[i k]|].
  - by intros ->%executeJob_calls.
  - destruct (queue (channelOf s cn)); intros [= <-]; [done|].
    rewrite invocations_emit. apply app_nil_r.
Qed.

Lemma unstallLoop_calls cns s s' :
  unstallLoop cns s = inr s' → invocations s' = invocations s.
Proof.
  revert s; induction cns as [|cn cns IH]; intros s; simpl; [by intros [= <-]|].
  destruct (_tryRunNextJobInChannel cn s) as [f|s1] eqn:Hrun; [done|]. simpl.
  intros ->%IH. by eapply tryRunNext_calls.
Qed.

Lemma removeJobFromChannel_calls cn j s s' :
  _removeJobFromChannel cn j s = inr s' → invocations s' = invocations s.
Proof.
  unfold _removeJobFromChannel. destruct cn as [c|]; [|by intros [= <-]].
  assert (invocations (_getChannel c s) = invocations s) as Hg.
  { unfold _getChannel. by destruct (channels_get c (_channels s)). }
  case_bool_decide; [by intros [= <-]|].
  destruct (indexOf _ _); [|done]. by intros [= <-].
Qed.

Lemma unregisterJob_calls j s s' :
  _unregisterJob j s = inr s' → invocations s' = invocations s.
Proof.
  unfold _unregisterJob. destruct (indexOf j (_runningJobs s)); [|done].
  destruct (_removeJobFromChannel _ _ _) as [f|s1] eqn:Hrem; [done|]. simpl.
  intros ->%unstallLoop_calls. by apply removeJobFromChannel_calls in Hrem.
Qed.

Lemma onCleanup_calls j r s s' :
  onCleanup j r s = inr s' → invocations s' = invocations s.
Proof.
  unfold onCleanup. destruct (timedOut (jobOf s j)); simpl.
  - by intros [= <-].
  - destruct (_unregisterJob j s) as [f|s1] eqn:Hun; [done|]. simpl.
    destruct (_tryToUnstallChannels s1) as [f|s2] eqn:Hpass; [done|]. simpl.
    intros [= <-]. apply unstallLoop_calls in Hpass.
    apply unregisterJob_calls in Hun.
    change (invocations s2 = invocations s). congruence.
Qed.

Lemma timeoutJob_calls j s s' :
  _timeoutJob j s = inr s' → invocations s' = invocations s.
Proof.
  unfold _timeoutJob. destruct (_unregisterJob j s) as [f|s1] eqn:Hun; [done|].
  simpl. intros [= <-]. by apply unregisterJob_calls in Hun.
Qed.

Lemma runTask_calls tn ex ms o s j s' :
  runTask tn ex ms o s = inr (j, s') → invocations s' = invocations s.
Proof.
  assert (∀ c s0, invocations (_getChannel c s0) = invocations s0) as Hg.
  { intros c s0. unfold _getChannel. by destruct (channels_get c (_channels s0)). }
  unfold runTask. destruct (_findRunningJob tn s); [by intros [= _ <-]|].
  unfold _findQueuedTaskInChannel.
  destruct (optChannel o) as [c|] eqn:Ho.
  - destruct (findWhere _ _ _); [intros [= _ <-]; apply Hg|].
    rewrite createAndRunJob_unfold, Ho. unfold _queueJobToChannel.
    destruct (_tryRunNextJobInChannel _ _) as [f|s1] eqn:Hrun; [done|]. simpl.
    apply tryRunNext_calls in Hrun.
    assert (invocations s1 = invocations s) as Hs1.
    { rewrite Hrun.
      change (invocations (_getChannel c (allocated tn ex ms o (_getChannel c s)))
              = invocations s).
      rewrite Hg. change (invocations (_getChannel c s) = invocations s).
      apply Hg. }
    intros [= _ <-]. case_bool_decide; [done|].
    by rewrite invocations_emit, app_nil_r.
  - rewrite createAndRunJob_unfold, Ho.
    destruct (_executeJob _ _) as [f|s1] eqn:Hrun; [done|]. simpl.
    intros [= _ <-]. by apply executeJob_calls in Hrun.
Qed.

Lemma onConcluded_calls j e s : invocations (onConcluded j e s) = invocations s.
Proof.
  unfold onConcluded, onClassified, onFinishLogFailed. cbv zeta.
  repeat (case_match; simplify_eq);
    unfold invocations; simpl; rewrite ?omap_app; simpl;
    by rewrite ?app_nil_r.
Qed.

Lemma onStarted_calls j jobId now rs o s :
  invocations (onStarted j jobId now rs o s)
  = invocations s ++ [(j, executor (jobOf s j))].
Proof.
  unfold onStarted. cbv zeta.
  repeat (case_match; simplify_eq); norm_sched;
    unfold invocations; simpl; rewrite ?omap_app; simpl;
    by rewrite ?app_nil_r.
Qed.

(** What every event leaves alone in a job whose executor was called. *)
Definition Settles (s s' : Scheduler) : Prop :=
  ∀ j, chainOf s j ≠ NotStarted → chainOf s j ≠ AwaitStart →
    executor (jobOf s' j) = executor (jobOf s j)
    ∧ (logId (jobOf s j) ≠ None → logId (jobOf s' j) ≠ None)
    ∧ chainOf s' j ≠ NotStarted ∧ chainOf s' j ≠ AwaitStart.

(** Each job's executor was invoked at most once, with the executor stored in
    the job, and only after [startJob] resolved. *)
Definition Invoked (s : Scheduler) : Prop :=
  NoDup (fst <$> invocations s)
  ∧ ∀ j ex, (j, ex) ∈ invocations s →
      ex = executor (jobOf s j) ∧ logId (jobOf s j) ≠ None
      ∧ chainOf s j ≠ NotStarted ∧ chainOf s j ≠ AwaitStart.

Lemma Invoked_keep s s' :
  Invoked s → invocations s' = invocations s → Settles s s' → Invoked s'.
Proof.
  intros [Hnd Hall] Heq Hset. split; [by rewrite Heq|].
  intros j ex Hin. rewrite Heq in Hin.
  destruct (Hall j ex Hin) as (-> & Hl & Hc1 & Hc2).
  destruct (Hset j Hc1 Hc2) as (-> & Hl' & ? & ?). auto.
Qed.

Lemma Settles_same s s' :
  (∀ j, chainOf s j ≠ NotStarted → jobOf s' j = jobOf s j) →
  (∀ j, chainOf s j ≠ NotStarted → chainOf s' j = chainOf s j) →
  Settles s s'.
Proof. intros Hj Hc j Hn Ha. rewrite Hj, Hc by done. auto. Qed.

Lemma Settles_local s s' j :
  (∀ k, k ≠ j → jobOf s' k = jobOf s k ∧ chainOf s' k = chainOf s k) →
  executor (jobOf s' j) = executor (jobOf s j) →
  (logId (jobOf s j) ≠ None → logId (jobOf s' j) ≠ None) →
  chainOf s' j ≠ NotStarted → chainOf s' j ≠ AwaitStart →
  Settles s s'.
Proof.
  intros Hoth He Hl Hc1 Hc2 k Hk1 Hk2.
  destruct (decide (k = j)) as [->|Hne]; [auto|].
  destruct (Hoth k Hne) as [-> ->]. auto.
Qed.

Lemma onConcluded_settles j e s : Settles s (onConcluded j e s).
Proof.
  unfold onConcluded, onClassified, onFinishLogFailed. cbv zeta.
  repeat (case_match; simplify_eq).
  all: apply (Settles_local _ _ j).
  all: try (intros k Hk; autorewrite with sched; rewrite !decide_False by done; done).
  all: norm_sched; try done.
  all: destruct (jobOf s j); simpl in *; done.
Qed.

Lemma step_invoked s ev s' :
  Good s → Invoked s → step s ev = Some (inr s') → Invoked s'.
Proof.
  intros Hgood Hinvk Hstep. pose proof Hgood as [Hinv Hquiet].
  destruct ev as [tn ex ms o|j jobId now rs o|j e|j rp|j|j e|j|j ok|j|j];
    simpl in Hstep.
  - destruct (runTask tn ex ms o s) as [f|[j s1]] eqn:Hrun; [done|].
    simpl in Hstep. injection Hstep as <-.
    destruct (runTask_spec tn ex ms o s Hinv Hquiet)
      as (j0 & s0 & Hrun0 & _ & _ & _ & _ & [Hfj Hfc]).
    rewrite Hrun in Hrun0. injection Hrun0 as <- <-.
    apply (Invoked_keep s); [done|by eapply runTask_calls|].
    apply Settles_same; [|done]. intros k Hk. apply Hfj.
    destruct (decide (k < _nextExecutionId s)) as [|Hge]; [done|].
    exfalso. apply Hk. apply (inv_fresh _ _ Hinv). lia.
  - destruct (chainOf s j) eqn:Hc; try done. injection Hstep as <-.
    destruct Hinvk as [Hnd Hall]. split.
    + rewrite onStarted_calls, fmap_app. apply NoDup_app. split; [done|].
      split; [|apply NoDup_singleton].
      intros k (p & Hk & Hp)%list_elem_of_fmap Hkj%list_elem_of_singleton.
      destruct p as [k' ex]. simpl in Hk. subst.
      destruct (Hall j ex Hp) as (_ & _ & _ & Hne). congruence.
    + pose proof (report_fold_fields rs
                    (set_startTime now (set_logId jobId (jobOf s j)))) as Hf.
      cbv zeta in Hf. destruct Hf as (_ & _ & _ & _ & _ & Hf6 & _ & Hf8 & _).
      assert (∀ k, k ≠ j →
        jobOf (onStarted j jobId now rs o s) k = jobOf s k
        ∧ chainOf (onStarted j jobId now rs o s) k = chainOf s k) as Hoth.
      { intros k Hk. unfold onStarted. cbv zeta.
        repeat (case_match; simplify_eq); autorewrite with sched;
          rewrite !decide_False by done; done. }
      assert (executor (jobOf (onStarted j jobId now rs o s) j)
                = executor (jobOf s j)
              ∧ logId (jobOf (onStarted j jobId now rs o s) j) ≠ None
              ∧ chainOf (onStarted j jobId now rs o s) j ≠ NotStarted
              ∧ chainOf (onStarted j jobId now rs o s) j ≠ AwaitStart)
        as (He & Hl & Hc1 & Hc2).
      { unfold onStarted. cbv zeta.
        repeat (case_match; simplify_eq); norm_sched; simpl;
          rewrite ?Hf6, ?Hf8; done. }
      intros k ex. rewrite onStarted_calls.
      intros [Hin|Hin%list_elem_of_singleton]%elem_of_app.
      * destruct (Hall k ex Hin) as (-> & Hl' & Hn1 & Hn2).
        assert (k ≠ j) as Hk by congruence.
        destruct (Hoth k Hk) as [-> ->]. auto.
      * injection Hin as -> ->. auto.
  - destruct (chainOf s j) eqn:Hc; try done. injection Hstep as <-.
    apply (Invoked_keep s); [done|done|].
    apply (Settles_local _ _ j); norm_sched; try done.
    intros k Hk. autorewrite with sched. by rewrite decide_False.
  - destruct (chainOf s j) eqn:Hc; try done. injection Hstep as <-.
    apply (Invoked_keep s); [done|done|].
    apply (Settles_local _ _ j); norm_sched; try done; try (by rewrite Hc).
    + intros k Hk. autorewrite with sched. by rewrite decide_False.
    + by destruct rp.
    + by destruct rp.
  - destruct (chainOf s j) eqn:Hc; try done. injection Hstep as <-.
    apply (Invoked_keep s); [done|done|].
    apply (Settles_local _ _ j); norm_sched; try done.
    intros k Hk. autorewrite with sched. by rewrite decide_False.
  - destruct (chainOf s j) eqn:Hc; try done. injection Hstep as <-.
    apply (Invoked_keep s); [done|done|].
    apply (Settles_local _ _ j); norm_sched; try done.
    intros k Hk. autorewrite with sched. by rewrite decide_False.
  - destruct (chainOf s j) eqn:Hc; try done. injection Hstep as <-.
    apply (Invoked_keep s); [done|apply onConcluded_calls|apply onConcluded_settles].
  - destruct (chainOf s j) eqn:Hc; try done. injection Hstep as <-.
    apply (Invoked_keep s); [done| |].
    + destruct ok; [done|]. unfold onFinishLogFailed.
      change (invocations (emit [Log LvlError MsgDbFailure] s) = invocations s).
      rewrite invocations_emit. apply app_nil_r.
    + apply (Settles_local _ _ j); norm_sched; try done.
      * intros k Hk. autorewrite with sched. rewrite decide_False by done.
        by destruct ok.
      * by destruct ok.
      * by destruct ok.
  - destruct (chainOf s j) eqn:Hc; try done. injection Hstep as Hstep.
    apply (Invoked_keep s); [done|by eapply onCleanup_calls|].
    destruct (onCleanup_spec s j jobResult Hgood Hc)
      as [(_ & Hrun & _)|(_ & i & s1 & s2 & _ & _ & Hg1 & _ & Hg2 & _ & _ & Hrun & _)];
      rewrite Hrun in Hstep; injection Hstep as <-.
    + apply (Settles_local _ _ j); unfold finishedAs; norm_sched; try done.
      intros k Hk. autorewrite with sched. by rewrite !decide_False.
    + assert (∀ k, jobOf s2 k = jobOf s k) as Hjob.
      { intros k. by rewrite (grows_job _ _ Hg2), (grows_job _ _ Hg1), detached_job. }
      assert (∀ k, chainOf s k ≠ NotStarted → chainOf s2 k = chainOf s k) as Hch.
      { intros k Hk. rewrite (grows_chain _ _ Hg2); rewrite (grows_chain _ _ Hg1);
          rewrite ?detached_chain; done. }
      intros k Hk1 Hk2. unfold finishedAs. autorewrite with sched.
      case_decide as Hkj; [subst; simpl; rewrite Hjob; auto|].
      rewrite Hjob, Hch by done. auto.
  - destruct (timer_step s j s' Hgood Hstep)
      as (Harmed & Hj & i & s1 & _ & _ & _ & _ & Hg & ->).
    simpl in Hstep. rewrite Harmed in Hstep. injection Hstep as Hstep.
    pose proof (timeoutJob_calls _ _ _ Hstep) as Hcalls.
    change (invocations (upd_job j (set_timedOut true) s1) = invocations s)
      in Hcalls.
    apply (Invoked_keep s); [done|exact Hcalls|].
    assert (∀ k, jobOf s1 k = jobOf (fired j s) k) as Hjob.
    { intros k. by rewrite (grows_job _ _ Hg), detached_job. }
    assert (∀ k, chainOf s k ≠ NotStarted → chainOf s1 k = chainOf s k) as Hch.
    { intros k Hk. rewrite (grows_chain _ _ Hg); rewrite detached_chain; done. }
    intros k Hk1 Hk2. rewrite chainOf_upd_job, Hch by done.
    rewrite jobOf_upd_job. unfold fired in Hjob.
    case_decide as Hkj; [subst; simpl; rewrite Hjob, jobOf_upd_job_eq; auto|].
    rewrite Hjob, jobOf_upd_job_ne by done. auto.
Qed.

Lemma reachable_invoked s : reachable s → Invoked s.
Proof.
  induction 1 as [|s ev s' Hr IH Hstep].
  - split; [apply NoDup_nil_2|]. by intros j ex ?%elem_of_nil.
  - eapply step_invoked; [by apply reachable_good|done|done].
Qed.

(** ** What cb3 does to its job *)

(** The job after the first statement of cb3; [None] when that statement
    throws. *)
Definition recorded (e : JsValue) (o : JobImpl) : option JobImpl :=
  if truthy e then (fun text => error text o) <$> errorText e else Some o.

Definition classifiedJob (o : JobImpl) : JobImpl :=
  if timedOut o then o
  else match timeoutId o with
       | Some TimerArmed => set_timeoutId TimerCleared o
       | _ => o
       end.

Definition classifiedChain (o : JobImpl) : Chain :=
  if negb (timedOut o) && bool_decide (timeoutId o = None)
  then AwaitCleanup (Some (classify o))
  else match logId o with
       | None => AwaitCleanup (Some (classify o))
       | Some _ => AwaitFinishLog (classify o)
       end.

Definition concludedJob (e : JsValue) (o : JobImpl) : JobImpl :=
  match recorded e o with
  | Some o1 => classifiedJob o1
  | None => o
  end.

Definition concludedChain (e : JsValue) (o : JobImpl) : Chain :=
  match recorded e o with
  | Some o1 => classifiedChain o1
  | None => AwaitCleanup None
  end.

Lemma onClassified_job j s :
  jobOf (onClassified j s) j = classifiedJob (jobOf s j).
Proof.
  unfold onClassified, onFinishLogFailed, classifiedJob. cbv zeta.
  repeat (case_match; simplify_eq); norm_sched;
    destruct (jobOf s j); simpl in *; congruence.
Qed.

Lemma onClassified_chain j s :
  chainOf (onClassified j s) j = classifiedChain (jobOf s j).
Proof.
  unfold onClassified, onFinishLogFailed, classifiedChain. cbv zeta.
  repeat (case_match; simplify_eq); norm_sched;
    destruct (jobOf s j); simpl in *; subst; simpl in *;
    repeat case_bool_decide; try done; congruence.
Qed.

Lemma onClassified_other j s k :
  k ≠ j → jobOf (onClassified j s) k = jobOf s k
          ∧ chainOf (onClassified j s) k = chainOf s k.
Proof.
  intros Hk. unfold onClassified, onFinishLogFailed. cbv zeta.
  repeat (case_match; simplify_eq); autorewrite with sched;
    rewrite !decide_False by done; done.
Qed.

Lemma onConcluded_job j e s :
  jobOf (onConcluded j e s) j = concludedJob e (jobOf s j).
Proof.
  unfold onConcluded, concludedJob, recorded, onFinishLogFailed. cbv zeta.
  destruct (truthy e); [destruct (errorText e) as [text|]; simpl|].
  - rewrite onClassified_job. by norm_sched.
  - by norm_sched.
  - apply onClassified_job.
Qed.

Lemma onConcluded_chain j e s :
  chainOf (onConcluded j e s) j = concludedChain e (jobOf s j).
Proof.
  unfold onConcluded, concludedChain, recorded, onFinishLogFailed. cbv zeta.
  destruct (truthy e); [destruct (errorText e) as [text|]; simpl|].
  - rewrite onClassified_chain. by norm_sched.
  - by norm_sched.
  - apply onClassified_chain.
Qed.

Lemma onConcluded_other j e s k :
  k ≠ j → jobOf (onConcluded j e s) k = jobOf s k
          ∧ chainOf (onConcluded j e s) k = chainOf s k.
Proof.
  intros Hk. unfold onConcluded, onFinishLogFailed. cbv zeta.
  destruct (truthy e); [destruct (errorText e) as [text|]|].
  - destruct (onClassified_other j
                (upd_job j (error text)
                   (emit [Log LvlError (MsgExecutorError j);
                          Log LvlError (MsgValue e)] s)) k Hk) as [-> ->].
    autorewrite with sched. by rewrite decide_False.
  - autorewrite with sched. by rewrite !decide_False.
  - by apply onClassified_other.
Qed.



(** ** A log id means the executor was called *)

(** cb1 stores the log id and calls the executor in one go: a job has a log
    id only if its executor has been invoked. *)
Definition Logged (s : Scheduler) : Prop :=
  ∀ j, logId (jobOf s j) ≠ None → (j, executor (jobOf s j)) ∈ invocations s.

Lemma Logged_local s s' j :
  Logged s → invocations s' = invocations s →
  (∀ k, k ≠ j → jobOf s' k = jobOf s k) →
  logId (jobOf s' j) = logId (jobOf s j) →
  executor (jobOf s' j) = executor (jobOf s j) →
  Logged s'.
Proof.
  intros Hl Hcalls Hoth Hid Hex k. rewrite Hcalls.
  destruct (decide (k = j)) as [->|Hk].
  - rewrite Hid, Hex. apply Hl.
  - rewrite (Hoth k Hk). apply Hl.
Qed.

Lemma Logged_same s s' :
  Logged s → invocations s' = invocations s →
  (∀ k, jobOf s' k = jobOf s k) → Logged s'.
Proof.
  intros Hl Hcalls Hjob. apply (Logged_local s s' 0); [done|done| | |];
    intros; by rewrite Hjob.
Qed.

Lemma tryRunNext_job cn s s' k :
  _tryRunNextJobInChannel cn s = inr s' → jobOf s' k = jobOf s k.
Proof.
  intros Hrun.
  destruct (tryRunNext_cases _ _ _ Hrun)
    as [[[->|[es ->]] _]|(pre & j & post & _ & _ & _ & _ & ->)]; done.
Qed.

Lemma runTask_job tn ex ms o s j s' k :
  runTask tn ex ms o s = inr (j, s') →
  jobOf s' k = jobOf s k
  ∨ jobOf s' k = newJobImpl k tn ex ms (optChannel o) (default false (optSilent o)).
Proof.
  unfold runTask. destruct (_findRunningJob tn s); [intros [= _ <-]; by left|].
  unfold _findQueuedTaskInChannel.
  assert (∀ a : Scheduler, a = allocated tn ex ms o s ∨
            (∃ c, a = allocated tn ex ms o (_getChannel c s)) →
            jobOf a k = jobOf s k
            ∨ jobOf a k = newJobImpl k tn ex ms (optChannel o)
                            (default false (optSilent o))) as Halloc.
  { intros a Ha.
    assert (∃ s0, a = allocated tn ex ms o s0
                  ∧ (∀ i, jobOf s0 i = jobOf s i)
                  ∧ _nextExecutionId s0 = _nextExecutionId s)
      as (s0 & -> & Hj0 & Hn0).
    { destruct Ha as [->|[c ->]]; [by exists s|].
      exists (_getChannel c s). split; [done|].
      split; [intros; apply getChannel_job|apply getChannel_next]. }
    destruct (decide (k = _nextExecutionId s0)) as [->|Hk].
    - right. by rewrite allocated_job_eq.
    - left. rewrite allocated_job_ne by done. apply Hj0. }
  destruct (optChannel o) as [c|] eqn:Hopt.
  - destruct (findWhere _ _ _); [intros [= _ <-]; left; apply getChannel_job|].
    rewrite createAndRunJob_unfold, Hopt. unfold _queueJobToChannel.
    destruct (_tryRunNextJobInChannel _ _) as [f|s1] eqn:Hrun; [done|]. simpl.
    intros [= _ <-].
    assert (jobOf s1 k = jobOf (allocated tn ex ms o (_getChannel c s)) k) as Hs1.
    { rewrite (tryRunNext_job _ _ _ k Hrun).
      change (jobOf (_getChannel c (allocated tn ex ms o (_getChannel c s))) k
              = jobOf (allocated tn ex ms o (_getChannel c s)) k).
      apply getChannel_job. }
    assert (jobOf (if bool_decide (runningJob (channelOf s1 c)
                                   = Some (_nextExecutionId (_getChannel c s)))
                   then s1
                   else emit [Log LvlInfo
                     (MsgQueued (taskName (jobOf s1 (_nextExecutionId (_getChannel c s)))) c)]
                     s1) k = jobOf s1 k) as -> by (by case_bool_decide).
    rewrite Hs1. apply Halloc. right. by exists c.
  - rewrite createAndRunJob_unfold, Hopt.
    destruct (_executeJob _ _) as [f|s1] eqn:Hrun; [done|]. simpl.
    intros [= _ <-]. apply executeJob_inr in Hrun as ->.
    rewrite jobOf_started. apply Halloc. by left.
Qed.

Lemma onStarted_other j jobId now rs o s k :
  k ≠ j → jobOf (onStarted j jobId now rs o s) k = jobOf s k
          ∧ chainOf (onStarted j jobId now rs o s) k = chainOf s k.
Proof.
  intros Hk. unfold onStarted. cbv zeta.
  repeat (case_match; simplify_eq); autorewrite with sched;
    rewrite !decide_False by done; done.
Qed.

Lemma concludedJob_fields e o :
  executionId (concludedJob e o) = executionId o
  ∧ taskName (concludedJob e o) = taskName o
  ∧ executor (concludedJob e o) = executor o
  ∧ logId (concludedJob e o) = logId o
  ∧ status (concludedJob e o) = status o
  ∧ result (concludedJob e o) = result o
  ∧ timedOut (concludedJob e o) = timedOut o
  ∧ warnings (concludedJob e o) = warnings o.
Proof.
  unfold concludedJob, classifiedJob, recorded.
  destruct (truthy e); [destruct (errorText e)|]; simpl;
    destruct o as [? ? ? ? ? ? ? ? [[]|] [] ? ? ? ?]; done.
Qed.

Lemma step_logged s ev s' :
  Good s → Logged s → step s ev = Some (inr s') → Logged s'.
Proof.
  intros Hgood Hl Hstep. pose proof Hgood as [Hinv Hquiet].
  destruct ev as [tn ex ms o|j jobId now rs o|j e|j rp|j|j e|j|j ok|j|j].
  - simpl in Hstep.
    destruct (runTask tn ex ms o s) as [f|[j s1]] eqn:Hrun; [done|].
    simpl in Hstep. injection Hstep as <-.
    intros k Hk. rewrite (runTask_calls _ _ _ _ _ _ _ Hrun).
    destruct (runTask_job _ _ _ _ _ _ _ k Hrun) as [Hsame|Hnew].
    + rewrite Hsame in Hk |- *. by apply Hl.
    + by rewrite Hnew in Hk.
  - simpl in Hstep. destruct (chainOf s j) eqn:Hc; try done.
    injection Hstep as <-.
    pose proof (report_fold_fields rs
                  (set_startTime now (set_logId jobId (jobOf s j)))) as Hf.
    cbv zeta in Hf. destruct Hf as (_ & _ & _ & _ & _ & _ & _ & Hf8 & _).
    assert (executor (jobOf (onStarted j jobId now rs o s) j)
            = executor (jobOf s j)) as Hex.
    { unfold onStarted. cbv zeta.
      repeat (case_match; simplify_eq); norm_sched; simpl; by rewrite ?Hf8. }
    intros k Hk. rewrite onStarted_calls. apply elem_of_app.
    destruct (decide (k = j)) as [->|Hne].
    + right. rewrite Hex. apply list_elem_of_here.
    + left. destruct (onStarted_other j jobId now rs o s k Hne) as [Hjob _].
      rewrite Hjob in Hk |- *. by apply Hl.
  - simpl in Hstep. destruct (chainOf s j); try done. injection Hstep as <-.
    by apply (Logged_same s).
  - simpl in Hstep. destruct (chainOf s j); try done. injection Hstep as <-.
    apply (Logged_local s _ j); try done.
    + intros k Hk. by rewrite jobOf_upd_job_ne.
    + rewrite jobOf_upd_job_eq. by destruct rp.
    + rewrite jobOf_upd_job_eq. by destruct rp.
  - simpl in Hstep. destruct (chainOf s j); try done. injection Hstep as <-.
    by apply (Logged_same s).
  - simpl in Hstep. destruct (chainOf s j); try done. injection Hstep as <-.
    by apply (Logged_same s).
  - simpl in Hstep. destruct (chainOf s j); try done. injection Hstep as <-.
    destruct (concludedJob_fields executorError (jobOf s j))
      as (_ & _ & Hex & Hid & _).
    apply (Logged_local s _ j); [done|apply onConcluded_calls| | |].
    + intros k Hk. by destruct (onConcluded_other j executorError s k Hk).
    + by rewrite onConcluded_job.
    + by rewrite onConcluded_job.
  - simpl in Hstep. destruct (chainOf s j); try done. injection Hstep as <-.
    apply (Logged_same s); [done| |by destruct ok].
    destruct ok; [done|]. unfold onFinishLogFailed.
    change (invocations (emit [Log LvlError MsgDbFailure] s) = invocations s).
    rewrite invocations_emit. apply app_nil_r.
  - simpl in Hstep. destruct (chainOf s j) eqn:Hc; try done.
    injection Hstep as Hstep.
    pose proof (onCleanup_calls _ _ _ _ Hstep) as Hcalls.
    destruct (onCleanup_spec s j jobResult Hgood Hc)
      as [(_ & Hrun & _)|(_ & i & s1 & s2 & _ & _ & Hg1 & _ & Hg2 & _ & _ & Hrun & _)];
      rewrite Hrun in Hstep; injection Hstep as <-.
    + apply (Logged_local s _ j); [done|done| | |]; unfold finishedAs.
      * intros k Hk. autorewrite with sched. by rewrite decide_False.
      * by norm_sched.
      * by norm_sched.
    + assert (∀ k, jobOf s2 k = jobOf s k) as Hjob.
      { intros k. by rewrite (grows_job _ _ Hg2), (grows_job _ _ Hg1), detached_job. }
      apply (Logged_local s _ j); [done|done| | |]; unfold finishedAs.
      * intros k Hk. autorewrite with sched. by rewrite decide_False.
      * norm_sched. simpl. by rewrite Hjob.
      * norm_sched. simpl. by rewrite Hjob.
  - destruct (timer_step s j s' Hgood Hstep)
      as (Harmed & Hj & i & s1 & _ & _ & _ & _ & Hg & ->).
    simpl in Hstep. rewrite Harmed in Hstep. injection Hstep as Hstep.
    pose proof (timeoutJob_calls _ _ _ Hstep) as Hcalls.
    change (invocations (upd_job j (set_timedOut true) s1) = invocations s)
      in Hcalls.
    assert (∀ k, jobOf s1 k = jobOf (fired j s) k) as Hjob.
    { intros k. by rewrite (grows_job _ _ Hg), detached_job. }
    apply (Logged_local s _ j); [done|done| | |].
    + intros k Hk. rewrite jobOf_upd_job_ne, Hjob by done.
      unfold fired. by rewrite jobOf_upd_job_ne.
    + rewrite jobOf_upd_job_eq. simpl. rewrite Hjob. unfold fired.
      by rewrite jobOf_upd_job_eq.
    + rewrite jobOf_upd_job_eq. simpl. rewrite Hjob. unfold fired.
      by rewrite jobOf_upd_job_eq.
Qed.

Lemma reachable_logged s : reachable s → Logged s.
Proof.
  induction 1 as [|s ev s' Hr IH Hstep]; [by intros j Hj|].
  eapply step_logged; [by apply reachable_good|done|done].
Qed.

(** ** C9 *)










(** ** C3 *)

Lemma promoted_channel x s ch pre j post :
  Inv x s → ch ∈ _channels s → queue ch = pre ++ j :: post →
  channelOf (promoted (name ch) (length pre) j s) (name ch)
  = mkChannel (name ch) (Some j) (pre ++ post).
Proof.
  intros Hinv Hch Hq. unfold promoted.
  change (channelOf (started j ?s0) ?c) with (channelOf s0 c).
  rewrite channelOf_upd_eq; [|done|].
  - rewrite (channelOf_elem s ch (inv_chan_nodup _ _ Hinv) Hch). simpl.
    by rewrite Hq, delete_middle.
  - by rewrite (channels_get_elem _ _ (inv_chan_nodup _ _ Hinv) Hch).
Qed.

Lemma StronglySorted_lt_split (pre post : list nat) j :
  StronglySorted lt (pre ++ j :: post) →
  Forall (fun k => k < j) pre ∧ Forall (fun k => j < k) post.
Proof.
  induction pre as [|x pre IH]; simpl.
  - intros [_ Hall]%StronglySorted_inv. done.
  - intros [Hs Hall]%StronglySorted_inv. destruct (IH Hs) as [Hpre Hpost].
    split; [|done]. constructor; [|done].
    rewrite Forall_forall in Hall. apply Hall. apply elem_of_app. right. by left.
Qed.

(** The first entry of a queue that is not blocked is determined by the
    queue. *)
Lemma first_unblocked_unique (P : ref → Prop) (pre pre' post post' : list ref) j k :
  pre ++ j :: post = pre' ++ k :: post' →
  Forall P pre → ¬ P j → Forall P pre' → ¬ P k →
  pre' = pre ∧ k = j ∧ post' = post.
Proof.
  revert pre'. induction pre as [|x pre IH]; intros [|y pre'] Hq Hpre Hj Hpre' Hk;
    simpl in *.
  - by injection Hq as -> ->.
  - injection Hq as -> _. apply Forall_cons in Hpre' as [? _]. done.
  - injection Hq as -> _. apply Forall_cons in Hpre as [? _]. done.
  - injection Hq as -> Hq. apply Forall_cons in Hpre as [_ Hpre].
    apply Forall_cons in Hpre' as [_ Hpre'].
    destruct (IH pre' Hq Hpre Hj Hpre' Hk) as (-> & -> & ->). done.
Qed.

(** C3.  [_tryRunNextJobInChannel] runs inside [runTask], after the new job
    was pushed on its channel's queue, and inside the unstall passes, after a
    job was unregistered: in states whose bookkeeping is consistent ([Inv],
    with [x] the job being unregistered, if any), where a channel without
    running job may hold a queued job that can run.  In such a state, for a
    channel [ch] with no running job, the attempt takes the first queue entry
    whose task name is not running: that job leaves the queue, becomes the
    channel's running job and joins the running list with its [startJob]
    requested; the entries skipped before it and the entries after it stay in
    place and in order, and other channels are untouched.  The queue is in
    enqueue order (execution ids increase along it), so every job that was
    enqueued before the promoted one and still waits was blocked at that
    moment.  If every entry is blocked, the attempt changes neither the
    channels nor the running list nor any job. *)
Theorem promotion_fifo_with_skipping x s ch :
  Inv x s → ch ∈ _channels s → runningJob ch = None →
  StronglySorted lt (queue ch)
  ∧ (∀ pre j post,
       queue ch = pre ++ j :: post → Forall (blocked s) pre → ¬ blocked s j →
       ∃ s', _tryRunNextJobInChannel (name ch) s = inr s'
         ∧ channelOf s' (name ch) = mkChannel (name ch) (Some j) (pre ++ post)
         ∧ _runningJobs s' = _runningJobs s ++ [j]
         ∧ chainOf s' j = AwaitStart
         ∧ trace s' = trace s ++ [SinkStartJob (nameOf s j)]
         ∧ (∀ c, c ∈ _channels s → name c ≠ name ch → c ∈ _channels s')
         ∧ Forall (fun k => k < j) pre ∧ Forall (fun k => j < k) post)
  ∧ (Forall (blocked s) (queue ch) →
       ∃ s', _tryRunNextJobInChannel (name ch) s = inr s'
         ∧ _channels s' = _channels s ∧ _runningJobs s' = _runningJobs s
         ∧ heap s' = heap s ∧ chains s' = chains s).
Proof.
  intros Hinv Hch Hnone.
  pose proof (inv_queue_sorted _ _ Hinv ch Hch) as Hsorted.
  pose proof (channelOf_elem s ch (inv_chan_nodup _ _ Hinv) Hch) as Hof.
  split; [done|]. split.
  - intros pre j post Hq Hpre Hj.
    destruct (tryRunNext_spec x s (name ch) Hinv) as (s' & Hrun & _).
    exists s'. split; [done|].
    destruct (tryRunNext_cases _ _ _ Hrun)
      as [[_ [Hbusy|Hall]]|(pre' & k & post' & _ & Hq' & Hpre' & Hk & ->)].
    + rewrite Hof in Hbusy. done.
    + rewrite Hof, Hq in Hall. apply Forall_app in Hall as [_ Hall].
      apply Forall_cons in Hall as [? _]. done.
    + rewrite Hof, Hq in Hq'.
      destruct (first_unblocked_unique (blocked s) _ _ _ _ _ _ Hq' Hpre Hj Hpre' Hk)
        as (-> & -> & ->).
      split; [by eapply promoted_channel|]. split; [done|].
      split; [rewrite chainOf_promoted; by rewrite decide_True|].
      split; [done|].
      split.
      { intros c Hc Hn. apply elem_of_upd_channel. exists c. split; [done|].
        by rewrite decide_False. }
      rewrite Hq in Hsorted. by apply StronglySorted_lt_split.
  - intros Hall.
    destruct (tryRunNext_spec x s (name ch) Hinv) as (s' & Hrun & _).
    exists s'. split; [done|].
    destruct (tryRunNext_cases _ _ _ Hrun)
      as [[Hsame _]|(pre' & k & post' & _ & Hq' & Hpre' & Hk & ->)].
    + destruct Hsame as [->|[es ->]]; done.
    + rewrite Hof in Hq'. rewrite Hq' in Hall.
      apply Forall_app in Hall as [_ Hall].
      apply Forall_cons in Hall as [? _]. done.
Qed.

Definition script_channel_with_waiters : list Event :=
  [EvRunTask "A" 0 100 (inChannel "x");
   EvRunTask "B" 1 100 (inChannel "x");
   EvRunTask "C" 2 100 (inChannel "x");
   EvRunTask "B" 3 100 noOptions;
   EvStartJobResolved 0 7 1000 [] Returns].

(** The state inside [_unregisterJob], before its unstall pass, when the
    timer of job 0 has fired. *)
Definition unregistering (s : Scheduler) : Scheduler := detached 0 0 (fired 0 s).

Lemma script_channel_with_waiters_obs :
  observe script_channel_with_waiters
    (fun s => (timeoutId (jobOf s 0), indexOf 0 (_runningJobs s),
               _channels (unregistering s), runningNames (unregistering s),
               nameOf (unregistering s) 1, nameOf (unregistering s) 2,
               _runningJobs (unregistering s)))
  = Some (Some TimerArmed, Some 0, [mkChannel "x" None [1; 2]],
          ["B"%string], "B"%string, "C"%string, [3]).
Proof. vm_compute. reflexivity. Qed.

Lemma promotion_fifo_with_skipping_witness :
  ∃ s s', run script_channel_with_waiters init = Some s
          ∧ _channels (unregistering s) = [mkChannel "x" None [1; 2]]
          ∧ _tryRunNextJobInChannel "x" (unregistering s) = inr s'
          ∧ channelOf s' "x" = mkChannel "x" (Some 2) [1]
          ∧ _runningJobs s' = [3; 2].
Proof.
  destruct (observe_Some _ _ _ script_channel_with_waiters_obs)
    as (s & Hrun & Hr & Hobs).
  injection Hobs as Harmed Hi Hch Hrn Hn1 Hn2 Hl.
  destruct (reachable_good s Hr) as [Hinv _].
  assert (Inv (Some 0) (unregistering s)) as HinvD.
  { apply Inv_detached; [by apply fired_keep|exact Hi]. }
  assert (mkChannel "x" None [1; 2] ∈ _channels (unregistering s)) as Hin
    by (rewrite Hch; apply list_elem_of_here).
  destruct (promotion_fifo_with_skipping (Some 0) (unregistering s)
              (mkChannel "x" None [1; 2]) HinvD Hin eq_refl)
    as (_ & Hpromote & _).
  destruct (Hpromote [1] 2 [] eq_refl) as (s' & H1 & H2 & H3 & _).
  - apply Forall_singleton. unfold blocked. rewrite Hn1, Hrn.
    apply list_elem_of_here.
  - unfold blocked. rewrite Hn2, Hrn.
    intros [[=]|Hbad]%elem_of_cons. by apply elem_of_nil in Hbad.
  - exists s, s'. split; [exact Hrun|]. split; [exact Hch|].
    split; [exact H1|]. split; [exact H2|]. by rewrite H3, Hl.
Defined.

(** ** C4 *)




Lemma fired_nameOf j s k : nameOf (fired j s) k = nameOf s k.
Proof.
  unfold nameOf, fired. rewrite jobOf_upd_job. by case_decide; subst.
Qed.


Definition script_armed : list Event :=
  [EvRunTask "T" 0 100 noOptions; EvStartJobResolved 0 7 1000 [] Returns].

Lemma script_armed_obs :
  observe script_armed
    (fun s => (timeoutId (jobOf s 0), _runningJobs s, nameOf s 0))
  = Some (Some TimerArmed, [0], "T"%string).
Proof. vm_compute. reflexivity. Qed.


(** ** C5 *)

Lemma idle_channel_detached i a s B :
  B ∈ _channels s → runningJob B = None → B ∈ _channels (detached i a s).
Proof.
  intros HB Hnone. unfold detached.
  destruct (channel (jobOf s a)) as [cn|]; [|done].
  apply elem_of_upd_channel. exists B. split; [done|].
  case_decide; [|done]. destruct B as [n r q]. simpl in *. by subst.
Qed.

(** After the unstall pass that follows the removal of job [a], the task name
    of a job [b] that waited in an idle channel only because [a] held that
    name is running again. *)
Lemma unstall_pass_occupies s a i s' :
  Inv None s → Quiet s → indexOf a (_runningJobs s) = Some i →
  Grows (detached i a s) s' → Inv (Some a) s' → Quiet s' →
  ∀ B b, B ∈ _channels s → runningJob B = None → b ∈ queue B →
    nameOf s b = nameOf s a → nameOf s b ∈ runningNames s'.
Proof.
  intros Hinv Hquiet Hi Hg Hinv' Hquiet' B b HB Hnone Hb Hname.
  pose proof (Inv_detached i a s Hinv Hi) as HinvD.
  pose proof (indexOf_lookup _ _ _ Hi) as Hlk.
  assert (∀ k, nameOf s' k = nameOf s k) as Hnames.
  { intros k. unfold nameOf. by rewrite (grows_job _ _ Hg), detached_job. }
  pose proof (idle_channel_detached i a s B HB Hnone) as HBD.
  assert (name B ∈ name <$> _channels s') as HBn.
  { rewrite (grows_names _ _ Hg). apply list_elem_of_fmap. by exists B. }
  apply list_elem_of_fmap in HBn as (B' & HBn & HB').
  destruct (grows_chan _ _ Hg B' HB') as (c0 & Hc0 & Hn0 & _ & Hsame).
  assert (c0 = B) as ->.
  { eapply channel_unique; [apply (inv_chan_nodup _ _ HinvD)|done|done|congruence]. }
  destruct (runningJob B') as [k|] eqn:Hslot.
  - destruct (inv_slot_run _ _ Hinv' B' k HB' Hslot) as [Hk Hkc].
    assert (k ∈ queue B) as HkB.
    { destruct (grows_new _ _ Hg k Hk) as [Hold|(C & HC & HkC)].
      - exfalso. rewrite (grows_job _ _ Hg) in Hkc.
        destruct (inv_run_slot _ _ HinvD k (name B') Hold Hkc)
          as (c1 & Hc1 & Hn1 & Hs1).
        assert (c1 = B) as ->.
        { eapply channel_unique;
            [apply (inv_chan_nodup _ _ HinvD)|done|done|congruence]. }
        congruence.
      - destruct (inv_queue _ _ HinvD C k HC HkC) as (_ & _ & Hkc').
        rewrite (grows_job _ _ Hg) in Hkc.
        assert (C = B) as ->; [|done].
        eapply channel_unique;
          [apply (inv_chan_nodup _ _ HinvD)|done|done|congruence]. }
    destruct (decide (nameOf s k = nameOf s b)) as [Heq|Hne].
    + apply list_elem_of_fmap. exists k. split; [|done]. by rewrite Hnames.
    + exfalso. pose proof (Hquiet B HB Hnone) as Hall.
      rewrite Forall_forall in Hall. specialize (Hall k HkB).
      apply list_elem_of_fmap in Hall as (r & Hrn & Hr).
      assert (r ≠ a) as Hra by (intros ->; congruence).
      assert (r ∈ _runningJobs s') as Hr'.
      { apply (grows_run _ _ Hg). rewrite detached_running.
        by eapply elem_of_delete_other. }
      assert (k = r) as ->.
      { apply (NoDup_fmap_elem (nameOf s') (_runningJobs s'));
          [apply (inv_run_names _ _ Hinv')|done|done|].
        by rewrite !Hnames. }
      by apply (Inv_queue_not_running None s B r).
  - rewrite (Hsame eq_refl) in HB', Hslot.
    pose proof (Hquiet' B HB' Hslot) as Hall.
    rewrite Forall_forall in Hall. specialize (Hall b Hb).
    unfold blocked in Hall. by rewrite Hnames in Hall.
Qed.

(** The pass visits the channels in the order of the map. *)
Lemma unstallLoop_app l1 l2 s :
  unstallLoop (l1 ++ l2) s = (s1 <- unstallLoop l1 s ;; unstallLoop l2 s1).
Proof.
  revert s; induction l1 as [|cn l1 IH]; intros s; simpl; [done|].
  destruct (_tryRunNextJobInChannel cn s) as [f|s1]; simpl; [done|apply IH].
Qed.

Lemma queue_channelOf s cn k :
  k ∈ queue (channelOf s cn) →
  channelOf s cn ∈ _channels s ∧ name (channelOf s cn) = cn.
Proof.
  unfold channelOf. destruct (channels_get cn (_channels s)) as [ch|] eqn:Hget; simpl.
  - intros _. by apply channels_get_Some.
  - by intros ?%elem_of_nil.
Qed.

(** An attempt on channel [cn] leaves the other channels alone. *)
Lemma tryRunNext_other_channel cn s s' C :
  _tryRunNextJobInChannel cn s = inr s' → name C ≠ cn →
  C ∈ _channels s' ↔ C ∈ _channels s.
Proof.
  intros Hrun Hne.
  destruct (tryRunNext_cases _ _ _ Hrun)
    as [[[->|[es ->]] _]|(pre & k & post & _ & _ & _ & _ & ->)]; [done|done|].
  unfold promoted.
  change (_channels (started k ?s0)) with (_channels s0).
  rewrite elem_of_upd_channel. split.
  - intros (c & Hc & ->). case_decide as Hn; [simpl in Hne; congruence|done].
  - intros HC. exists C. split; [done|]. by rewrite decide_False.
Qed.

(** A channel that an attempt leaves without running job is as it was. *)
Lemma tryRunNext_idle_channel cn s s' C :
  _tryRunNextJobInChannel cn s = inr s' → C ∈ _channels s' →
  runningJob C = None → C ∈ _channels s.
Proof.
  intros Hrun HC Hidle.
  destruct (tryRunNext_cases _ _ _ Hrun)
    as [[[->|[es ->]] _]|(pre & k & post & _ & _ & _ & _ & ->)]; [done|done|].
  unfold promoted in HC.
  change (_channels (started k ?s0)) with (_channels s0) in HC.
  apply elem_of_upd_channel in HC as (c & Hc & ->).
  by case_decide.
Qed.

(** While the pass runs through the channels [cns], a task name that is not
    running stays free if no idle channel among them queues a job of that
    name; channels outside [cns] are not touched. *)
Lemma unstallLoop_avoids x cns s s' tn :
  Inv x s → unstallLoop cns s = inr s' →
  tn ∉ runningNames s →
  (∀ C c, C ∈ _channels s → name C ∈ cns → runningJob C = None →
     c ∈ queue C → nameOf s c ≠ tn) →
  (tn ∉ runningNames s')
  ∧ (∀ C, C ∈ _channels s → name C ∉ cns → C ∈ _channels s').
Proof.
  revert s; induction cns as [|cn cns IH]; intros s Hinv Hloop Hfree Hnone;
    simpl in Hloop.
  { injection Hloop as <-. done. }
  destruct (tryRunNext_spec x s cn Hinv) as (s1 & Hrun & Hinv1 & Hg1 & _).
  rewrite Hrun in Hloop. simpl in Hloop.
  assert (∀ k, nameOf s1 k = nameOf s k) as Hnames.
  { intros k. unfold nameOf. by rewrite (grows_job _ _ Hg1). }
  assert (tn ∉ runningNames s1) as Hfree1.
  { destruct (tryRunNext_cases _ _ _ Hrun)
      as [[[->|[es ->]] _]|(pre & k & post & Hidle & Hq & _ & _ & ->)];
      [done|done|].
    rewrite runningNames_promoted.
    intros [?|Hk%list_elem_of_singleton]%elem_of_app; [done|].
    assert (k ∈ queue (channelOf s cn)) as Hkq.
    { rewrite Hq. apply elem_of_app. right. by left. }
    destruct (queue_channelOf s cn k Hkq) as [Hch Hn].
    apply (Hnone (channelOf s cn) k); [done| |done|done|done].
    rewrite Hn. by left. }
  destruct (IH s1 Hinv1 Hloop Hfree1) as [Hfree' Hkeep].
  { intros C c HC Hn Hidle Hc. rewrite Hnames.
    apply (Hnone C c); [|by right|done|done].
    by eapply tryRunNext_idle_channel. }
  split; [done|].
  intros C HC Hn. apply not_elem_of_cons in Hn as [Hne Hn].
  apply Hkeep; [|done]. by apply (tryRunNext_other_channel cn s s1 C Hrun Hne).
Qed.

Lemma tryRunNext_promotes x s ch pre j post :
  Inv x s → ch ∈ _channels s → runningJob ch = None →
  queue ch = pre ++ j :: post → Forall (blocked s) pre → ¬ blocked s j →
  _tryRunNextJobInChannel (name ch) s = inr (promoted (name ch) (length pre) j s).
Proof.
  intros Hinv Hch Hnone Hq Hpre Hj.
  pose proof (channelOf_elem s ch (inv_chan_nodup _ _ Hinv) Hch) as Hof.
  destruct (tryRunNext_spec x s (name ch) Hinv) as (s' & Hrun & _).
  rewrite Hrun.
  destruct (tryRunNext_cases _ _ _ Hrun)
    as [[_ [Hbusy|Hall]]|(pre' & k & post' & _ & Hq' & Hpre' & Hk & ->)].
  - rewrite Hof in Hbusy. done.
  - rewrite Hof, Hq in Hall. apply Forall_app in Hall as [_ Hall].
    apply Forall_cons in Hall as [? _]. done.
  - rewrite Hof, Hq in Hq'.
    destruct (first_unblocked_unique (blocked s) _ _ _ _ _ _ Hq' Hpre Hj Hpre' Hk)
      as (-> & -> & ->). done.
Qed.

(** The pass promotes the job [b] of the idle channel [B] when [b] is the
    one entry of [B]'s queue that can run and no idle channel visited before
    [B] queues a job of the same name. *)
Lemma unstall_pass_reaches x D s' pre B post b :
  Inv x D → _channels D = pre ++ B :: post → runningJob B = None →
  unstallLoop (name <$> _channels D) D = inr s' →
  b ∈ queue B → ¬ blocked D b →
  (∀ k, k ∈ queue B → k ≠ b → blocked D k) →
  (∀ C c, C ∈ pre → runningJob C = None → c ∈ queue C →
     nameOf D c ≠ nameOf D b) →
  b ∈ _runningJobs s'.
Proof.
  intros Hinv Hch Hidle Hloop Hb Hfree Hothers Hpre.
  pose proof (inv_chan_nodup _ _ Hinv) as Hnd.
  rewrite Hch, fmap_app, fmap_cons in Hnd.
  apply NoDup_app in Hnd as (_ & Hdisj & Hnd2).
  apply NoDup_cons in Hnd2 as [HBpost _].
  assert (B ∈ _channels D) as HB.
  { rewrite Hch. apply elem_of_app. right. by left. }
  rewrite Hch, fmap_app, fmap_cons, unstallLoop_app in Hloop.
  destruct (unstallLoop_spec x (name <$> pre) D Hinv)
    as (D1 & Hrun1 & Hinv1 & Hg1 & _).
  rewrite Hrun1 in Hloop. simpl in Hloop.
  destruct (unstallLoop_avoids x (name <$> pre) D D1 (nameOf D b) Hinv Hrun1 Hfree)
    as [Hfree1 Hkeep].
  { intros C c HC (C' & Hn & HC')%list_elem_of_fmap Hnone Hc.
    assert (C = C') as ->.
    { eapply channel_unique; [apply (inv_chan_nodup _ _ Hinv)|done| |done].
      rewrite Hch. apply elem_of_app. by left. }
    by apply (Hpre C' c). }
  assert (B ∈ _channels D1) as HB1.
  { apply Hkeep; [done|]. intros Hin. apply (Hdisj (name B) Hin). by left. }
  assert (∀ k, nameOf D1 k = nameOf D k) as Hnames.
  { intros k. unfold nameOf. by rewrite (grows_job _ _ Hg1). }
  apply list_elem_of_split in Hb as (q1 & q2 & Hq).
  assert (NoDup (queue B)) as Hqnd.
  { apply StronglySorted_lt_NoDup. by apply (inv_queue_sorted _ _ Hinv). }
  assert (Forall (blocked D1) q1) as Hq1.
  { apply Forall_forall. intros k Hk.
    apply (Grows_blocked D D1 k Hg1). apply Hothers.
    - rewrite Hq. apply elem_of_app. by left.
    - intros ->. rewrite Hq in Hqnd. apply NoDup_app in Hqnd as (_ & Hd & _).
      apply (Hd b Hk). by left. }
  assert (¬ blocked D1 b) as Hb1.
  { unfold blocked. by rewrite Hnames. }
  rewrite (tryRunNext_promotes x D1 B q1 b q2 Hinv1 HB1 Hidle Hq Hq1 Hb1) in Hloop.
  simpl in Hloop.
  assert (Inv x (promoted (name B) (length q1) b D1)) as Hinv2
    by (by eapply Inv_promote).
  destruct (unstallLoop_spec x (name <$> post) _ Hinv2)
    as (s2 & Hrun2 & _ & Hg2 & _).
  rewrite Hrun2 in Hloop. injection Hloop as <-.
  apply (grows_run _ _ Hg2). simpl. apply elem_of_app. right. by left.
Qed.

Lemma unregisterJob_unfold s a i :
  Inv None s → indexOf a (_runningJobs s) = Some i →
  _unregisterJob a s
  = unstallLoop (name <$> _channels (detached i a s)) (detached i a s).
Proof.
  intros Hinv Hi. unfold _unregisterJob. rewrite Hi.
  by rewrite (removeJobFromChannel_ok i a s Hinv Hi).
Qed.

(** What [detached] does to the list of channels, by position. *)
Lemma detached_channels_split i a s pre B post :
  Inv None s → a ∈ _runningJobs s →
  _channels s = pre ++ B :: post → runningJob B = None →
  ∃ pre' post',
    _channels (detached i a s) = pre' ++ B :: post'
    ∧ ∀ C', C' ∈ pre' → runningJob C' = None →
        ∃ C, C ∈ pre ∧ queue C' = queue C
             ∧ (runningJob C = None ∨ runningJob C = Some a).
Proof.
  intros Hinv Ha Hch Hidle. unfold detached.
  destruct (channel (jobOf s a)) as [cn|] eqn:Hcn.
  - set (f := fun c : JobChannel =>
                if decide (name c = cn) then mkChannel (name c) None (queue c)
                else c).
    exists (f <$> pre), (f <$> post). split.
    + unfold upd_channel. simpl. rewrite Hch, fmap_app, fmap_cons.
      f_equal. f_equal. unfold f. case_decide; [|done].
      destruct B as [n r q]. simpl in *. by subst.
    + intros C' (C & -> & HC)%list_elem_of_fmap Hnone.
      exists C. split; [done|]. unfold f in *.
      case_decide as Hn; simpl in *; [|by split; [|left]].
      split; [done|]. right.
      destruct (inv_run_slot _ _ Hinv a cn Ha Hcn) as (ch & Hin & Hname & Hslot).
      assert (C = ch) as ->; [|done].
      eapply channel_unique; [apply (inv_chan_nodup _ _ Hinv)| |done|congruence].
      rewrite Hch. apply elem_of_app. by left.
  - exists pre, post. split; [done|].
    intros C' HC' Hnone. exists C'. split; [done|]. split; [done|by left].
Qed.

(** The unstall pass of [_unregisterJob a] promotes [b]. *)
Lemma unregister_promotes s a s1 pre B post b :
  Inv None s → Quiet s → a ∈ _runningJobs s → _unregisterJob a s = inr s1 →
  _channels s = pre ++ B :: post → runningJob B = None → b ∈ queue B →
  nameOf s b = nameOf s a →
  (∀ C c, C ∈ pre → (runningJob C = None ∨ runningJob C = Some a) →
     c ∈ queue C → nameOf s c ≠ nameOf s a) →
  b ∈ _runningJobs s1.
Proof.
  intros Hinv Hquiet Ha Hun Hch Hidle Hb Hname Hpre.
  destruct (indexOf_Some _ _ Ha) as (i & Hi & Hlk).
  rewrite (unregisterJob_unfold s a i Hinv Hi) in Hun.
  pose proof (Inv_detached i a s Hinv Hi) as HinvD.
  destruct (detached_channels_split i a s pre B post Hinv Ha Hch Hidle)
    as (pre' & post' & HchD & Hpre').
  assert (B ∈ _channels s) as HB.
  { rewrite Hch. apply elem_of_app. right. by left. }
  assert (∀ k, nameOf (detached i a s) k = nameOf s k) as Hnames.
  { intros k. unfold nameOf. by rewrite detached_job. }
  assert (∀ r, r ∈ _runningJobs s → r ≠ a → r ∈ _runningJobs (detached i a s))
    as Hstay.
  { intros r Hr Hra. rewrite detached_running. by eapply elem_of_delete_other. }
  apply (unstall_pass_reaches (Some a) (detached i a s) s1 pre' B post' b);
    try done.
  - unfold blocked. rewrite Hnames, Hname.
    intros (k & Hkn & Hk)%list_elem_of_fmap.
    rewrite detached_running in Hk. rewrite Hnames in Hkn.
    assert (k = a) as ->.
    { apply (NoDup_fmap_elem (nameOf s) (_runningJobs s));
        [apply (inv_run_names _ _ Hinv)|by eapply elem_of_delete_list|done|done]. }
    revert Hk. apply delete_NoDup_notin; [apply (inv_run_nodup _ _ Hinv)|done].
  - intros k Hk Hkb.
    pose proof (Hquiet B HB Hidle) as Hall. rewrite Forall_forall in Hall.
    specialize (Hall k Hk). apply list_elem_of_fmap in Hall as (r & Hrn & Hr).
    unfold blocked. rewrite Hnames. apply list_elem_of_fmap.
    exists r. split; [by rewrite Hnames|]. apply Hstay; [done|].
    intros ->. apply Hkb.
    apply (NoDup_fmap_elem (nameOf s) (queue B));
      [by apply (inv_queue_names _ _ Hinv)|done|done|congruence].
  - intros C' c HC' Hnone Hc. rewrite !Hnames, Hname.
    destruct (Hpre' C' HC' Hnone) as (C & HC & Hq & Hslot).
    apply (Hpre C c HC Hslot). by rewrite <- Hq.
Qed.

Definition script_three_channels : list Event :=
  [EvRunTask "P" 0 100 (inChannel "x");
   EvRunTask "Q" 1 100 (inChannel "b");
   EvRunTask "T" 2 100 (inChannel "x");
   EvRunTask "T" 3 100 (inChannel "b");
   EvRunTask "T" 4 100 (inChannel "a");
   EvStartJobResolved 0 7 1000 [] Returns;
   EvStartJobResolved 1 8 1000 [] Returns;
   EvStartJobResolved 4 9 1000 [] Returns;
   EvTimer 0;
   EvTimer 1].

Lemma script_three_channels_obs :
  observe script_three_channels
    (fun s => (_channels s, getRunningJobs s, nameOf s 3, nameOf s 4,
               channel (jobOf s 4)))
  = Some ([mkChannel "x" None [2]; mkChannel "b" None [3];
           mkChannel "a" (Some 4) []],
          [4], "T"%string, "T"%string, Some "a"%string).
Proof. vm_compute. reflexivity. Qed.

Lemma script_three_channels_timeout_obs :
  observe (script_three_channels ++ [EvTimer 4])
    (fun s => (_channels s, getRunningJobs s))
  = Some ([mkChannel "x" (Some 2) []; mkChannel "b" None [3];
           mkChannel "a" None []],
          [2]).
Proof. vm_compute. reflexivity. Qed.

(** The claim: when job [a] leaves, every job that waited in an idle channel
    only for [a]'s task name is promoted by the pass. *)
Definition promotesEveryWaiter (s : Scheduler) (a : ref) (s' : Scheduler) : Prop :=
  ∀ B b, B ∈ _channels s → runningJob B = None → b ∈ queue B →
    nameOf s b = nameOf s a → b ∈ _runningJobs s'.

(** C5, counterexample.  Channels "x" and "b" are both idle, each waiting
    with a job named "T" (jobs 2 and 3) for job 4, named "T", which runs in
    channel "a".  When job 4 times out the pass visits "x" first and promotes
    job 2; job 3 of channel "b" stays queued. *)
Lemma waiter_in_later_channel_not_promoted :
  ∃ s s', run script_three_channels init = Some s
          ∧ step s (EvTimer 4) = Some (inr s')
          ∧ ¬ promotesEveryWaiter s 4 s'.
Proof.
  destruct (observe_Some _ _ _ script_three_channels_timeout_obs)
    as (s' & Hrun' & _ & Hobs').
  apply run_snoc in Hrun' as (s & Hrun & Hstep).
  exists s, s'. split; [exact Hrun|]. split; [exact Hstep|].
  pose proof script_three_channels_obs as Hobs. unfold observe in Hobs.
  rewrite Hrun in Hobs. injection Hobs as Hch _ Hn3 Hn4 _.
  injection Hobs' as _ Hl'.
  intros Hp. specialize (Hp (mkChannel "b" None [3]) 3).
  unfold getRunningJobs in Hl'. rewrite Hl', Hch, Hn3, Hn4 in Hp.
  assert (3 ∈ [2]) as Hbad.
  { apply Hp; [|reflexivity|apply list_elem_of_here|reflexivity].
    apply list_elem_of_further, list_elem_of_here. }
  apply elem_of_cons in Hbad as [Hbad|Hbad%elem_of_nil]; done.
Qed.

(** C5, as amended.  When a job [a] times out, or finishes without having
    timed out, the step re-examines every channel, in the order of the
    channel map (creation order): afterwards [a] is out of the running list
    and no channel is idle with a queued job whose name is free.  For a job
    [b] that waited in an idle channel [B] with [a]'s task name, that name is
    running again after the step.  It is [b] itself that runs, if no channel
    that comes before [B] in the map and has no running job once [a] is
    removed queues a job of that name; a channel before [B] that is busy with
    another job does not matter. *)
Theorem unstall_is_global s a s' :
  reachable s →
  step s (EvTimer a) = Some (inr s')
  ∨ (timedOut (jobOf s a) = false ∧ step s (EvCleanup a) = Some (inr s')) →
  (∀ ch, ch ∈ _channels s' → runningJob ch = None →
     Forall (blocked s') (queue ch))
  ∧ (a ∉ _runningJobs s')
  ∧ ∀ pre B post b,
      _channels s = pre ++ B :: post → runningJob B = None → b ∈ queue B →
      nameOf s b = nameOf s a →
      nameOf s b ∈ runningNames s'
      ∧ ((∀ C c, C ∈ pre → (runningJob C = None ∨ runningJob C = Some a) →
            c ∈ queue C → nameOf s c ≠ nameOf s a)
         → b ∈ _runningJobs s').
Proof.
  intros Hr Hstep. pose proof (reachable_good s Hr) as Hgood.
  pose proof Hgood as [Hinv Hquiet].
  destruct Hstep as [Hstep|[Hto Hstep]].
  - destruct (timer_step s a s' Hgood Hstep)
      as (Harmed & Ha & i & s1 & Hi & Hun & Hinv1 & Hq1 & Hg & ->).
    destruct (timeoutJob_spec s a Hgood Harmed Ha)
      as (i' & s1' & _ & Hun' & _ & _ & _ & _ & [Hinv2 Hquiet2]).
    rewrite Hun in Hun'. injection Hun' as <-.
    split; [exact Hquiet2|].
    destruct (inv_detached _ _ Hinv1 a eq_refl) as [Hout _].
    split; [exact Hout|].
    intros pre B post b Hch Hnone Hb Hname.
    assert (B ∈ _channels s) as HB.
    { rewrite Hch. apply elem_of_app. right. by left. }
    pose proof (fired_keep s a Hinv Harmed) as HinvF.
    pose proof (fired_quiet s a Hquiet) as HquietF.
    split.
    + pose proof (unstall_pass_occupies (fired a s) a i s1 HinvF HquietF Hi Hg
                    Hinv1 Hq1 B b HB Hnone Hb) as H1.
      rewrite !fired_nameOf in H1. specialize (H1 Hname).
      erewrite runningNames_ext; [exact H1|done|].
      intros k. unfold nameOf. rewrite jobOf_upd_job. by case_decide; subst.
    + intros Hpre.
      apply (unregister_promotes (fired a s) a s1 pre B post b); try done.
      * by rewrite !fired_nameOf.
      * intros C c HC Hslot Hc. rewrite !fired_nameOf. by apply (Hpre C c).
  - simpl in Hstep. destruct (chainOf s a) eqn:Hc; try done.
    destruct (onCleanup_spec s a jobResult Hgood Hc)
      as [(Hto' & _)|(_ & i & s1 & s2 & Hi & Hun & Hg1 & Hpass & Hg2 & Hinv2
                        & Hq2 & Hrun & [Hinv3 Hquiet3])]; [congruence|].
    rewrite Hrun in Hstep. injection Hstep as <-.
    split; [exact Hquiet3|].
    destruct (inv_detached _ _ Hinv2 a eq_refl) as [Hout _].
    split; [exact Hout|].
    intros pre B post b Hch Hnone Hb Hname.
    assert (B ∈ _channels s) as HB.
    { rewrite Hch. apply elem_of_app. right. by left. }
    assert (a ∈ _runningJobs s) as Ha.
    { eapply list_elem_of_lookup_2. by apply indexOf_lookup. }
    split.
    + pose proof (unstall_pass_occupies s a i s2 Hinv Hquiet Hi
                    (Grows_trans _ _ _ Hg1 Hg2) Hinv2 Hq2 B b HB Hnone Hb Hname)
        as H1.
      erewrite runningNames_ext; [exact H1|done|].
      intros k. unfold nameOf, finishedAs. autorewrite with sched.
      by case_decide; subst.
    + intros Hpre. apply (grows_run _ _ Hg2).
      by apply (unregister_promotes s a s1 pre B post b).
Qed.

Definition script_busy_before_idle : list Event :=
  [EvRunTask "P" 0 100 (inChannel "x");
   EvRunTask "Q" 1 100 (inChannel "b");
   EvRunTask "T" 2 100 (inChannel "x");
   EvRunTask "T" 3 100 (inChannel "b");
   EvRunTask "T" 4 100 (inChannel "a");
   EvStartJobResolved 1 8 1000 [] Returns;
   EvStartJobResolved 4 9 1000 [] Returns;
   EvTimer 1].

Lemma script_busy_before_idle_obs :
  observe script_busy_before_idle
    (fun s => (_channels s, getRunningJobs s, nameOf s 3, nameOf s 4))
  = Some ([mkChannel "x" (Some 0) [2]; mkChannel "b" None [3];
           mkChannel "a" (Some 4) []],
          [0; 4], "T"%string, "T"%string).
Proof. vm_compute. reflexivity. Qed.

Lemma script_busy_before_idle_timeout_obs :
  observe (script_busy_before_idle ++ [EvTimer 4])
    (fun s => (_channels s, getRunningJobs s))
  = Some ([mkChannel "x" (Some 0) [2]; mkChannel "b" (Some 3) [];
           mkChannel "a" None []],
          [0; 3]).
Proof. vm_compute. reflexivity. Qed.

Lemma unstall_is_global_witness :
  ∃ s s', run script_busy_before_idle init = Some s
          ∧ _channels s = [mkChannel "x" (Some 0) [2]; mkChannel "b" None [3];
                           mkChannel "a" (Some 4) []]
          ∧ step s (EvTimer 4) = Some (inr s')
          ∧ (4 ∉ _runningJobs s') ∧ 3 ∈ _runningJobs s'.
Proof.
  destruct (observe_Some _ _ _ script_busy_before_idle_timeout_obs)
    as (s' & Hrun' & _ & _).
  apply run_snoc in Hrun' as (s & Hrun & Hstep).
  pose proof (run_reachable script_busy_before_idle init s reachable_init Hrun)
    as Hreach.
  pose proof script_busy_before_idle_obs as Hobs. unfold observe in Hobs.
  rewrite Hrun in Hobs. injection Hobs as Hch _ Hn3 Hn4.
  exists s, s'. split; [exact Hrun|]. split; [exact Hch|]. split; [exact Hstep|].
  destruct (unstall_is_global s 4 s' Hreach (or_introl Hstep))
    as (_ & Hout & Hwait).
  split; [exact Hout|].
  destruct (Hwait [mkChannel "x" (Some 0) [2]] (mkChannel "b" None [3])
              [mkChannel "a" (Some 4) []] 3 Hch eq_refl)
    as [_ Hpromoted].
  - apply list_elem_of_here.
  - by rewrite Hn3, Hn4.
  - apply Hpromoted. intros C c HC%list_elem_of_singleton Hslot. subst C.
    simpl in Hslot. by destruct Hslot.
Defined.

(** ** C6 *)

Definition script_falsy_rejection : list Event :=
  [EvRunTask "T" 0 100 noOptions;
   EvStartJobResolved 0 7 1000 [] Returns;
   EvWorkRejected 0 JsUndefined;
   EvConclude 0;
   EvFinishJobSettled 0 true;
   EvCleanup 0].

(** C6, at the failing input.  An executor whose promise is rejected with
    [undefined]: cb2 stores the value, cb3 tests it with [if (executorError)],
    which is false, so nothing is appended to the error list and the job is
    reported to the sink and finished as a success. *)
Lemma rejection_with_undefined_counts_as_success :
  observe script_falsy_rejection
    (fun s => (errors (jobOf s 0), result (jobOf s 0), status (jobOf s 0),
               last (trace s)))
  = Some ([], Some ResSuccess, StFinished, Some (SinkFinishJob 7 ResSuccess)).
Proof. vm_compute. reflexivity. Qed.

(** ** C7 *)











(** * Further properties of the scheduler *)

(** ** Channels run one job at a time *)

(** In every reachable state the [runningJob] of a channel is in the running
    list and was requested for that channel; a running job requested for a
    channel sits in that channel's slot; so two running jobs never share a
    channel.  Channel names are unique in the map. *)
Theorem channel_runs_one_job s :
  reachable s →
  NoDup (name <$> _channels s)
  ∧ (∀ ch j, ch ∈ _channels s → runningJob ch = Some j →
       j ∈ _runningJobs s ∧ channel (jobOf s j) = Some (name ch))
  ∧ (∀ j cn, j ∈ _runningJobs s → channel (jobOf s j) = Some cn →
       runningJob (channelOf s cn) = Some j)
  ∧ (∀ j1 j2 cn, j1 ∈ _runningJobs s → j2 ∈ _runningJobs s →
       channel (jobOf s j1) = Some cn → channel (jobOf s j2) = Some cn →
       j1 = j2).
Proof.
  intros Hr. destruct (reachable_good s Hr) as [Hinv _].
  pose proof (inv_chan_nodup _ _ Hinv) as Hnd.
  assert (∀ j cn, j ∈ _runningJobs s → channel (jobOf s j) = Some cn →
            runningJob (channelOf s cn) = Some j) as Hslot.
  { intros j cn Hj Hc.
    destruct (inv_run_slot _ _ Hinv j cn Hj Hc) as (ch & Hch & <- & Hs).
    by rewrite channelOf_elem. }
  split; [exact Hnd|]. split; [apply (inv_slot_run _ _ Hinv)|].
  split; [exact Hslot|].
  intros j1 j2 cn H1 H2 Hc1 Hc2.
  pose proof (Hslot j1 cn H1 Hc1) as E1. pose proof (Hslot j2 cn H2 Hc2) as E2.
  congruence.
Qed.

Lemma channel_runs_one_job_witness :
  ∃ s, run script_three_channels init = Some s
       ∧ NoDup (name <$> _channels s).
Proof.
  destruct (observe_Some _ _ _ script_three_channels_obs) as (s & Hrun & Hr & _).
  exists s. split; [exact Hrun|].
  apply (channel_runs_one_job s Hr).
Defined.

(** ** Queued jobs are untouched *)

(** A job waiting in a channel queue has never been started: its status is
    queued, [startJob] was not requested, it has no log id, no timer and is not
    timed out; it is not in the running list nor in the channel's slot; it was
    requested for this channel and waits in no other queue, and once in this
    one. *)
Theorem queued_jobs_wait s ch j :
  reachable s → ch ∈ _channels s → j ∈ queue ch →
  status (jobOf s j) = StQueued ∧ chainOf s j = NotStarted
  ∧ logId (jobOf s j) = None ∧ timeoutId (jobOf s j) = None
  ∧ timedOut (jobOf s j) = false
  ∧ (j ∉ _runningJobs s) ∧ runningJob ch ≠ Some j
  ∧ channel (jobOf s j) = Some (name ch)
  ∧ (∀ ch', ch' ∈ _channels s → j ∈ queue ch' → ch' = ch)
  ∧ NoDup (queue ch).
Proof.
  intros Hr Hch Hj. destruct (reachable_good s Hr) as [Hinv _].
  destruct (inv_queue _ _ Hinv ch j Hch Hj) as (Hc & _ & Hjc).
  pose proof (inv_job_ok _ _ Hinv j) as Hok. rewrite Hc in Hok.
  apply job_ok_NotStarted in Hok as (Hst & Hto & Htid & Hlid).
  pose proof (Inv_queue_not_running None s ch j Hinv Hch Hj) as Hnr.
  repeat (split; [assumption|]).
  split.
  { intros Hslot. by destruct (inv_slot_run _ _ Hinv ch j Hch Hslot). }
  split; [exact Hjc|]. split.
  - intros ch' Hch' Hj'.
    destruct (inv_queue _ _ Hinv ch' j Hch' Hj') as (_ & _ & Hjc').
    eapply channel_unique; [apply (inv_chan_nodup _ _ Hinv)|done|done|congruence].
  - apply StronglySorted_lt_NoDup. by apply (inv_queue_sorted _ _ Hinv).
Qed.

Lemma queued_jobs_wait_witness :
  ∃ s, run script_three_channels init = Some s
       ∧ mkChannel "b" None [3] ∈ _channels s
       ∧ status (jobOf s 3) = StQueued.
Proof.
  destruct (observe_Some _ _ _ script_three_channels_obs)
    as (s & Hrun & Hr & Hobs).
  injection Hobs as Hch _.
  assert (mkChannel "b" None [3] ∈ _channels s) as Hin.
  { rewrite Hch. apply list_elem_of_further, list_elem_of_here. }
  exists s. split; [exact Hrun|]. split; [exact Hin|].
  apply (queued_jobs_wait s (mkChannel "b" None [3]) 3 Hr Hin).
  apply list_elem_of_here.
Defined.

(** ** A channel stalls only on name collisions *)

(** In every reachable state, if a channel has no running job then each job
    in its queue is blocked by another job, of the same task name, that is in
    the running list. *)
Theorem idle_channel_is_blocked s ch j :
  reachable s → ch ∈ _channels s → runningJob ch = None → j ∈ queue ch →
  ∃ k, k ∈ _runningJobs s ∧ k ≠ j ∧ nameOf s k = nameOf s j.
Proof.
  intros Hr Hch Hnone Hj. destruct (reachable_good s Hr) as [Hinv Hquiet].
  pose proof (Hquiet ch Hch Hnone) as Hall. rewrite Forall_forall in Hall.
  specialize (Hall j Hj). apply list_elem_of_fmap in Hall as (k & Hn & Hk).
  exists k. split; [exact Hk|]. split; [|done].
  intros ->. by apply (Inv_queue_not_running None s ch j).
Qed.

Lemma idle_channel_is_blocked_witness :
  ∃ s, run script_three_channels init = Some s
       ∧ mkChannel "b" None [3] ∈ _channels s
       ∧ ∃ k, k ∈ _runningJobs s ∧ k ≠ 3 ∧ nameOf s k = nameOf s 3.
Proof.
  destruct (observe_Some _ _ _ script_three_channels_obs)
    as (s & Hrun & Hr & Hobs).
  injection Hobs as Hch _.
  assert (mkChannel "b" None [3] ∈ _channels s) as Hin.
  { rewrite Hch. apply list_elem_of_further, list_elem_of_here. }
  exists s. split; [exact Hrun|]. split; [exact Hin|].
  apply (idle_channel_is_blocked s (mkChannel "b" None [3]) 3 Hr Hin eq_refl).
  apply list_elem_of_here.
Defined.

(** ** Requests for a busy channel queue up *)

(** In a reachable state, a request for a task that is neither running nor
    queued in channel [c], while [c] runs a job, creates a job with the next
    execution id and appends it to the queue of [c]: it is not started, the
    running list and the channel's running job are unchanged, and 'queued' is
    logged. *)
Theorem request_queues_behind_running_job s tn ex ms sil ch a :
  reachable s → ch ∈ _channels s → runningJob ch = Some a →
  tn ∉ runningNames s → tn ∉ nameOf s <$> queue ch →
  ∃ s', runTask tn ex ms (mkOptions (Some (name ch)) sil) s
        = inr (_nextExecutionId s, s')
    ∧ channelOf s' (name ch)
      = mkChannel (name ch) (Some a) (queue ch ++ [_nextExecutionId s])
    ∧ _runningJobs s' = _runningJobs s
    ∧ jobOf s' (_nextExecutionId s)
      = newJobImpl (_nextExecutionId s) tn ex ms (Some (name ch))
          (default false sil)
    ∧ chainOf s' (_nextExecutionId s) = NotStarted
    ∧ _nextExecutionId s' = S (_nextExecutionId s)
    ∧ trace s' = trace s ++ [Log LvlInfo (MsgQueued tn (name ch))].
Proof.
  intros Hr Hch Hslot Hnr Hnq. destruct (reachable_good s Hr) as [Hinv _].
  pose proof (inv_chan_nodup _ _ Hinv) as Hnd.
  pose proof (channels_get_elem _ _ Hnd Hch) as Hget.
  pose proof (channelOf_elem s ch Hnd Hch) as Hof.
  set (o := mkOptions (Some (name ch)) sil).
  set (k := _nextExecutionId s).
  set (a0 := allocated tn ex ms o s).
  assert (a ≠ k) as Hak.
  { destruct (inv_slot_run _ _ Hinv ch a Hch Hslot) as [Ha _].
    apply (Inv_run_lt _ _ _ Hinv) in Ha. unfold k. lia. }
  assert (channelOf (pushed (name ch) k a0) (name ch)
          = mkChannel (name ch) (Some a) (queue ch ++ [k])) as Hofp.
  { unfold pushed. rewrite channelOf_upd_eq; [|done|].
    - change (channelOf a0 (name ch)) with (channelOf s (name ch)).
      rewrite Hof. simpl. by rewrite Hslot.
    - change (_channels a0) with (_channels s). by rewrite Hget. }
  exists (emit [Log LvlInfo (MsgQueued tn (name ch))] (pushed (name ch) k a0)).
  split.
  { unfold runTask.
    assert (_findRunningJob tn s = None) as -> by (by apply findWhere_None).
    unfold _findQueuedTaskInChannel. simpl.
    rewrite (getChannel_id (name ch) s) by (by rewrite Hget).
    rewrite Hof.
    assert (findWhere s (queue ch) tn = None) as -> by (by apply findWhere_None).
    rewrite createAndRunJob_unfold. simpl. fold o. fold a0. fold k.
    rewrite (getChannel_id (name ch) a0)
      by (change (_channels a0) with (_channels s); by rewrite Hget).
    unfold _queueJobToChannel. fold (pushed (name ch) k a0).
    unfold _tryRunNextJobInChannel. rewrite Hofp. simpl.
    rewrite Hofp. simpl.
    rewrite bool_decide_eq_false_2 by congruence.
    assert (taskName (jobOf (pushed (name ch) k a0) k) = tn) as ->; [|done].
    change (taskName (jobOf a0 k) = tn). unfold a0, k.
    by rewrite allocated_job_eq. }
  split; [exact Hofp|]. split; [reflexivity|].
  split.
  { change (jobOf a0 k = newJobImpl k tn ex ms (Some (name ch)) (default false sil)).
    unfold a0, k. by rewrite allocated_job_eq. }
  split.
  { change (chainOf s k = NotStarted). apply (inv_fresh _ _ Hinv). unfold k. lia. }
  split; reflexivity.
Qed.

Definition script_busy_channel : list Event :=
  [EvRunTask "A" 0 100 (inChannel "x")].

Lemma script_busy_channel_obs :
  observe script_busy_channel
    (fun s => (_channels s, runningNames s, _nextExecutionId s))
  = Some ([mkChannel "x" (Some 0) []], ["A"%string], 1).
Proof. vm_compute. reflexivity. Qed.

Lemma request_queues_behind_running_job_witness :
  ∃ s s', run script_busy_channel init = Some s
          ∧ runTask "B" 1 100 (inChannel "x") s = inr (1, s')
          ∧ channelOf s' "x" = mkChannel "x" (Some 0) [1]
          ∧ _runningJobs s' = _runningJobs s.
Proof.
  destruct (observe_Some _ _ _ script_busy_channel_obs)
    as (s & Hrun & Hr & Hobs).
  injection Hobs as Hch Hrn Hnext.
  assert (mkChannel "x" (Some 0) [] ∈ _channels s) as Hin
    by (rewrite Hch; apply list_elem_of_here).
  destruct (request_queues_behind_running_job s "B" 1 100 None
              (mkChannel "x" (Some 0) []) 0 Hr Hin eq_refl)
    as (s' & H1 & H2 & H3 & _).
  - rewrite Hrn. intros [[=]|Hin']%elem_of_cons. by apply elem_of_nil in Hin'.
  - simpl. apply not_elem_of_nil.
  - exists s, s'. rewrite Hnext in H1, H2. simpl in H1, H2.
    split; [exact Hrun|]. split; [exact H1|]. split; [exact H2|exact H3].
Defined.

(** ** A late finish does not unregister twice *)

(** When the promise chain of a job that already timed out reaches cb5, the
    step raises nothing and only stores status finished and the result in the
    job: the running list, the channels and every other job are unchanged and
    no effect is produced. *)
Theorem late_finish_only_marks_the_job s j r :
  reachable s → chainOf s j = AwaitCleanup r → timedOut (jobOf s j) = true →
  ∃ s', step s (EvCleanup j) = Some (inr s')
    ∧ _runningJobs s' = _runningJobs s ∧ _channels s' = _channels s
    ∧ trace s' = trace s
    ∧ status (jobOf s' j) = StFinished ∧ result (jobOf s' j) = r
    ∧ chainOf s' j = Settled
    ∧ (j ∉ _runningJobs s')
    ∧ ∀ k, k ≠ j → jobOf s' k = jobOf s k ∧ chainOf s' k = chainOf s k.
Proof.
  intros Hr Hc Hto. pose proof (reachable_good s Hr) as Hgood.
  pose proof Hgood as [Hinv _].
  destruct (onCleanup_spec s j r Hgood Hc)
    as [(_ & Hrun & _)|(Hto' & _)]; [|congruence].
  exists (finishedAs j r s). split; [simpl; by rewrite Hc, Hrun|].
  unfold finishedAs.
  split; [reflexivity|]. split; [reflexivity|]. split; [reflexivity|].
  split; [by norm_sched|]. split; [by norm_sched|].
  split; [apply chainOf_set_chain_eq|].
  split.
  { intros Hin. destruct (inv_run_chain _ _ Hinv j Hin). congruence. }
  intros k Hk. autorewrite with sched. by rewrite !decide_False.
Qed.

Definition script_timed_out_then_done : list Event :=
  [EvRunTask "T" 0 100 noOptions;
   EvStartJobResolved 0 7 1000 [] Returns;
   EvTimer 0;
   EvWorkFulfilled 0;
   EvConclude 0;
   EvFinishJobSettled 0 true].

Lemma script_timed_out_then_done_obs :
  observe script_timed_out_then_done
    (fun s => (chainOf s 0, timedOut (jobOf s 0)))
  = Some (AwaitCleanup (Some ResSuccess), true).
Proof. vm_compute. reflexivity. Qed.

Lemma late_finish_only_marks_the_job_witness :
  ∃ s s', run script_timed_out_then_done init = Some s
          ∧ step s (EvCleanup 0) = Some (inr s')
          ∧ status (jobOf s' 0) = StFinished.
Proof.
  destruct (observe_Some _ _ _ script_timed_out_then_done_obs)
    as (s & Hrun & Hr & Hobs).
  injection Hobs as Hc Hto.
  destruct (late_finish_only_marks_the_job s 0 (Some ResSuccess) Hr Hc Hto)
    as (s' & Hstep & _ & _ & _ & Hst & _).
  by exists s, s'.
Defined.

(** ** Execution ids and results *)

(** What promotion attempts do to the job objects: nothing; the only promise
    chains they touch are those they start. *)
Definition Stamps (s s' : Scheduler) : Prop :=
  (∀ k, jobOf s' k = jobOf s k)
  ∧ _nextExecutionId s' = _nextExecutionId s
  ∧ ∀ k, chainOf s' k = chainOf s k
         ∨ (chainOf s k = NotStarted ∧ chainOf s' k = AwaitStart).

Lemma Stamps_refl s : Stamps s s.
Proof. split; [done|]. split; [done|]. intros k. by left. Qed.

Lemma Stamps_trans s1 s2 s3 : Stamps s1 s2 → Stamps s2 s3 → Stamps s1 s3.
Proof.
  intros (Hj1 & Hn1 & Hc1) (Hj2 & Hn2 & Hc2).
  split; [intros k; by rewrite Hj2|]. split; [congruence|].
  intros k. destruct (Hc1 k) as [E1|[E1 E1']], (Hc2 k) as [E2|[E2 E2']];
    try (left; congruence); try (right; split; congruence).
Qed.

Lemma Stamps_same s s' :
  (∀ k, jobOf s' k = jobOf s k) → _nextExecutionId s' = _nextExecutionId s →
  (∀ k, chainOf s' k = chainOf s k) → Stamps s s'.
Proof. intros Hj Hn Hc. split; [done|]. split; [done|]. intros k. by left. Qed.

Lemma Stamps_started j s : chainOf s j = NotStarted → Stamps s (started j s).
Proof.
  intros Hc. split; [intros k; apply jobOf_started|]. split; [done|].
  intros k. rewrite chainOf_started. case_decide as Hk; [subst; by right|by left].
Qed.

Lemma tryRunNext_stamps_queue cn s s' :
  (∀ k, k ∈ queue (channelOf s cn) → chainOf s k = NotStarted) →
  _tryRunNextJobInChannel cn s = inr s' → Stamps s s'.
Proof.
  intros Hq Hrun.
  destruct (tryRunNext_cases _ _ _ Hrun)
    as [[[->|[es ->]] _]|(pre & k & post & _ & Hqueue & _ & _ & ->)].
  - apply Stamps_refl.
  - by apply Stamps_same.
  - assert (chainOf s k = NotStarted) as Hk.
    { apply Hq. rewrite Hqueue. apply elem_of_app. right. by left. }
    split; [intros k'; apply jobOf_promoted|]. split; [done|].
    intros k'. rewrite chainOf_promoted.
    case_decide as Hkk; [subst; by right|by left].
Qed.

Lemma tryRunNext_stamps x cn s s' :
  Inv x s → _tryRunNextJobInChannel cn s = inr s' → Stamps s s'.
Proof.
  intros Hinv. apply tryRunNext_stamps_queue.
  intros k Hk. destruct (queue_channelOf s cn k Hk) as [Hch _].
  by destruct (inv_queue _ _ Hinv _ k Hch Hk) as (? & _).
Qed.

Lemma unstallLoop_stamps x cns s s' :
  Inv x s → unstallLoop cns s = inr s' → Stamps s s'.
Proof.
  revert s; induction cns as [|cn cns IH]; intros s Hinv; simpl.
  { intros [= <-]. apply Stamps_refl. }
  destruct (tryRunNext_spec x s cn Hinv) as (s1 & Hrun & Hinv1 & _).
  rewrite Hrun. simpl. intros Hrest.
  eapply Stamps_trans; [by eapply tryRunNext_stamps|by eapply IH].
Qed.

Lemma unregisterJob_stamps s j s' :
  Inv None s → j ∈ _runningJobs s → _unregisterJob j s = inr s' → Stamps s s'.
Proof.
  intros Hinv Hj. destruct (indexOf_Some _ _ Hj) as (i & Hi & _).
  unfold _unregisterJob. rewrite Hi.
  rewrite (removeJobFromChannel_ok i j s Hinv Hi). simpl. intros Hpass.
  eapply Stamps_trans;
    [|eapply unstallLoop_stamps; [by apply (Inv_detached i j s)|exact Hpass]].
  apply Stamps_same; intros; [apply detached_job|apply detached_next|apply detached_chain].
Qed.

(** What the result of a job is, given where its promise chain stands. *)
Definition resultOk (o : JobImpl) (c : Chain) : Prop :=
  match c with
  | NotStarted | AwaitStart =>
      result o = Some ResPending ∧ errors o = [] ∧ warnings o = []
  | AwaitWork | AwaitConclude _ | AwaitCleanup None => result o = Some ResPending
  | AwaitFinishLog r | AwaitCleanup (Some r) =>
      result o = Some ResPending ∧ r = classify o
  | Settled =>
      (result o = Some (classify o) ∧ timeoutId o ≠ Some TimerArmed)
      ∨ result o = None
  end.

Definition Records (s : Scheduler) : Prop :=
  ∀ j, (j < _nextExecutionId s → executionId (jobOf s j) = j)
       ∧ resultOk (jobOf s j) (chainOf s j).

Lemma Records_init : Records init.
Proof. intros j. split; [simpl; lia|done]. Qed.

Lemma Records_stamps s s' : Records s → Stamps s s' → Records s'.
Proof.
  intros Hrec (Hj & Hn & Hc) k. destruct (Hrec k) as [Hid Hres].
  rewrite Hj, Hn. split; [done|].
  destruct (Hc k) as [->|[E ->]]; [done|]. by rewrite E in Hres.
Qed.

Lemma Records_local s s' j :
  Records s → _nextExecutionId s' = _nextExecutionId s →
  (∀ k, k ≠ j → jobOf s' k = jobOf s k ∧ chainOf s' k = chainOf s k) →
  executionId (jobOf s' j) = executionId (jobOf s j) →
  resultOk (jobOf s' j) (chainOf s' j) →
  Records s'.
Proof.
  intros Hrec Hn Hoth Hid Hres k. rewrite Hn.
  destruct (decide (k = j)) as [->|Hk].
  - split; [|done]. rewrite Hid. apply Hrec.
  - destruct (Hoth k Hk) as [-> ->]. apply Hrec.
Qed.

Lemma Records_allocated tn ex ms o s :
  Inv None s → Records s → Records (allocated tn ex ms o s).
Proof.
  intros Hinv Hrec k.
  change (chainOf (allocated tn ex ms o s) k) with (chainOf s k).
  destruct (decide (k = _nextExecutionId s)) as [->|Hk].
  - rewrite allocated_job_eq. split; [done|].
    by rewrite (inv_fresh _ _ Hinv).
  - rewrite allocated_job_ne by done. destruct (Hrec k) as [Hid Hres].
    split; [|done]. simpl. intros ?. apply Hid. lia.
Qed.

Lemma runTask_records tn ex ms o s j s' :
  Inv None s → Records s → runTask tn ex ms o s = inr (j, s') → Records s'.
Proof.
  intros Hinv Hrec. unfold runTask.
  destruct (_findRunningJob tn s); [by intros [= _ <-]|].
  unfold _findQueuedTaskInChannel.
  destruct (optChannel o) as [c|] eqn:Hopt.
  - set (s1 := _getChannel c s).
    assert (Records s1) as Hrec1.
    { apply (Records_stamps s); [done|].
      apply Stamps_same; intros;
        [apply getChannel_job|apply getChannel_next|apply getChannel_chain]. }
    pose proof (Inv_getChannel None c s Hinv) as Hinv1. fold s1 in Hinv1.
    destruct (findWhere s1 (queue (channelOf s1 c)) tn); [by intros [= _ <-]|].
    rewrite createAndRunJob_unfold, Hopt.
    set (a := allocated tn ex ms o s1).
    pose proof (getChannel_exists c s) as Hex. fold s1 in Hex.
    assert (channels_get c (_channels a) ≠ None) as Hexa by exact Hex.
    rewrite (getChannel_id c a Hexa).
    unfold _queueJobToChannel.
    fold (pushed c (_nextExecutionId s1) a).
    destruct (_tryRunNextJobInChannel c (pushed c (_nextExecutionId s1) a))
      as [f|s2] eqn:Hrun; [done|]. simpl. intros [= _ <-].
    assert (Records s2) as Hrec2.
    { apply (Records_stamps a); [by apply Records_allocated|].
      eapply Stamps_trans; [|eapply tryRunNext_stamps_queue; [|exact Hrun]].
      - apply Stamps_same; intros; [apply pushed_job|apply pushed_next|apply pushed_chain].
      - intros k Hk. rewrite pushed_chain.
        change (chainOf a k) with (chainOf s1 k).
        unfold pushed in Hk. rewrite channelOf_upd_eq in Hk by done.
        simpl in Hk. apply elem_of_app in Hk as [Hk|Hk%list_elem_of_singleton].
        + destruct (queue_channelOf s1 c k Hk) as [Hch _].
          by destruct (inv_queue _ _ Hinv1 _ k Hch Hk) as (? & _).
        + subst k. by apply (inv_fresh _ _ Hinv1). }
    case_bool_decide; [done|].
    apply (Records_stamps s2); [done|]. by apply Stamps_same.
  - rewrite createAndRunJob_unfold, Hopt.
    destruct (_executeJob _ _) as [f|s1] eqn:Hrun; [done|]. simpl.
    intros [= _ <-]. apply executeJob_inr in Hrun as ->.
    apply (Records_stamps (allocated tn ex ms o s)); [by apply Records_allocated|].
    apply Stamps_started.
    change (chainOf s (_nextExecutionId s) = NotStarted).
    by apply (inv_fresh _ _ Hinv).
Qed.

Lemma report_fold_result rs o :
  let o' := foldl (fun b r => report r b) o rs in
  executionId o' = executionId o ∧ result o' = result o.
Proof.
  revert o; induction rs as [|r rs IH]; intros o; simpl; [done|].
  specialize (IH (report r o)). simpl in IH. destruct IH as (-> & ->).
  by destruct r.
Qed.

Lemma classified_resultOk o :
  result o = Some ResPending → resultOk (classifiedJob o) (classifiedChain o).
Proof.
  intros Hres. unfold classifiedJob, classifiedChain.
  destruct o as [? ? ? ? ? ? ? ? [[]|] [] ? ? ? ?]; simpl in *;
    repeat case_match; simpl; done.
Qed.

Lemma concluded_resultOk e o :
  result o = Some ResPending → resultOk (concludedJob e o) (concludedChain e o).
Proof.
  intros Hres. unfold concludedJob, concludedChain, recorded.
  destruct (truthy e); [destruct (errorText e); simpl|];
    try done; by apply classified_resultOk.
Qed.

Lemma onConcluded_next j e s :
  _nextExecutionId (onConcluded j e s) = _nextExecutionId s.
Proof.
  unfold onConcluded, onClassified, onFinishLogFailed. cbv zeta.
  by repeat (case_match; simplify_eq).
Qed.

Lemma onStarted_next j jobId now rs o s :
  _nextExecutionId (onStarted j jobId now rs o s) = _nextExecutionId s.
Proof.
  unfold onStarted. cbv zeta. by repeat (case_match; simplify_eq).
Qed.

Lemma report_fold_timer rs o :
  timeoutId (foldl (fun b r => report r b) o rs) = timeoutId o.
Proof.
  revert o; induction rs as [|r rs IH]; intros o; simpl; [done|].
  rewrite IH. by destruct r.
Qed.

Lemma onStarted_records j jobId now rs o s :
  Records s → chainOf s j = AwaitStart → Records (onStarted j jobId now rs o s).
Proof.
  intros Hrec Hc. destruct (Hrec j) as [_ Hres]. rewrite Hc in Hres.
  destruct Hres as (Hres & _).
  pose proof (report_fold_result rs
                (set_startTime now (set_logId jobId (jobOf s j)))) as Hf.
  cbv zeta in Hf. destruct Hf as (Hf1 & Hf2).
  apply (Records_local s _ j);
    [done|apply onStarted_next|apply onStarted_other| |].
  - unfold onStarted. cbv zeta.
    repeat (case_match; simplify_eq); norm_sched; simpl; by rewrite ?Hf1.
  - unfold onStarted. cbv zeta.
    repeat (case_match; simplify_eq); norm_sched; simpl; by rewrite ?Hf2.
Qed.

Lemma finishedAs_records x j r s :
  Inv x s → Records s → chainOf s j = AwaitCleanup r → Records (finishedAs j r s).
Proof.
  intros Hinv Hrec Hc. destruct (Hrec j) as [_ Hres]. rewrite Hc in Hres.
  pose proof (inv_job_ok _ _ Hinv j) as Hok. rewrite Hc in Hok.
  apply (Records_local s _ j); [done|done| | |]; unfold finishedAs.
  - intros k Hk. autorewrite with sched. by rewrite !decide_False.
  - by norm_sched.
  - norm_sched. destruct r as [r|]; [|by right]. left.
    destruct Hres as (_ & ->). split; [done|].
    crush_job (jobOf s j).
Qed.

Lemma Stamps_chain s s' j c :
  Stamps s s' → chainOf s j = c → c ≠ NotStarted → chainOf s' j = c.
Proof.
  intros (_ & _ & Hc) <- Hne. destruct (Hc j) as [?|[? _]]; done.
Qed.

Lemma step_records s ev s' :
  Good s → Records s → step s ev = Some (inr s') → Records s'.
Proof.
  intros Hgood Hrec Hstep. pose proof Hgood as [Hinv Hquiet].
  destruct ev as [tn ex ms o|j jobId now rs o|j e|j rp|j|j e|j|j ok|j|j];
    simpl in Hstep.
  - destruct (runTask tn ex ms o s) as [f|[j s1]] eqn:Hrun; [done|].
    simpl in Hstep. injection Hstep as <-. by eapply runTask_records.
  - destruct (chainOf s j) eqn:Hc; try done. injection Hstep as <-.
    by apply onStarted_records.
  - destruct (chainOf s j) eqn:Hc; try done. injection Hstep as <-.
    destruct (Hrec j) as [_ Hres]. rewrite Hc in Hres. destruct Hres as (Hres & _).
    apply (Records_local s _ j); norm_sched; try done.
    intros k Hk. autorewrite with sched. by rewrite decide_False.
  - destruct (chainOf s j) eqn:Hc; try done. injection Hstep as <-.
    destruct (Hrec j) as [_ Hres]. rewrite Hc in Hres.
    apply (Records_local s _ j); norm_sched; try done.
    + intros k Hk. autorewrite with sched. by rewrite decide_False.
    + by destruct rp.
    + rewrite Hc. by destruct rp.
  - destruct (chainOf s j) eqn:Hc; try done. injection Hstep as <-.
    destruct (Hrec j) as [_ Hres]. rewrite Hc in Hres.
    apply (Records_local s _ j); norm_sched; try done.
    intros k Hk. autorewrite with sched. by rewrite decide_False.
  - destruct (chainOf s j) eqn:Hc; try done. injection Hstep as <-.
    destruct (Hrec j) as [_ Hres]. rewrite Hc in Hres.
    apply (Records_local s _ j); norm_sched; try done.
    intros k Hk. autorewrite with sched. by rewrite decide_False.
  - destruct (chainOf s j) eqn:Hc; try done. injection Hstep as <-.
    destruct (Hrec j) as [_ Hres]. rewrite Hc in Hres.
    apply (Records_local s _ j);
      [done|apply onConcluded_next|apply onConcluded_other| |].
    + rewrite onConcluded_job. apply concludedJob_fields.
    + rewrite onConcluded_job, onConcluded_chain. by apply concluded_resultOk.
  - destruct (chainOf s j) eqn:Hc; try done. injection Hstep as <-.
    destruct (Hrec j) as [_ Hres]. rewrite Hc in Hres.
    apply (Records_local s _ j).
    + done.
    + by destruct ok.
    + intros k Hk. autorewrite with sched. rewrite decide_False by done.
      by destruct ok.
    + by destruct ok.
    + norm_sched. by destruct ok.
  - destruct (chainOf s j) eqn:Hc; try done. injection Hstep as Hstep.
    destruct (onCleanup_spec s j jobResult Hgood Hc)
      as [(_ & Hrun & _)|(Hto & i & s1 & s2 & _ & Hun & _ & Hpass & _ & Hinv2 & _ & Hrun & _)];
      rewrite Hrun in Hstep; injection Hstep as <-.
    + by apply (finishedAs_records None).
    + assert (j ∈ _runningJobs s) as Hj.
      { apply (inv_chain_run _ _ Hinv); [by rewrite Hc|done|done]. }
      destruct (unregisterJob_spec s j Hinv Hj) as (i' & s1' & _ & Hun' & Hinv1 & _).
      rewrite Hun in Hun'. injection Hun' as <-.
      assert (Stamps s s2) as Hst.
      { eapply Stamps_trans; [by eapply unregisterJob_stamps|].
        by eapply unstallLoop_stamps. }
      apply (finishedAs_records (Some j)); [done|by eapply Records_stamps|].
      by eapply Stamps_chain.
  - assert (step s (EvTimer j) = Some (inr s')) as Hstep' by exact Hstep.
    destruct (timer_step s j s' Hgood Hstep')
      as (Harmed & Hj & i & s1 & _ & Hun & _ & _ & _ & ->).
    destruct (armed_running s j Hinv Harmed Hj) as (_ & _ & Hcj).
    assert (chainOf s j ≠ Settled) as Hns.
    { destruct Hcj as [Hcj|[[e Hcj]|Hcj]]; by rewrite Hcj. }
    assert (Records (fired j s)) as Hrec0.
    { destruct (Hrec j) as [_ Hres]. unfold fired.
      apply (Records_local s _ j);
        [done|done| |by norm_sched|norm_sched; destruct (chainOf s j) as [| | | | |[]|]; done].
      intros k Hk. autorewrite with sched. by rewrite decide_False. }
    assert (Stamps (fired j s) s1) as Hst.
    { eapply unregisterJob_stamps; [|exact Hj|exact Hun]. by apply fired_keep. }
    assert (Records s1) as Hrec1 by (by apply (Records_stamps (fired j s))).
    assert (chainOf s1 j ≠ Settled) as Hns1.
    { destruct Hst as (_ & _ & Hst). destruct (Hst j) as [E|[_ E]]; rewrite E; [|done].
      unfold fired. by norm_sched. }
    destruct (Hrec1 j) as [_ Hres].
    apply (Records_local s1 _ j);
      [done|done| |by norm_sched|norm_sched; destruct (chainOf s1 j) as [| | | | |[]|]; done].
    intros k Hk. autorewrite with sched. by rewrite decide_False.
Qed.

Lemma reachable_records s : reachable s → Records s.
Proof.
  induction 1 as [|s ev s' Hr IH Hstep]; [apply Records_init|].
  eapply step_records; [by apply reachable_good|done|done].
Qed.






(** ** Timers *)

(** A pending timer belongs to a job of the running list with status running
    that has not timed out, or to a finished job that cb5 unregistered after
    cb3 threw.  Once cb3 has passed [clearTimeout] (the chain waits for
    [finishJob], or carries an assigned result) no timer is pending.  A timer
    step that raises nothing leaves the timer fired, so that it cannot fire
    again, and a job that timed out is not in the running list. *)
Theorem timer_discipline s :
  reachable s →
  (∀ j, timeoutId (jobOf s j) = Some TimerArmed →
     (j ∈ _runningJobs s ∧ status (jobOf s j) = StRunning
      ∧ timedOut (jobOf s j) = false)
     ∨ ((j ∉ _runningJobs s) ∧ status (jobOf s j) = StFinished
        ∧ result (jobOf s j) = None))
  ∧ (∀ j r, chainOf s j = AwaitFinishLog r ∨ chainOf s j = AwaitCleanup (Some r) →
       timeoutId (jobOf s j) ≠ Some TimerArmed)
  ∧ (∀ j s1, step s (EvTimer j) = Some (inr s1) →
       timeoutId (jobOf s1 j) = Some TimerFired
       ∧ timedOut (jobOf s1 j) = true
       ∧ step s1 (EvTimer j) = None)
  ∧ (∀ j, timedOut (jobOf s j) = true → j ∉ _runningJobs s).
Proof.
  intros Hr. pose proof (reachable_good s Hr) as Hgood.
  pose proof Hgood as [Hinv _]. split.
  { intros j Harmed.
    destruct (armed_cases s j Hinv Harmed)
      as [(? & ? & ? & _)|(Hout & Hc & Hst)]; [by left|right].
    split; [done|]. split; [done|].
    destruct (reachable_records s Hr j) as [_ Hres]. rewrite Hc in Hres.
    by destruct Hres as [[_ Hres]|Hres]. }
  split.
  { intros j r Hc Harmed. pose proof (inv_job_ok _ _ Hinv j) as Hok.
    destruct Hc as [Hc|Hc]; rewrite Hc in Hok; crush_job (jobOf s j). }
  split.
  { intros j s1 Hstep.
    destruct (timer_step s j s1 Hgood Hstep)
      as (Harmed & Hj & i & s0 & _ & _ & _ & _ & Hg & ->).
    assert (timeoutId (jobOf (upd_job j (set_timedOut true) s0) j)
            = Some TimerFired) as Hfired.
    { rewrite jobOf_upd_job_eq. simpl.
      rewrite (grows_job _ _ Hg), detached_job. unfold fired.
      by rewrite jobOf_upd_job_eq. }
    split; [exact Hfired|]. split; [by rewrite jobOf_upd_job_eq|].
    simpl. by rewrite Hfired. }
  intros j Hto Hin. destruct (inv_run_chain _ _ Hinv j Hin) as [_ Hto'].
  congruence.
Qed.

Lemma timer_discipline_witness :
  ∃ s, run script_armed init = Some s
       ∧ timeoutId (jobOf s 0) = Some TimerArmed
       ∧ 0 ∈ _runningJobs s ∧ status (jobOf s 0) = StRunning.
Proof.
  destruct (observe_Some _ _ _ script_armed_obs) as (s & Hrun & Hr & Hobs).
  injection Hobs as Harmed Hl _.
  exists s. split; [exact Hrun|]. split; [exact Harmed|].
  destruct (proj1 (timer_discipline s Hr) 0 Harmed)
    as [(? & ? & _)|(Hout & _)]; [done|].
  exfalso. apply Hout. rewrite Hl. apply list_elem_of_here.
Defined.


(** ** Requests that start at once *)

(** In a reachable state, a request without channel for a task that is not
    running creates a job with the next execution id and starts it at once:
    the job is appended to the running list, [startJob] is requested for its
    name, and the channels are left alone. *)
Theorem request_starts_unchanneled_job s tn ex ms sil :
  reachable s → tn ∉ runningNames s →
  ∃ s', runTask tn ex ms (mkOptions None sil) s = inr (_nextExecutionId s, s')
    ∧ _runningJobs s' = _runningJobs s ++ [_nextExecutionId s]
    ∧ _channels s' = _channels s
    ∧ jobOf s' (_nextExecutionId s)
      = newJobImpl (_nextExecutionId s) tn ex ms None (default false sil)
    ∧ chainOf s' (_nextExecutionId s) = AwaitStart
    ∧ _nextExecutionId s' = S (_nextExecutionId s)
    ∧ trace s' = trace s ++ [SinkStartJob tn].
Proof.
  intros Hr Hnr. destruct (reachable_good s Hr) as [Hinv _].
  set (o := mkOptions None sil). set (k := _nextExecutionId s).
  set (a := allocated tn ex ms o s).
  assert (jobOf a k = newJobImpl k tn ex ms None (default false sil)) as Hja.
  { unfold a, k. by rewrite allocated_job_eq. }
  exists (started k a). split.
  { unfold runTask.
    assert (_findRunningJob tn s = None) as -> by (by apply findWhere_None).
    simpl. rewrite createAndRunJob_unfold. simpl. fold o. fold a. fold k.
    rewrite executeJob_ok; [done|by rewrite Hja|].
    unfold blocked, nameOf. rewrite Hja. simpl.
    unfold a. by rewrite allocated_runningNames. }
  split; [reflexivity|]. split; [reflexivity|].
  split; [by rewrite jobOf_started|].
  split; [rewrite chainOf_started; by rewrite decide_True|].
  split; [reflexivity|].
  unfold started. simpl. by rewrite Hja.
Qed.

Lemma request_starts_unchanneled_job_witness :
  ∃ s s', run script_busy_channel init = Some s
          ∧ runTask "B" 1 100 noOptions s = inr (1, s')
          ∧ _runningJobs s' = _runningJobs s ++ [1].
Proof.
  destruct (observe_Some _ _ _ script_busy_channel_obs)
    as (s & Hrun & Hr & Hobs).
  injection Hobs as Hch Hrn Hnext.
  destruct (request_starts_unchanneled_job s "B" 1 100 None Hr)
    as (s' & H1 & H2 & _).
  - rewrite Hrn. intros [[=]|Hin']%elem_of_cons. by apply elem_of_nil in Hin'.
  - exists s, s'. rewrite Hnext in H1, H2. by split.
Defined.

Lemma channels_get_snoc cn m :
  channels_get cn m = None →
  channels_get cn (m ++ [mkChannel cn None []]) = Some (mkChannel cn None []).
Proof.
  induction m as [|c m IH]; simpl.
  - intros _. by rewrite bool_decide_eq_true_2.
  - case_bool_decide; [done|apply IH].
Qed.

Lemma channelOf_getChannel cn s : channelOf (_getChannel cn s) cn = channelOf s cn.
Proof.
  unfold _getChannel, channelOf.
  destruct (channels_get cn (_channels s)) as [ch|] eqn:Hget; [by rewrite Hget|].
  simpl. by rewrite channels_get_snoc.
Qed.

Lemma app_snoc_first_unblocked (P : ref → Prop) (q pre post : list ref) k k' :
  Forall P q → ¬ P k' → k ∉ q →
  pre ++ k' :: post = q ++ [k] → pre = q ∧ k' = k ∧ post = [].
Proof.
  revert pre; induction q as [|x q IH]; intros pre Hall Hk' Hk; simpl.
  - destruct pre as [|y pre]; simpl; [by intros [= -> ->]|].
    intros [= _ Hnil]. by destruct pre.
  - apply Forall_cons in Hall as [Hx Hall].
    destruct pre as [|y pre]; simpl.
    + intros [= -> _]. done.
    + intros [= -> Heq]. apply not_elem_of_cons in Hk as [_ Hk].
      destruct (IH pre Hall Hk' Hk Heq) as (-> & -> & ->). done.
Qed.

(** In a reachable state, a request for channel [c], for a task that is
    neither running nor queued in [c], while [c] runs no job (or does not
    exist yet), starts the new job at once: it takes the channel's slot
    without passing the jobs that wait in the queue, which stay where they
    are, it is appended to the running list, and [startJob] is requested. *)
Theorem request_starts_in_idle_channel s tn ex ms sil c :
  reachable s → tn ∉ runningNames s →
  runningJob (channelOf s c) = None →
  tn ∉ nameOf s <$> queue (channelOf s c) →
  ∃ s', runTask tn ex ms (mkOptions (Some c) sil) s
        = inr (_nextExecutionId s, s')
    ∧ _runningJobs s' = _runningJobs s ++ [_nextExecutionId s]
    ∧ channelOf s' c
      = mkChannel c (Some (_nextExecutionId s)) (queue (channelOf s c))
    ∧ jobOf s' (_nextExecutionId s)
      = newJobImpl (_nextExecutionId s) tn ex ms (Some c) (default false sil)
    ∧ chainOf s' (_nextExecutionId s) = AwaitStart
    ∧ trace s' = trace s ++ [SinkStartJob tn].
Proof.
  intros Hr Hnr Hidle Hnq. destruct (reachable_good s Hr) as [Hinv Hquiet].
  set (o := mkOptions (Some c) sil).
  set (s1 := _getChannel c s).
  pose proof (Inv_getChannel None c s Hinv) as Hinv1.
  pose proof (Quiet_getChannel c s Hquiet) as Hquiet1.
  pose proof (getChannel_exists c s) as Hex. fold s1 in Hinv1, Hquiet1, Hex.
  destruct (channels_get c (_channels s1)) as [ch|] eqn:Hget; [|done].
  destruct (channels_get_Some _ _ _ Hget) as [Hch Hcn].
  assert (channelOf s1 c = ch) as Hof1 by (unfold channelOf; by rewrite Hget).
  assert (channelOf s c = ch) as Hof.
  { rewrite <- Hof1. unfold s1. by rewrite channelOf_getChannel. }
  rewrite Hof in Hidle, Hnq |- *.
  set (k := _nextExecutionId s).
  set (a := allocated tn ex ms o s1).
  assert (jobOf a k = newJobImpl k tn ex ms (Some c) (default false sil)) as Hja.
  { unfold a, k. rewrite <- (getChannel_next c s). fold s1.
    by rewrite allocated_job_eq. }
  assert (∀ j, j ∈ queue ch → jobOf a j = jobOf s j ∧ j < k) as Hqj.
  { intros j Hj. destruct (inv_queue _ _ Hinv1 ch j Hch Hj) as (_ & Hlt & _).
    unfold s1 in Hlt. rewrite getChannel_next in Hlt. split; [|done].
    unfold a. rewrite allocated_job_ne; [apply getChannel_job|].
    unfold s1. rewrite getChannel_next. lia. }
  assert (channels_get c (_channels a) ≠ None) as Hexa.
  { change (_channels a) with (_channels s1). by rewrite Hget. }
  set (p := pushed c k a).
  assert (channelOf p c = mkChannel c None (queue ch ++ [k])) as Hofp.
  { unfold p, pushed. rewrite channelOf_upd_eq; [|done|exact Hexa].
    change (channelOf a c) with (channelOf s1 c).
    rewrite Hof1. simpl. by rewrite Hidle, Hcn. }
  assert (runningNames p = runningNames s) as Hrnp.
  { unfold p. rewrite pushed_runningNames. unfold a.
    rewrite allocated_runningNames by exact Hinv1.
    apply getChannel_runningNames. }
  assert (Forall (blocked p) (queue ch)) as Hblocked.
  { pose proof (Hquiet1 ch Hch Hidle) as Hall.
    rewrite Forall_forall in Hall |- *. intros j Hj. specialize (Hall j Hj).
    unfold blocked in *. rewrite Hrnp.
    unfold s1 in Hall. rewrite getChannel_runningNames, getChannel_nameOf in Hall.
    unfold nameOf in *. unfold p. rewrite pushed_job.
    by rewrite (proj1 (Hqj j Hj)). }
  assert (¬ blocked p k) as Hfree.
  { unfold blocked. rewrite Hrnp. unfold nameOf, p. rewrite pushed_job, Hja. done. }
  assert (k ∉ queue ch) as Hkq.
  { intros Hin. destruct (Hqj k Hin) as [_ ?]. lia. }
  destruct (tryRunNext_spec None p c) as (s2 & Hrun & _).
  { unfold p. apply Inv_pushed.
    - by apply Inv_allocated.
    - change (chainOf s1 k = NotStarted). apply (inv_fresh _ _ Hinv1).
      unfold s1. rewrite getChannel_next. done.
    - unfold a, s1. simpl. rewrite getChannel_next. unfold k. lia.
    - by rewrite Hja.
    - intros c0 j Hc0 Hj.
      destruct (inv_queue _ _ Hinv1 c0 j Hc0 Hj) as (_ & Hlt & _).
      unfold s1 in Hlt. by rewrite getChannel_next in Hlt.
    - change (channelOf a c) with (channelOf s1 c). rewrite Hof1.
      unfold nameOf at 1. rewrite Hja. simpl.
      intros (j & Hj1 & Hj2)%list_elem_of_fmap. apply Hnq.
      apply list_elem_of_fmap. exists j. split; [|done].
      unfold nameOf in *. by rewrite <- (proj1 (Hqj j Hj2)). }
  assert (s2 = promoted c (length (queue ch)) k p) as ->.
  { destruct (tryRunNext_cases _ _ _ Hrun)
      as [[_ [Hbusy|Hall]]|(pre & k' & post & _ & Hq & Hpre & Hk' & ->)].
    - rewrite Hofp in Hbusy. done.
    - rewrite Hofp in Hall. simpl in Hall.
      apply Forall_app in Hall as [_ Hall].
      exfalso. apply Hfree. by inversion Hall.
    - rewrite Hofp in Hq. simpl in Hq.
      destruct (app_snoc_first_unblocked (blocked p) _ _ _ _ _ Hblocked Hk' Hkq (eq_sym Hq))
        as (-> & -> & _). done. }
  assert (channelOf (promoted c (length (queue ch)) k p) c
          = mkChannel c (Some k) (queue ch)) as Hofs.
  { unfold promoted, started.
    change (channelOf (upd_channel c
              (λ c0, mkChannel (name c0) (Some k) (delete (length (queue ch)) (queue c0)))
              p) c = mkChannel c (Some k) (queue ch)).
    rewrite channelOf_upd_eq; [|done|].
    - rewrite Hofp. simpl. f_equal.
      rewrite delete_middle. apply app_nil_r.
    - unfold p, pushed, upd_channel. simpl.
      rewrite channels_get_upd by done.
      change (_channels a) with (_channels s1). by rewrite Hget. }
  exists (promoted c (length (queue ch)) k p). split.
  { unfold runTask.
    assert (_findRunningJob tn s = None) as -> by (by apply findWhere_None).
    unfold _findQueuedTaskInChannel. simpl. fold s1. rewrite Hof1.
    assert (findWhere s1 (queue ch) tn = None) as ->.
    { apply findWhere_None. unfold s1. by rewrite getChannel_nameOf. }
    rewrite createAndRunJob_unfold. simpl. fold o. fold a.
    replace (_nextExecutionId s1) with k
      by (unfold s1; by rewrite getChannel_next).
    rewrite (getChannel_id c a) by exact Hexa.
    unfold _queueJobToChannel. fold (pushed c k a). fold p.
    rewrite Hrun. simpl. rewrite Hofs. simpl.
    by rewrite bool_decide_eq_true_2. }
  split.
  { change (_runningJobs s1 ++ [k] = _runningJobs s ++ [k]).
    unfold s1. by rewrite getChannel_running. }
  split; [exact Hofs|].
  split; [by rewrite jobOf_promoted|].
  split; [rewrite chainOf_promoted; by rewrite decide_True|].
  unfold promoted, started. simpl.
  change (trace s1 ++ [SinkStartJob (taskName (jobOf a k))]
          = trace s ++ [SinkStartJob tn]).
  rewrite Hja. simpl. f_equal. unfold s1, _getChannel.
  by destruct (channels_get c (_channels s)).
Qed.

Lemma request_starts_in_idle_channel_witness :
  ∃ s s', run script_three_channels init = Some s
          ∧ runTask "Z" 5 100 (inChannel "b") s = inr (_nextExecutionId s, s')
          ∧ channelOf s' "b" = mkChannel "b" (Some (_nextExecutionId s)) [3].
Proof.
  destruct (observe_Some _ _ _ script_three_channels_obs)
    as (s & Hrun & Hr & Hobs).
  injection Hobs as Hch Hrj Hn3 Hn4 _.
  assert (channelOf s "b" = mkChannel "b" None [3]) as Hof.
  { unfold channelOf. by rewrite Hch. }
  destruct (request_starts_in_idle_channel s "Z" 5 100 None "b" Hr)
    as (s' & H1 & _ & H2 & _).
  - unfold runningNames. unfold getRunningJobs in Hrj. rewrite Hrj. simpl.
    rewrite Hn4. intros [[=]|Hin]%elem_of_cons. by apply elem_of_nil in Hin.
  - by rewrite Hof.
  - rewrite Hof. simpl. rewrite Hn3.
    intros [[=]|Hin]%elem_of_cons. by apply elem_of_nil in Hin.
  - exists s, s'. rewrite Hof in H2.
    split; [exact Hrun|]. split; [exact H1|exact H2].
Defined.

(** ** Channels are created by requests and never removed *)

Lemma getChannel_names cn s :
  name <$> _channels (_getChannel cn s) = name <$> _channels s
  ∨ ((cn ∉ name <$> _channels s)
     ∧ name <$> _channels (_getChannel cn s) = (name <$> _channels s) ++ [cn]).
Proof.
  unfold _getChannel. destruct (channels_get cn (_channels s)) eqn:Hget; [by left|].
  right. split; [by apply channels_get_None|]. simpl. by rewrite fmap_app.
Qed.

Lemma tryRunNext_names cn s s' :
  _tryRunNextJobInChannel cn s = inr s' →
  name <$> _channels s' = name <$> _channels s.
Proof.
  intros Hrun.
  destruct (tryRunNext_cases _ _ _ Hrun)
    as [[[->|[es ->]] _]|(pre & k & post & _ & _ & _ & _ & ->)]; [done|done|].
  unfold promoted, started. simpl.
  change (name <$> _channels (upd_channel cn
            (λ c, mkChannel (name c) (Some k) (delete (length pre) (queue c))) s)
          = name <$> _channels s).
  by apply upd_channel_names.
Qed.

Lemma runTask_names tn ex ms o s j s' :
  runTask tn ex ms o s = inr (j, s') →
  name <$> _channels s' = name <$> _channels s
  ∨ ∃ c, optChannel o = Some c ∧ (c ∉ name <$> _channels s)
         ∧ name <$> _channels s' = (name <$> _channels s) ++ [c].
Proof.
  unfold runTask. destruct (_findRunningJob tn s); [intros [= _ <-]; by left|].
  unfold _findQueuedTaskInChannel.
  destruct (optChannel o) as [c|] eqn:Hopt.
  - assert (∀ s2, name <$> _channels s2 = name <$> _channels (_getChannel c s) →
              name <$> _channels s2 = name <$> _channels s
              ∨ ∃ c0, Some c = Some c0 ∧ (c0 ∉ name <$> _channels s)
                      ∧ name <$> _channels s2 = (name <$> _channels s) ++ [c0])
      as Hvia.
    { intros s2 ->. destruct (getChannel_names c s) as [?|[? ?]]; [by left|].
      right. by exists c. }
    destruct (findWhere _ _ _); [intros [= _ <-]; by apply Hvia|].
    rewrite createAndRunJob_unfold, Hopt.
    set (a := allocated tn ex ms o (_getChannel c s)).
    assert (channels_get c (_channels a) ≠ None) as Hexa
      by apply (getChannel_exists c s).
    rewrite (getChannel_id c a Hexa). unfold _queueJobToChannel.
    destruct (_tryRunNextJobInChannel _ _) as [f|s2] eqn:Hrun; [done|]. simpl.
    apply tryRunNext_names in Hrun. rewrite upd_channel_names in Hrun by done.
    intros [= _ <-]. apply Hvia. by case_bool_decide.
  - rewrite createAndRunJob_unfold, Hopt.
    destruct (_executeJob _ _) as [f|s1] eqn:Hrun; [done|]. simpl.
    intros [= _ <-]. apply executeJob_inr in Hrun as ->. by left.
Qed.

(** The channel map only grows, and only on requests.  An event of a
    reachable state leaves the list of channel names as it is, unless it is a
    request that names a channel which does not exist yet: that channel is
    then appended.  No event removes or reorders channels. *)
Theorem channels_are_never_removed s ev s' :
  reachable s → step s ev = Some (inr s') →
  name <$> _channels s' = name <$> _channels s
  ∨ ∃ tn ex ms c sil,
      ev = EvRunTask tn ex ms (mkOptions (Some c) sil)
      ∧ (c ∉ name <$> _channels s)
      ∧ name <$> _channels s' = (name <$> _channels s) ++ [c].
Proof.
  intros Hr Hstep. pose proof (reachable_good s Hr) as Hgood.
  destruct ev as [tn ex ms o|j jobId now rs o|j e|j rp|j|j e|j|j ok|j|j];
    simpl in Hstep.
  - destruct (runTask tn ex ms o s) as [f|[j s1]] eqn:Hrun; [done|].
    simpl in Hstep. injection Hstep as <-.
    destruct (runTask_names _ _ _ _ _ _ _ Hrun) as [?|(c & Hopt & Hc & Hn)];
      [by left|].
    right. exists tn, ex, ms, c, (optSilent o). destruct o; simpl in *.
    by subst.
  - destruct (chainOf s j); try done. injection Hstep as <-. left.
    unfold onStarted. cbv zeta. by repeat (case_match; simplify_eq).
  - destruct (chainOf s j); try done. injection Hstep as <-. by left.
  - destruct (chainOf s j); try done. injection Hstep as <-. by left.
  - destruct (chainOf s j); try done. injection Hstep as <-. by left.
  - destruct (chainOf s j); try done. injection Hstep as <-. by left.
  - destruct (chainOf s j); try done. injection Hstep as <-. left.
    unfold onConcluded, onClassified, onFinishLogFailed. cbv zeta.
    by repeat (case_match; simplify_eq).
  - destruct (chainOf s j); try done. injection Hstep as <-. left.
    by destruct ok.
  - destruct (chainOf s j) eqn:Hc; try done. injection Hstep as Hstep. left.
    destruct (onCleanup_spec s j jobResult Hgood Hc)
      as [(_ & Hrun & _)|(_ & i & s1 & s2 & _ & _ & Hg1 & _ & Hg2 & _ & _ & Hrun & _)];
      rewrite Hrun in Hstep; injection Hstep as <-; [done|].
    change (name <$> _channels s2 = name <$> _channels s).
    by rewrite (grows_names _ _ Hg2), (grows_names _ _ Hg1), detached_names.
  - assert (step s (EvTimer j) = Some (inr s')) as Hstep' by exact Hstep.
    destruct (timer_step s j s' Hgood Hstep')
      as (_ & _ & i & s1 & _ & _ & _ & _ & Hg & ->). left.
    change (name <$> _channels s1 = name <$> _channels s).
    by rewrite (grows_names _ _ Hg), detached_names.
Qed.

Lemma channels_are_never_removed_witness :
  ∃ s s', run script_three_channels init = Some s
          ∧ step s (EvTimer 4) = Some (inr s')
          ∧ name <$> _channels s' = name <$> _channels s.
Proof.
  destruct (observe_Some _ _ _ script_three_channels_timeout_obs)
    as (s' & Hrun' & _ & Hobs').
  destruct (proj1 (run_snoc _ _ _ _) Hrun') as (s & Hrun & Hstep).
  pose proof (run_reachable _ _ _ reachable_init Hrun) as Hr.
  exists s, s'. split; [exact Hrun|]. split; [exact Hstep|].
  destruct (channels_are_never_removed s (EvTimer 4) s' Hr Hstep)
    as [Hsame|(tn & ex & ms & c & sil & [=] & _)].
  exact Hsame.
Defined.
(** ** Log entries and executor calls *)

(** A job has a log id exactly when its executor has been called, and the
    call passed the executor stored in the job.  (cb1 stores the id that
    [startJob] resolved with and calls the executor in the same turn; nothing
    else does either.) *)
Theorem log_entry_iff_executor_called s j :
  reachable s →
  (logId (jobOf s j) ≠ None ↔ Invoke j (executor (jobOf s j)) ∈ trace s)
  ∧ (∀ ex, Invoke j ex ∈ trace s → ex = executor (jobOf s j)).
Proof.
  intros Hr. pose proof (reachable_logged s Hr) as Hlog.
  destruct (reachable_invoked s Hr) as [_ Hcalled]. split; [split|].
  - intros Hl. apply invocations_elem. by apply Hlog.
  - intros Hin%invocations_elem. by destruct (Hcalled _ _ Hin) as (_ & ? & _).
  - intros ex Hin%invocations_elem. by destruct (Hcalled _ _ Hin) as (? & _).
Qed.

Lemma log_entry_iff_executor_called_witness :
  ∃ s, run script_armed init = Some s
       ∧ (logId (jobOf s 0) ≠ None ↔ Invoke 0 (executor (jobOf s 0)) ∈ trace s).
Proof.
  destruct (observe_Some _ _ _ script_armed_obs) as (s & Hrun & Hr & _).
  exists s. split; [exact Hrun|].
  apply (log_entry_iff_executor_called s 0 Hr).
Defined.

